(** * Leyes_DataMakers: the regex-driven legal text segmenter

    A shallow embedding of [14/OTROSIPYNB/legal_text_processor.py]
    (class [LegalTextParser]) and the properties of its specification.

    Python [str] values are sequences of Unicode code points, so a string
    is modelled as a list of code points ([N]).  The [re] patterns of
    [LegalTextParser.__init__] are written as abstract syntax and run by a
    backtracking matcher that enumerates the candidate matches in the order
    in which Python's engine tries them; the first candidate is the match. *)

From Stdlib Require Import List NArith ZArith Bool Lia String Ascii Arith Sorted.
Import ListNotations.

(* ================================================================== *)
(** * Python strings *)
(* ================================================================== *)

Module PyStr.

Open Scope N_scope.

Definition char := N.
Definition str := list char.

Definition LF : char := 10.
Definition SP : char := 32.

(** ** Literals: the source file is UTF-8, so is this one. *)

Definition bytes_of (s : string) : list N :=
  map N_of_ascii (list_ascii_of_string s).

(** Decoder for well-formed UTF-8 (used on literals only). *)
Fixpoint utf8_decode (fuel : nat) (bs : list N) : str :=
  match fuel with
  | O => []
  | S fuel' =>
    match bs with
    | [] => []
    | b0 :: r0 =>
      if b0 <? 128 then b0 :: utf8_decode fuel' r0
      else if b0 <? 224 then
        match r0 with
        | b1 :: r1 => ((b0 - 192) * 64 + (b1 - 128)) :: utf8_decode fuel' r1
        | _ => []
        end
      else if b0 <? 240 then
        match r0 with
        | b1 :: b2 :: r2 =>
            ((b0 - 224) * 4096 + (b1 - 128) * 64 + (b2 - 128))
              :: utf8_decode fuel' r2
        | _ => []
        end
      else
        match r0 with
        | b1 :: b2 :: b3 :: r3 =>
            ((b0 - 240) * 262144 + (b1 - 128) * 4096 + (b2 - 128) * 64
             + (b3 - 128)) :: utf8_decode fuel' r3
        | _ => []
        end
    end
  end.

Definition utf8 (s : string) : str :=
  let bs := bytes_of s in utf8_decode (List.length bs) bs.

(** ** Whitespace: [Py_UNICODE_ISSPACE], shared by [str.strip], [str.isspace]
    and the [\s] class of [re] on [str] patterns. *)

Definition isspace (c : char) : bool :=
  ((9 <=? c) && (c <=? 13)) || ((28 <=? c) && (c <=? 32))
  || (c =? 133) || (c =? 160) || (c =? 5760)
  || ((8192 <=? c) && (c <=? 8202))
  || (c =? 8232) || (c =? 8233) || (c =? 8239) || (c =? 8287) || (c =? 12288).

(** ** [str.strip()] *)

Fixpoint lstrip (s : str) : str :=
  match s with
  | c :: s' => if isspace c then lstrip s' else s
  | [] => []
  end.

Definition rstrip (s : str) : str := rev (lstrip (rev s)).

Definition strip (s : str) : str := rstrip (lstrip s).

(** [s.rstrip('.')] *)
Fixpoint lstrip_char (d : char) (s : str) : str :=
  match s with
  | c :: s' => if c =? d then lstrip_char d s' else s
  | [] => []
  end.

Definition rstrip_char (d : char) (s : str) : str :=
  rev (lstrip_char d (rev s)).

(** ** [s.split('\n')]: never empty, [''.split('\n') == ['']]. *)

Fixpoint split_nl (s : str) : list str :=
  match s with
  | [] => [[]]
  | c :: s' =>
    if c =? LF then [] :: split_nl s'
    else match split_nl s' with
         | l :: ls => (c :: l) :: ls
         | [] => [[c]]
         end
  end.

(** ** [sep.join(parts)] *)

Fixpoint join (sep : str) (parts : list str) : str :=
  match parts with
  | [] => []
  | [p] => p
  | p :: ps => p ++ sep ++ join sep ps
  end.

(** ** [s.replace(c, '')] for a one-character [c]. *)

Definition remove_char (d : char) (s : str) : str :=
  filter (fun c => negb (c =? d)) s.

(** ** Slices [l[a:b]] with non-negative bounds. *)

Definition slice {A} (l : list A) (a b : nat) : list A :=
  skipn a (firstn b l).

(** ** Truthiness of a string / of a list. *)

Definition nonempty {A} (l : list A) : bool :=
  match l with [] => false | _ => true end.

(** ** Simple case mapping ([Py_UNICODE_TOLOWER]).

    The table is exact for every code point whose lower-case form lies in
    Latin-1 (U+0000..U+00FF): the ASCII and Latin-1 capitals, and the five
    characters outside Latin-1 that fold into it (U+0130, U+0178, U+1E9E,
    U+212A, U+212B).  Every other code point is left unchanged; its true
    lower-case form, if different, is outside Latin-1 as well.  The patterns
    of this program only compare lower-cased characters with Latin-1
    letters, so the matcher observes no difference. *)

Definition tolower (c : char) : char :=
  if (65 <=? c) && (c <=? 90) then c + 32
  else if (192 <=? c) && (c <=? 222) && negb (c =? 215) then c + 32
  else if c =? 304 then 105          (* U+0130 -> i *)
  else if c =? 376 then 255          (* U+0178 -> U+00FF *)
  else if c =? 7838 then 223         (* U+1E9E -> U+00DF *)
  else if c =? 8490 then 107         (* U+212A KELVIN SIGN -> k *)
  else if c =? 8491 then 229         (* U+212B ANGSTROM SIGN -> U+00E5 *)
  else c.

(** [sre_compile._ignorecase_fixes]: characters that are equivalent under
    IGNORECASE although their lower-case forms differ (the entries for
    the ASCII letters; the patterns contain no other letter that has one). *)
Definition ignorecase_fixes (lo : char) : list char :=
  if lo =? 105 then [305]            (* i ~ U+0131 dotless i *)
  else if lo =? 115 then [383]       (* s ~ U+017F long s *)
  else [].

End PyStr.

Import PyStr.

(* ================================================================== *)
(** * Regular expressions ([re]) *)
(* ================================================================== *)

Module Regex.

Open Scope N_scope.

(** Members of a character class. *)
Inductive citem : Type :=
| CLit (c : char)              (* a literal character *)
| CRange (lo hi : char)        (* [lo-hi] *)
| CSpace                       (* \s *)
| CAny.                        (* .  (no DOTALL: anything but a newline) *)

(** The fragment of the [re] syntax that the patterns use.  Repetition is
    only ever applied to a single character class. *)
Inductive re : Type :=
| REps
| RChar (cs : list citem)      (* one character of the class *)
| RSeq (a b : re)
| RAlt (a b : re)              (* a|b, left alternative first *)
| RStar (cs : list citem)      (* cs*   greedy *)
| RStarLazy (cs : list citem)  (* cs*?  lazy *)
| RGroup (n : nat) (a : re)    (* capturing group number n *)
| REol.                        (* $ under MULTILINE *)

Definition RPlus (cs : list citem) : re := RSeq (RChar cs) (RStar cs).
Definition ROpt (a : re) : re := RAlt a REps.

(** A literal word. *)
Fixpoint RLit (w : str) : re :=
  match w with
  | [] => REps
  | c :: w' => RSeq (RChar [CLit c]) (RLit w')
  end.

(** [a1|a2|...|an] *)
Fixpoint RAlts (l : list re) : re :=
  match l with
  | [] => RChar []
  | a :: l' => RAlt a (RAlts l')
  end.

(** [a1 a2 ... an] *)
Fixpoint RSeqs (l : list re) : re :=
  match l with
  | [] => REps
  | a :: l' => RSeq a (RSeqs l')
  end.

(** ** Character tests.  [ic] is the IGNORECASE flag.

    Under IGNORECASE a class is tested against the lower-cased subject
    character and holds the lower-cased literals plus their fixes
    ([sre_compile._optimize_charset], opcode [IN_UNI_IGNORE]).  The only
    range used under IGNORECASE is [0-9], whose members are uncased. *)

Definition citem_match (ic : bool) (it : citem) (c : char) : bool :=
  match it with
  | CLit l =>
      if ic then
        let lo := tolower l in
        let x := tolower c in
        (x =? lo) || existsb (N.eqb x) (ignorecase_fixes lo)
      else c =? l
  | CRange lo hi =>
      let x := if ic then tolower c else c in
      (lo <=? x) && (x <=? hi)
  | CSpace => isspace c
  | CAny => negb (c =? LF)
  end.

Definition cls_match (ic : bool) (cs : list citem) (c : char) : bool :=
  existsb (fun it => citem_match ic it c) cs.

(** ** Captures *)

Definition caps := list (nat * str).

Fixpoint group (n : nat) (g : caps) : str :=
  match g with
  | [] => []
  | (k, v) :: g' => if Nat.eqb k n then v else group n g'
  end.

(** The text consumed between subject [s] and its suffix [s1]. *)
Definition consumed (s s1 : str) : str :=
  firstn (List.length s - List.length s1) s.

(** ** The matcher.

    [run ic r s g] lists the ways [r] can match a prefix of [s], as pairs
    (rest of the subject, captures), in the order a backtracking engine
    explores them: greedy repetition longest first, lazy repetition
    shortest first, alternatives left to right. *)

Fixpoint star_greedy (ic : bool) (cs : list citem) (s : str) : list str :=
  match s with
  | c :: s' =>
      if cls_match ic cs c then star_greedy ic cs s' ++ [s] else [s]
  | [] => [[]]
  end.

Fixpoint star_lazy (ic : bool) (cs : list citem) (s : str) : list str :=
  match s with
  | c :: s' =>
      if cls_match ic cs c then s :: star_lazy ic cs s' else [s]
  | [] => [[]]
  end.

Definition at_eol (s : str) : bool :=
  match s with
  | [] => true
  | c :: _ => c =? LF
  end.

Fixpoint run (ic : bool) (r : re) (s : str) (g : caps) : list (str * caps) :=
  match r with
  | REps => [(s, g)]
  | RChar cs =>
      match s with
      | c :: s' => if cls_match ic cs c then [(s', g)] else []
      | [] => []
      end
  | RSeq a b => flat_map (fun m => run ic b (fst m) (snd m)) (run ic a s g)
  | RAlt a b => run ic a s g ++ run ic b s g
  | RStar cs => map (fun s1 => (s1, g)) (star_greedy ic cs s)
  | RStarLazy cs => map (fun s1 => (s1, g)) (star_lazy ic cs s)
  | RGroup n a =>
      map (fun m => (fst m, (n, consumed s (fst m)) :: snd m)) (run ic a s g)
  | REol => if at_eol s then [(s, g)] else []
  end.

(** [pattern.match(s)]: anchored at position 0 (where [^] holds, with or
    without MULTILINE); the result is the first candidate. *)
Definition re_match (ic : bool) (r : re) (s : str) : option caps :=
  match run ic r s [] with
  | [] => None
  | m :: _ => Some (snd m)
  end.

Definition re_test (ic : bool) (r : re) (s : str) : bool :=
  match re_match ic r s with Some _ => true | None => false end.

(** [re.sub(r, '', s)] for a pattern [r] that starts with [^] (no
    MULTILINE) and matches no empty text: only a match at position 0 can be
    replaced, and what is left is the rest of the subject. *)
Definition re_sub_prefix (ic : bool) (r : re) (s : str) : str :=
  match run ic r s [] with
  | [] => s
  | m :: _ => fst m
  end.

End Regex.

Import Regex.

(* ================================================================== *)
(** * The data model (the Pydantic classes) *)
(* ================================================================== *)

(** Every model sets [str_strip_whitespace]; each string stored below is
    already stripped when it reaches its constructor (a stripped line, a
    [limpiar_texto] result or a capture without blanks), so validation
    leaves it as it is. *)

Record Fraccion : Type := mkFraccion {
  fraccion : str;                 (* identifier: I, II, a), 1) ... *)
  fraccion_texto : str
}.

Record Articulo : Type := mkArticulo {
  articulo : Z;
  articulo_texto : str;
  fracciones : list Fraccion
}.

Record Capitulo : Type := mkCapitulo {
  capitulo : str;
  articulos : list Articulo
}.

Record Transitorio : Type := mkTransitorio {
  transitorio_articulo : str;     (* Primero, Segundo, ... *)
  transitorio_texto : str
}.

Record LeyStructure : Type := mkLeyStructure {
  decreto : option str;
  anio_publicacion : option Z;
  titulo : str;
  capitulos : list Capitulo;
  transitorios : list Transitorio
}.

(* ================================================================== *)
(** * LegalTextParser *)
(* ================================================================== *)

Open Scope N_scope.

(** ** [self.patterns]

    The source patterns are quoted in the comments with a blank inserted
    before the closing parenthesis of their last group, [(.* )]. *)

Definition word (w : string) : re := RLit (utf8 w).

Definition roman : list citem := map CLit (utf8 "IVXLCDM").
Definition digit : list citem := [CRange 48 57].
Definition dash : list citem := map CLit (utf8 "-–—").

(** The common tail of the item patterns: \s*[-–—]?\s*(.* ) *)
Definition sep_and_text : list re :=
  [RStar [CSpace]; ROpt (RChar dash); RStar [CSpace]; RGroup 2 (RStar [CAny])].

(** capitulo: ^(TÍTULO|CAPÍTULO)\s+([IVXLCDM]+|[0-9]+|PRIMERO|SEGUNDO|TERCERO|ÚNICO).*?$
    with MULTILINE | IGNORECASE *)
Definition pat_capitulo : re :=
  RSeqs [ RGroup 1 (RAlts [word "TÍTULO"; word "CAPÍTULO"]);
          RPlus [CSpace];
          RGroup 2 (RAlts [RPlus roman; RPlus digit; word "PRIMERO";
                           word "SEGUNDO"; word "TERCERO"; word "ÚNICO"]);
          RStarLazy [CAny];
          REol ].

(** articulo: ^Artículo\s+([0-9]+º?|ÚNICO|Único)\.?\s*[-–—]?\s*(.* )
    with MULTILINE *)
Definition pat_articulo : re :=
  RSeqs ([ word "Artículo";
           RPlus [CSpace];
           RGroup 1 (RAlts [RSeq (RPlus digit) (ROpt (word "º"));
                            word "ÚNICO"; word "Único"]);
           ROpt (word ".") ] ++ sep_and_text).

(** fraccion: ^([IVXLCDM]+|[a-z]\)|[0-9]+\))\.\s*[-–—]?\s*(.* )
    with MULTILINE *)
Definition pat_fraccion : re :=
  RSeqs ([ RGroup 1 (RAlts [RPlus roman;
                            RSeq (RChar [CRange 97 122]) (word ")");
                            RSeq (RPlus digit) (word ")")]);
           word "." ] ++ sep_and_text).

(** transitorios: ^(TRANSITORIOS|ARTÍCULOS?\s+TRANSITORIOS)
    with MULTILINE | IGNORECASE *)
Definition pat_transitorios : re :=
  RGroup 1 (RAlts [word "TRANSITORIOS";
                   RSeqs [word "ARTÍCULO"; ROpt (word "S"); RPlus [CSpace];
                          word "TRANSITORIOS"]]).

(** transitorio_item:
    ^(PRIMERO|SEGUNDO|TERCERO|CUARTO|QUINTO|SEXTO|SÉPTIMO|OCTAVO|NOVENO|DÉCIMO|[0-9]+º?|[IVXLCDM]+)\.?\s*[-–—]?\s*(.* )
    with MULTILINE | IGNORECASE *)
Definition ordinales : list string :=
  ["PRIMERO"; "SEGUNDO"; "TERCERO"; "CUARTO"; "QUINTO"; "SEXTO"; "SÉPTIMO";
   "OCTAVO"; "NOVENO"; "DÉCIMO"]%string.

Definition pat_transitorio_item : re :=
  RSeqs ([ RGroup 1 (RAlts (map word ordinales
                            ++ [RSeq (RPlus digit) (ROpt (word "º"));
                                RPlus roman]));
           ROpt (word ".") ] ++ sep_and_text).

(** [extraer_decreto]: ^(LEY|CÓDIGO|CONSTITUCIÓN|REGLAMENTO|TÍTULO|CAPÍTULO)
    with IGNORECASE *)
Definition pat_fin_decreto : re :=
  RGroup 1 (RAlts [word "LEY"; word "CÓDIGO"; word "CONSTITUCIÓN";
                   word "REGLAMENTO"; word "TÍTULO"; word "CAPÍTULO"]).

(** [extraer_titulo]: ^(LEY|CÓDIGO|CONSTITUCIÓN|REGLAMENTO) with IGNORECASE *)
Definition pat_ley : re :=
  RGroup 1 (RAlts [word "LEY"; word "CÓDIGO"; word "CONSTITUCIÓN";
                   word "REGLAMENTO"]).

(** [extraer_titulo]: ^(LEY\s+DE\s+INGRESOS\s+DEL\s+|LEY\s+) with IGNORECASE *)
Definition pat_prefijo_ley : re :=
  RGroup 1 (RAlts [RSeqs [word "LEY"; RPlus [CSpace]; word "DE";
                          RPlus [CSpace]; word "INGRESOS"; RPlus [CSpace];
                          word "DEL"; RPlus [CSpace]];
                   RSeq (word "LEY") (RPlus [CSpace])]).

Definition es_capitulo (line : str) : bool := re_test true pat_capitulo line.
Definition es_transitorios (line : str) : bool :=
  re_test true pat_transitorios line.

(** ** [limpiar_texto] *)

(** [re.sub(r'\s+', ' ', s)]: [inrun] tells that the previous character
    was whitespace (its run already produced the blank). *)
Fixpoint sub_espacios (inrun : bool) (s : str) : str :=
  match s with
  | [] => []
  | c :: s' =>
      if isspace c
      then (if inrun then sub_espacios true s' else SP :: sub_espacios true s')
      else c :: sub_espacios false s'
  end.

(** [re.sub(r'[–—]', '-', s)] *)
Definition sub_guiones (s : str) : str :=
  map (fun c => if (c =? 8211) || (c =? 8212) then 45 else c) s.

Definition limpiar_texto (texto : str) : str :=
  let texto := sub_espacios false (strip texto) in
  sub_guiones texto.

(** ** [extraer_decreto] *)

(** The [for] loop; the result is [decreto_lines] when the loop ends. *)
Fixpoint decreto_loop (lineas : list str) (decreto_lines : list str)
  : list str :=
  match lineas with
  | [] => decreto_lines
  | linea :: resto =>
      let linea := strip linea in
      if negb (nonempty linea) then decreto_loop resto decreto_lines
      else if re_test true pat_fin_decreto linea then decreto_lines
      else
        let decreto_lines := decreto_lines ++ [linea] in
        if (10 <? List.length decreto_lines)%nat then decreto_lines
        else decreto_loop resto decreto_lines
  end.

Definition extraer_decreto (contenido : str) : option str :=
  let lineas := split_nl contenido in
  let decreto_lines := decreto_loop lineas [] in
  if nonempty decreto_lines then Some (join [SP] decreto_lines) else None.

(** ** [extraer_titulo] *)

(** The character properties behind [str.isupper] come from the Unicode
    database of the interpreter; they are a parameter of the model. *)
Record CaseTable : Type := mkCaseTable {
  uni_isupper : char -> bool;
  uni_islower : char -> bool;
  uni_istitle : char -> bool
}.

(** [unicode_isupper_impl]: no lower-case or title-case character, and at
    least one upper-case one. *)
Fixpoint isupper_from (T : CaseTable) (cased : bool) (s : str) : bool :=
  match s with
  | [] => cased
  | c :: s' =>
      if uni_islower T c || uni_istitle T c then false
      else if negb cased && uni_isupper T c then isupper_from T true s'
      else isupper_from T cased s'
  end.

Definition isupper (T : CaseTable) (s : str) : bool := isupper_from T false s.

Definition titulo_no_identificado : str := utf8 "Título no identificado".

(** First loop: the first line that starts with LEY, CÓDIGO, ... *)
Fixpoint titulo_loop1 (lineas : list str) : option str :=
  match lineas with
  | [] => None
  | linea :: resto =>
      let linea := strip linea in
      if re_test true pat_ley linea then
        let titulo := re_sub_prefix true pat_prefijo_ley linea in
        Some (limpiar_texto titulo)
      else titulo_loop1 resto
  end.

(** Second loop, over [lineas[:10]]. *)
Fixpoint titulo_loop2 (T : CaseTable) (lineas : list str) : option str :=
  match lineas with
  | [] => None
  | linea :: resto =>
      let linea := strip linea in
      if (10 <? List.length linea)%nat && isupper T linea
      then Some (limpiar_texto linea)
      else titulo_loop2 T resto
  end.

Definition extraer_titulo (T : CaseTable) (contenido : str) : str :=
  let lineas := split_nl contenido in
  match titulo_loop1 lineas with
  | Some t => t
  | None =>
      match titulo_loop2 T (firstn 10 lineas) with
      | Some t => t
      | None => titulo_no_identificado
      end
  end.

(** ** [parsear_fracciones] *)

(** Python truthiness of an optional string ([None] and [''] are false). *)
Definition truthy (o : option str) : bool :=
  match o with Some s => nonempty s | None => false end.

(** [[match.group(2)] if match.group(2) else []] *)
Definition texto_inicial (m : caps) : list str :=
  if nonempty (group 2 m) then [group 2 m] else [].

Definition DOT : char := 46.

(** "Guardar fracción anterior si existe" / "Guardar última fracción" *)
Definition guardar_fraccion (fracciones : list Fraccion)
    (current_fraccion : option str) (current_text : list str)
  : list Fraccion :=
  match current_fraccion with
  | Some f =>
      if nonempty f && nonempty current_text
      then fracciones ++ [mkFraccion f (limpiar_texto (join [SP] current_text))]
      else fracciones
  | None => fracciones
  end.

Fixpoint fracciones_loop (lines : list str) (fracciones : list Fraccion)
    (current_fraccion : option str) (current_text : list str)
  : list Fraccion :=
  match lines with
  | [] => guardar_fraccion fracciones current_fraccion current_text
  | line :: resto =>
      let line := strip line in
      if negb (nonempty line)
      then fracciones_loop resto fracciones current_fraccion current_text
      else
        match re_match false pat_fraccion line with
        | Some m =>
            fracciones_loop resto
              (guardar_fraccion fracciones current_fraccion current_text)
              (Some (rstrip_char DOT (group 1 m)))
              (texto_inicial m)
        | None =>
            if truthy current_fraccion
            then fracciones_loop resto fracciones current_fraccion
                   (current_text ++ [line])
            else fracciones_loop resto fracciones current_fraccion current_text
        end
  end.

Definition parsear_fracciones (texto : str) : list Fraccion :=
  fracciones_loop (split_nl texto) [] None [].

(** ** [parsear_articulos] *)

(** [str.isdigit] and [int] on the number token.  The token is group 1 of
    [pat_articulo] without its ordinal marks: a run of ASCII digits, or
    ÚNICO / Único; on these [isdigit] is the ASCII test.  [int] refuses
    more than 4300 digits (ValueError, caught by the [except]). *)
Definition is_ascii_digit (c : char) : bool := (48 <=? c) && (c <=? 57).

Definition isdigit (s : str) : bool := nonempty s && forallb is_ascii_digit s.

Definition int_max_str_digits : nat := 4300.

Definition py_int (s : str) : option Z :=
  if (int_max_str_digits <? List.length s)%nat then None
  else Some (fold_left (fun acc c => 10 * acc + (Z.of_N c - 48))%Z s 0%Z).

Definition numero_articulo (token : str) : Z :=
  let articulo_num_str := remove_char 176 (remove_char 186 token) in
  if isdigit articulo_num_str then
    match py_int articulo_num_str with
    | Some n => n
    | None => 1%Z               (* except: current_articulo = 1 *)
    end
  else 1%Z.

(** [enumerate(current_text)] scan for the first fraction header. *)
Fixpoint first_fraction_line (current_text : list str) (i : nat)
  : option nat :=
  match current_text with
  | [] => None
  | text_line :: resto =>
      if re_test false pat_fraccion (strip text_line) then Some i
      else first_fraction_line resto (S i)
  end.

Definition construir_articulo (current_articulo : Z) (current_text : list str)
  : Articulo :=
  let texto_completo := join [LF] current_text in
  let fracciones := parsear_fracciones texto_completo in
  let texto_articulo :=
    if nonempty fracciones then
      match first_fraction_line current_text 0 with
      | Some i => join [SP] (firstn i current_text)
      | None => join [SP] current_text
      end
    else join [SP] current_text in
  mkArticulo current_articulo (limpiar_texto texto_articulo) fracciones.

(** "Guardar artículo anterior si existe" / "Guardar último artículo": the
    two blocks of the source are the same text. *)
Definition guardar_articulo (articulos : list Articulo)
    (current_articulo : option Z) (current_text : list str) : list Articulo :=
  match current_articulo with
  | Some n =>
      if nonempty current_text
      then articulos ++ [construir_articulo n current_text]
      else articulos
  | None => articulos
  end.

(** The [for] loop; a [break] goes to the final "guardar" directly. *)
Fixpoint articulos_loop (lines : list str) (articulos : list Articulo)
    (current_articulo : option Z) (current_text : list str) : list Articulo :=
  match lines with
  | [] => guardar_articulo articulos current_articulo current_text
  | line :: resto =>
      let line := strip line in
      if negb (nonempty line)
      then articulos_loop resto articulos current_articulo current_text
      else if es_capitulo line
      then guardar_articulo articulos current_articulo current_text
      else
        match re_match false pat_articulo line with
        | Some m =>
            articulos_loop resto
              (guardar_articulo articulos current_articulo current_text)
              (Some (numero_articulo (group 1 m)))
              (texto_inicial m)
        | None =>
            match current_articulo with
            | Some _ =>
                if es_capitulo line
                then guardar_articulo articulos current_articulo current_text
                else articulos_loop resto articulos current_articulo
                       (current_text ++ [line])
            | None =>
                articulos_loop resto articulos current_articulo current_text
            end
        end
  end.

Definition parsear_articulos (contenido : str) (inicio fin : nat)
  : list Articulo :=
  let lines := slice (split_nl contenido) inicio fin in
  articulos_loop lines [] None [].

(** ** [parsear_capitulos] *)

(** "Encontrar todas las posiciones de capítulos": pairs
    [(i, line.strip())], [i] counting from the index of the first line. *)
Fixpoint capitulo_positions_from (lines : list str) (i : nat)
  : list (nat * str) :=
  match lines with
  | [] => []
  | line :: resto =>
      if es_capitulo (strip line)
      then (i, strip line) :: capitulo_positions_from resto (S i)
      else capitulo_positions_from resto (S i)
  end.

Definition capitulo_positions (lines : list str) : list (nat * str) :=
  capitulo_positions_from lines 0.

(** [for j in range(pos, len(lines))]: the first [j] whose stripped line
    matches the transitory header, scanning [lines] from index [j]. *)
Fixpoint buscar_desde (lines : list str) (j : nat) : option nat :=
  match lines with
  | [] => None
  | line :: resto =>
      if es_transitorios (strip line) then Some j
      else buscar_desde resto (S j)
  end.

Definition buscar_transitorios (lines : list str) (pos : nat) : option nat :=
  buscar_desde (skipn pos lines) pos.

(** "Determinar fin del capítulo" for the entry number [i], at [pos]. *)
Definition fin_capitulo (lines : list str) (positions : list (nat * str))
    (i pos : nat) : nat :=
  let fin_pos := List.length lines in
  let fin_pos :=
    if (i + 1 <? List.length positions)%nat
    then fst (nth (i + 1) positions (O, []))
    else fin_pos in
  let fin_pos :=
    if (i =? List.length positions - 1)%nat
    then match buscar_transitorios lines pos with
         | Some j => j
         | None => fin_pos
         end
    else fin_pos in
  fin_pos.

(** [for i, (pos, titulo) in enumerate(capitulo_positions)], with the
    entries still to visit in [pendientes]. *)
Fixpoint capitulos_loop (contenido : str) (lines : list str)
    (positions pendientes : list (nat * str)) (i : nat)
    (capitulos : list Capitulo) : list Capitulo :=
  match pendientes with
  | [] => capitulos
  | (pos, titulo) :: resto =>
      let fin_pos := fin_capitulo lines positions i pos in
      let articulos := parsear_articulos contenido (pos + 1) fin_pos in
      capitulos_loop contenido lines positions resto (S i)
        (if nonempty articulos
         then capitulos ++ [mkCapitulo titulo articulos]
         else capitulos)
  end.

Definition capitulo_unico : str := utf8 "CAPÍTULO ÚNICO".

Definition parsear_capitulos (contenido : str) : list Capitulo :=
  let lines := split_nl contenido in
  let positions := capitulo_positions lines in
  if negb (nonempty positions) then
    let articulos := parsear_articulos contenido 0 (List.length lines) in
    if nonempty articulos then [mkCapitulo capitulo_unico articulos] else []
  else capitulos_loop contenido lines positions positions 0 [].

(** ** [parsear_transitorios] *)

(** "Encontrar inicio de sección de transitorios" *)
Definition inicio_transitorios (lines : list str) : option nat :=
  buscar_desde lines 0.

Definition guardar_transitorio (transitorios : list Transitorio)
    (current_transitorio : option str) (current_text : list str)
  : list Transitorio :=
  match current_transitorio with
  | Some t =>
      if nonempty t && nonempty current_text
      then transitorios
             ++ [mkTransitorio t (limpiar_texto (join [SP] current_text))]
      else transitorios
  | None => transitorios
  end.

Fixpoint transitorios_loop (lines : list str) (transitorios : list Transitorio)
    (current_transitorio : option str) (current_text : list str)
  : list Transitorio :=
  match lines with
  | [] => guardar_transitorio transitorios current_transitorio current_text
  | line :: resto =>
      let line := strip line in
      if negb (nonempty line)
      then transitorios_loop resto transitorios current_transitorio
             current_text
      else
        match re_match true pat_transitorio_item line with
        | Some m =>
            transitorios_loop resto
              (guardar_transitorio transitorios current_transitorio
                 current_text)
              (Some (rstrip_char DOT (group 1 m)))
              (texto_inicial m)
        | None =>
            if truthy current_transitorio
            then transitorios_loop resto transitorios current_transitorio
                   (current_text ++ [line])
            else transitorios_loop resto transitorios current_transitorio
                   current_text
        end
  end.

Definition parsear_transitorios (contenido : str) : list Transitorio :=
  let lines := split_nl contenido in
  match inicio_transitorios lines with
  | None => []
  | Some i => transitorios_loop (skipn (i + 1) lines) [] None []
  end.

(** ** [procesar_archivo], from the decoded content on. *)

Definition procesar_contenido (T : CaseTable) (contenido : str)
  : LeyStructure :=
  mkLeyStructure (extraer_decreto contenido) None
    (extraer_titulo T contenido)
    (parsear_capitulos contenido) (parsear_transitorios contenido).

(* ================================================================== *)
(** * Running the parser on documents *)
(* ================================================================== *)

(** A document given by its lines. *)
Definition documento (lineas : list string) : str :=
  join [LF] (map utf8 lineas).


(** The documents of the specification's boundary cases. *)
Definition doc_obligaciones : str :=
  documento ["Artículo 5. Las obligaciones son:"; "I. Pagar.";
             "II. Declarar."]%string.

Definition doc_unico : str :=
  documento ["Artículo Único. Se deroga la presente ley."]%string.

(** Twelve preamble lines, none of them a structural header. *)
Definition doc_preambulo_largo : str :=
  documento ["p1"; "p2"; "p3"; "p4"; "p5"; "p6"; "p7"; "p8"; "p9"; "p10";
             "p11"; "p12"]%string.

(** An article header with nothing after its number. *)
Definition doc_sin_cuerpo : str := documento ["Artículo 1."]%string.

(* ================================================================== *)
(** * What a pattern matches *)
(* ================================================================== *)

(** [den ic r s rest]: the pattern [r] can match the prefix of [s] that
    ends where [rest] begins.  It describes the candidates of [run]
    without their order and without the captures. *)
Fixpoint den (ic : bool) (r : re) (s rest : str) : Prop :=
  match r with
  | REps => rest = s
  | RChar cs => exists c, s = c :: rest /\ cls_match ic cs c = true
  | RSeq a b => exists mid, den ic a s mid /\ den ic b mid rest
  | RAlt a b => den ic a s rest \/ den ic b s rest
  | RStar cs | RStarLazy cs =>
      exists p, s = p ++ rest /\ forallb (cls_match ic cs) p = true
  | RGroup _ a => den ic a s rest
  | REol => rest = s /\ at_eol s = true
  end.

(** The text [p] spells the word [w] (up to case when [ic] is set). *)
Fixpoint palabra (ic : bool) (w p : str) : bool :=
  match w, p with
  | [], [] => true
  | a :: w', b :: p' => citem_match ic (CLit a) b && palabra ic w' p'
  | _, _ => false
  end.

(* ================================================================== *)
(** * The chapter header of the specification *)
(* ================================================================== *)

(** A numbering token: a Roman numeral, an Arabic numeral, an ordinal word
    of the list [ord], or ÚNICO (letters in either case). *)
Definition token_romano (tok : str) : bool :=
  nonempty tok && forallb (cls_match true roman) tok.

Definition token_arabigo (tok : str) : bool :=
  nonempty tok && forallb (cls_match true digit) tok.

Definition token_palabra (ord : list string) (tok : str) : bool :=
  existsb (fun w => palabra true (utf8 w) tok) ord.

Definition token_numeracion (ord : list string) (tok : str) : bool :=
  token_romano tok || token_arabigo tok || token_palabra ord tok
  || palabra true (utf8 "ÚNICO") tok.

Definition palabra_clave (kw : str) : bool :=
  palabra true (utf8 "TÍTULO") kw || palabra true (utf8 "CAPÍTULO") kw.

(** The line begins with a keyword, then blanks, then a numbering token. *)
Definition encabezado_capitulo (ord : list string) (line : str) : Prop :=
  exists kw ws tok resto,
    line = kw ++ ws ++ tok ++ resto
    /\ palabra_clave kw = true
    /\ ws <> [] /\ forallb isspace ws = true
    /\ token_numeracion ord tok = true.

(** The ordinal words that [pat_capitulo] spells out. *)
Definition ordinales_capitulo : list string :=
  ["PRIMERO"; "SEGUNDO"; "TERCERO"]%string.

(* ================================================================== *)
(** * Notions of the specification *)
(* ================================================================== *)

(** The header [h] with captures [m], followed by the lines [post],
    carries text: an inline remainder, or a next non-blank line that does
    not open another article. *)
Definition con_texto (m : caps) (post : list str) : Prop :=
  nonempty (group 2 m) = true
  \/ exists blancos l post',
       post = blancos ++ l :: post'
       /\ Forall (fun b => strip b = []) blancos
       /\ nonempty (strip l) = true
       /\ re_match false pat_articulo (strip l) = None.

(** The end boundary of every chapter, in the words of the specification:
    the start of the next chapter header or, for the last chapter only,
    the first transitory header at or after the chapter's own line if
    there is one, and the end of the document otherwise. *)
Definition primer_transitorio (lines : list str) (pos : nat) : option nat :=
  find (fun j => es_transitorios (strip (nth j lines [])))
       (seq pos (List.length lines - pos)).

Fixpoint extensiones (lines : list str) (positions : list (nat * str))
  : list (nat * str * nat) :=
  match positions with
  | [] => []
  | (pos, titulo) :: resto =>
      match resto with
      | [] =>
          [ (pos, titulo,
             match primer_transitorio lines pos with
             | Some j => j
             | None => List.length lines
             end) ]
      | (pos', _) :: _ => (pos, titulo, pos') :: extensiones lines resto
      end
  end.

(** The chapter kept for an extent, if it has articles. *)
Definition capitulo_de (contenido : str) (e : nat * str * nat)
  : list Capitulo :=
  let '(pos, titulo, fin) := e in
  let articulos := parsear_articulos contenido (pos + 1) fin in
  if nonempty articulos then [mkCapitulo titulo articulos] else [].

(** Two chapters, the second cut by a transitory header. *)
Definition doc_dos_capitulos : str :=
  documento ["DECRETO"; "CAPÍTULO I"; "Artículo 1. Uno."; "TRANSITORIOS";
             "CAPÍTULO II"; "Artículo 2. Dos."; "TRANSITORIOS";
             "Primero. Vigencia."]%string.

(* ================================================================== *)
(** * The parser with the source lines of its units *)
(* ================================================================== *)

(** The same loops, run over numbered lines: every unit they emit carries
    the number of its header line and the numbers of the lines appended to
    it.  The values computed are those of the parser itself (see
    [parsear_capitulos_o_valor] below). *)

Record FraccionO : Type := mkFraccionO {
  fo_valor : Fraccion;
  fo_linea : nat;                 (* line of the sub-item header *)
  fo_cont : list nat              (* lines appended to its text *)
}.

Record ArticuloO : Type := mkArticuloO {
  ao_valor : Articulo;
  ao_linea : nat;                 (* line of the article header *)
  ao_cont : list nat;             (* lines appended to its text *)
  ao_fracciones : list FraccionO
}.

Record CapituloO : Type := mkCapituloO {
  co_valor : Capitulo;
  co_linea : nat;                 (* first line of the chapter *)
  co_resto : list nat;            (* the lines of its body *)
  co_articulos : list ArticuloO
}.

Definition fo_lineas (f : FraccionO) : list nat := fo_linea f :: fo_cont f.
Definition ao_lineas (a : ArticuloO) : list nat := ao_linea a :: ao_cont a.
Definition co_lineas (c : CapituloO) : list nat := co_linea c :: co_resto c.

(** [enumerate(lines)] *)
Definition enumerar (lines : list str) : list (nat * str) :=
  combine (seq 0 (List.length lines)) lines.

Definition guardar_fraccion_o (fracciones : list FraccionO)
    (current_fraccion : option str) (current_text : list str)
    (hdr : nat) (cont : list nat) : list FraccionO :=
  match current_fraccion with
  | Some f =>
      if nonempty f && nonempty current_text
      then fracciones
             ++ [mkFraccionO
                   (mkFraccion f (limpiar_texto (join [SP] current_text)))
                   hdr cont]
      else fracciones
  | None => fracciones
  end.

Fixpoint fracciones_loop_o (lines : list (nat * str))
    (fracciones : list FraccionO) (current_fraccion : option str)
    (current_text : list str) (hdr : nat) (cont : list nat)
  : list FraccionO :=
  match lines with
  | [] => guardar_fraccion_o fracciones current_fraccion current_text hdr cont
  | (i, line) :: resto =>
      let line := strip line in
      if negb (nonempty line)
      then fracciones_loop_o resto fracciones current_fraccion current_text
             hdr cont
      else
        match re_match false pat_fraccion line with
        | Some m =>
            fracciones_loop_o resto
              (guardar_fraccion_o fracciones current_fraccion current_text
                 hdr cont)
              (Some (rstrip_char DOT (group 1 m)))
              (texto_inicial m) i []
        | None =>
            if truthy current_fraccion
            then fracciones_loop_o resto fracciones current_fraccion
                   (current_text ++ [line]) hdr (cont ++ [i])
            else fracciones_loop_o resto fracciones current_fraccion
                   current_text hdr cont
        end
  end.

(** The text of an open article with the line each piece comes from: the
    inline remainder of the header, then the appended lines. *)
Definition texto_con_origen (hdr : nat) (ini : list str)
    (cont : list (nat * str)) : list (nat * str) :=
  map (pair hdr) ini ++ cont.

Definition construir_articulo_o (current_articulo : Z) (hdr : nat)
    (ini : list str) (cont : list (nat * str)) : ArticuloO :=
  let txt := texto_con_origen hdr ini cont in
  mkArticuloO (construir_articulo current_articulo (map snd txt))
    hdr (map fst cont)
    (fracciones_loop_o txt [] None [] 0 []).

Definition guardar_articulo_o (articulos : list ArticuloO)
    (current_articulo : option Z) (hdr : nat) (ini : list str)
    (cont : list (nat * str)) : list ArticuloO :=
  match current_articulo with
  | Some n =>
      if nonempty (texto_con_origen hdr ini cont)
      then articulos ++ [construir_articulo_o n hdr ini cont]
      else articulos
  | None => articulos
  end.

Fixpoint articulos_loop_o (lines : list (nat * str))
    (articulos : list ArticuloO) (current_articulo : option Z) (hdr : nat)
    (ini : list str) (cont : list (nat * str)) : list ArticuloO :=
  match lines with
  | [] => guardar_articulo_o articulos current_articulo hdr ini cont
  | (i, line) :: resto =>
      let line := strip line in
      if negb (nonempty line)
      then articulos_loop_o resto articulos current_articulo hdr ini cont
      else if es_capitulo line
      then guardar_articulo_o articulos current_articulo hdr ini cont
      else
        match re_match false pat_articulo line with
        | Some m =>
            articulos_loop_o resto
              (guardar_articulo_o articulos current_articulo hdr ini cont)
              (Some (numero_articulo (group 1 m))) i (texto_inicial m) []
        | None =>
            match current_articulo with
            | Some _ =>
                if es_capitulo line
                then guardar_articulo_o articulos current_articulo hdr ini
                       cont
                else articulos_loop_o resto articulos current_articulo hdr
                       ini (cont ++ [(i, line)])
            | None =>
                articulos_loop_o resto articulos current_articulo hdr ini
                  cont
            end
        end
  end.

Definition parsear_articulos_o (contenido : str) (inicio fin : nat)
  : list ArticuloO :=
  let lines := slice (enumerar (split_nl contenido)) inicio fin in
  articulos_loop_o lines [] None 0 [] [].

(** The chapter of an extent: its header line, then the lines up to its
    end boundary. *)
Definition capitulo_de_o (contenido : str) (e : nat * str * nat)
  : list CapituloO :=
  let '(pos, titulo, fin) := e in
  let articulos := parsear_articulos_o contenido (pos + 1) fin in
  if nonempty articulos
  then [mkCapituloO (mkCapitulo titulo (map ao_valor articulos))
          pos (seq (pos + 1) (fin - (pos + 1))) articulos]
  else [].

(** Without chapter headers the implicit chapter spans the document. *)
Definition parsear_capitulos_o (contenido : str) : list CapituloO :=
  let lines := split_nl contenido in
  let positions := capitulo_positions lines in
  if negb (nonempty positions) then
    let articulos := parsear_articulos_o contenido 0 (List.length lines) in
    if nonempty articulos
    then [mkCapituloO (mkCapitulo capitulo_unico (map ao_valor articulos))
            0 (seq 1 (List.length lines - 1)) articulos]
    else []
  else flat_map (capitulo_de_o contenido) (extensiones lines positions).

(** [subseq l1 l2]: [l1] is [l2] with some elements left out. *)
Inductive subseq {A : Type} : list A -> list A -> Prop :=
| subseq_nil : subseq [] []
| subseq_skip (x : A) (l1 l2 : list A) : subseq l1 l2 -> subseq l1 (x :: l2)
| subseq_cons (x : A) (l1 l2 : list A) :
    subseq l1 l2 -> subseq (x :: l1) (x :: l2).



(** A text without line breaks. *)
Definition sin_salto (s : str) : Prop := Forall (fun c => c <> LF) s.




(** The case properties of the Latin-1 characters (no title-case
    character among them), for running [extraer_titulo] on examples. *)
Definition latin1 : CaseTable :=
  mkCaseTable
    (fun c => ((65 <=? c) && (c <=? 90))
              || ((192 <=? c) && (c <=? 222) && negb (c =? 215)))
    (fun c => ((97 <=? c) && (c <=? 122)) || (c =? 170) || (c =? 181)
              || (c =? 186)
              || ((223 <=? c) && (c <=? 255) && negb (c =? 247)))
    (fun _ => false).



(* ================================================================== *)
(** * Notions for the further properties *)
(* ================================================================== *)

(** A text in the form [limpiar_texto] produces: its only whitespace is the
    plain blank, never twice in a row and never at either end, and it has
    no en or em dash. *)
Fixpoint sin_blanco_doble (s : str) : bool :=
  match s with
  | c :: s' =>
      match s' with
      | d :: _ => negb (isspace c && isspace d) && sin_blanco_doble s'
      | [] => true
      end
  | [] => true
  end.

Definition normalizado (s : str) : Prop :=
  Forall (fun c => isspace c = true -> c = SP) s
  /\ sin_blanco_doble s = true
  /\ strip s = s
  /\ Forall (fun c => c <> 8211 /\ c <> 8212) s.

(** What [sub_guiones] does to one character. *)
Definition guion (c : char) : char :=
  if (c =? 8211) || (c =? 8212) then 45 else c.

(** A text with a character that is not whitespace. *)
Definition visible (s : str) : Prop :=
  exists c, In c s /\ isspace c = false.

(** The longest prefix whose elements satisfy [p]. *)
Fixpoint takewhile {A : Type} (p : A -> bool) (l : list A) : list A :=
  match l with
  | x :: l' => if p x then x :: takewhile p l' else []
  | [] => []
  end.

(** The non-blank lines of a document, stripped. *)
Definition lineas_utiles (contenido : str) : list str :=
  filter nonempty (map strip (split_nl contenido)).

Definition es_fin_decreto (linea : str) : bool :=
  re_test true pat_fin_decreto linea.

(** Two articles, the first with sub-items. *)
Definition doc_obligaciones_dos : str :=
  documento ["Artículo 5. Las obligaciones son:"; "I. Pagar.";
             "II. Declarar."; "Artículo 6. Las sanciones.";
             "Se aplican multas."]%string.

(** What every unit of the output satisfies. *)
Definition fraccion_ok (f : Fraccion) : Prop :=
  fraccion f <> []
  /\ visible (fraccion_texto f)
  /\ normalizado (fraccion_texto f).

Definition articulo_ok (a : Articulo) : Prop :=
  (0 <= articulo a)%Z
  /\ normalizado (articulo_texto a)
  /\ Forall fraccion_ok (fracciones a)
  /\ (visible (articulo_texto a) \/ fracciones a <> []).

Definition transitorio_ok (t : Transitorio) : Prop :=
  transitorio_articulo t <> []
  /\ visible (transitorio_texto t)
  /\ normalizado (transitorio_texto t).

(* ================================================================== *)
(** * [deducir_año_openai] and [validate_year] *)
(* ================================================================== *)

(** The word class [\w] of [re] on [str] patterns (alphanumeric in the
    Unicode database, or underscore) is a parameter [w] of the model, and
    so is the current year read from the clock. *)

(** [\b] between the characters [prev] and [next] (absent at the ends). *)
Definition es_limite (w : char -> bool) (prev next : option char) : bool :=
  xorb (match prev with Some c => w c | None => false end)
       (match next with Some c => w c | None => false end).

(** A match of the pattern \b(19[0-9]{2}|20[0-2][0-9])\b at the head of
    [s], the character before it being [prev]. *)
Definition anio_en (w : char -> bool) (prev : option char) (s : str)
  : option str :=
  match s with
  | a :: b :: c :: d :: rest =>
      if es_limite w prev (Some a)
         && (((a =? 49) && (b =? 57) && is_ascii_digit c && is_ascii_digit d)
             || ((a =? 50) && (b =? 48) && (48 <=? c) && (c <=? 50)
                 && is_ascii_digit d))
         && es_limite w (Some d) (hd_error rest)
      then Some [a; b; c; d]
      else None
  | _ => None
  end.

(** [re.findall]: scan from the left; after a match the search resumes
    behind it ([saltar] counts the characters of the match still to pass). *)
Fixpoint buscar_anios (w : char -> bool) (prev : option char) (s : str)
    (saltar : nat) : list str :=
  match s with
  | [] => []
  | c :: s' =>
      match saltar with
      | S k => buscar_anios w (Some c) s' k
      | O =>
          match anio_en w prev s with
          | Some y => y :: buscar_anios w (Some c) s' 3
          | None => buscar_anios w (Some c) s' 0
          end
      end
  end.

(** [int(y)] on a run of ASCII digits. *)
Definition valor_decimal (s : str) : Z :=
  fold_left (fun acc c => 10 * acc + (Z.of_N c - 48))%Z s 0%Z.

(** [max(l)] for a non-empty list given as head and tail. *)
Definition maximo (y : Z) (ys : list Z) : Z := fold_left Z.max ys y.

Definition deducir_anio (w : char -> bool) (current_year : Z)
    (contenido : str) : option Z :=
  let years := buscar_anios w None contenido 0 in
  if nonempty years then
    let valid_years :=
      filter (fun y => (y <=? current_year)%Z) (map valor_decimal years) in
    match valid_years with
    | y :: ys => Some (maximo y ys)
    | [] => None
    end
  else None.

(** [LeyStructure.validate_year]: [None] stands for the ValueError. *)
Definition validate_year (v : option Z) : option (option Z) :=
  match v with
  | Some y => if ((y <? 1900) || (y >? 2030))%Z then None else Some v
  | None => Some v
  end.

(** A transitory block with a chapter header inside. *)
Definition doc_transitorios : str :=
  documento ["Artículo 1. Uno."; "TRANSITORIOS"; "Primero. Vigencia.";
             "CAPÍTULO I"; "Segundo. Derogación."]%string.

(** The pattern [r] has no capturing group number [n]. *)
Fixpoint sin_grupo (n : nat) (r : re) : bool :=
  match r with
  | RSeq a b | RAlt a b => sin_grupo n a && sin_grupo n b
  | RGroup k a => negb (Nat.eqb k n) && sin_grupo n a
  | _ => true
  end.

(** A character that may stand in a marker or a key: neither whitespace
    nor a period. *)
Definition de_marca (c : char) : Prop := isspace c = false /\ c <> DOT.

(** No string of the structure has whitespace at either end. *)
Definition fraccion_sin_blancos (f : Fraccion) : Prop :=
  strip (fraccion f) = fraccion f
  /\ strip (fraccion_texto f) = fraccion_texto f.

Definition articulo_sin_blancos (a : Articulo) : Prop :=
  strip (articulo_texto a) = articulo_texto a
  /\ Forall fraccion_sin_blancos (fracciones a).

Definition capitulo_sin_blancos (c : Capitulo) : Prop :=
  strip (capitulo c) = capitulo c
  /\ Forall articulo_sin_blancos (articulos c).

Definition transitorio_sin_blancos (t : Transitorio) : Prop :=
  strip (transitorio_articulo t) = transitorio_articulo t
  /\ strip (transitorio_texto t) = transitorio_texto t.

Definition ley_sin_blancos (L : LeyStructure) : Prop :=
  match decreto L with Some d => strip d = d | None => True end
  /\ strip (titulo L) = titulo L
  /\ Forall capitulo_sin_blancos (capitulos L)
  /\ Forall transitorio_sin_blancos (transitorios L).

(** A letter of a pattern that is visible, and not a period, in both
    cases. *)
Definition letra_visible (a : char) : bool :=
  negb (isspace (tolower a)) && negb (tolower a =? DOT)
  && negb (isspace a) && negb (a =? DOT).

(** The shape of the marker of a sub-item: Roman-numeral capitals; or a
    small ASCII letter and a closing parenthesis; or ASCII digits and a
    closing parenthesis. *)
Definition forma_marca (k : str) : Prop :=
  (k <> [] /\ forallb (cls_match false roman) k = true)
  \/ (exists c, (97 <= c <= 122)%N /\ k = [c; 41])
  \/ (exists d, d <> [] /\ forallb is_ascii_digit d = true /\ k = d ++ [41]).

(** The shape of the key of a transitory article: one of the ten ordinal
    words in any letter case; or ASCII digits, with or without the
    ordinal sign; or Roman-numeral letters in any case. *)
Definition forma_clave (k : str) : Prop :=
  (exists w, In w ordinales /\ palabra true (utf8 w) k = true)
  \/ (exists d, d <> [] /\ forallb is_ascii_digit d = true
                /\ (k = d \/ k = d ++ [186]))
  \/ (k <> [] /\ forallb (cls_match true roman) k = true).

(** The transitory loop over numbered lines: every item carries the number
    of its header line and the numbers of the lines appended to it. *)
Record TransitorioO : Type := mkTransitorioO {
  to_valor : Transitorio;
  to_linea : nat;                 (* line of the item header *)
  to_cont : list nat              (* lines appended to its text *)
}.

Definition to_lineas (t : TransitorioO) : list nat := to_linea t :: to_cont t.

Definition guardar_transitorio_o (transitorios : list TransitorioO)
    (current_transitorio : option str) (current_text : list str)
    (hdr : nat) (cont : list nat) : list TransitorioO :=
  match current_transitorio with
  | Some t =>
      if nonempty t && nonempty current_text
      then transitorios
             ++ [mkTransitorioO
                   (mkTransitorio t (limpiar_texto (join [SP] current_text)))
                   hdr cont]
      else transitorios
  | None => transitorios
  end.

Fixpoint transitorios_loop_o (lines : list (nat * str))
    (transitorios : list TransitorioO) (current_transitorio : option str)
    (current_text : list str) (hdr : nat) (cont : list nat)
  : list TransitorioO :=
  match lines with
  | [] =>
      guardar_transitorio_o transitorios current_transitorio current_text
        hdr cont
  | (i, line) :: resto =>
      let line := strip line in
      if negb (nonempty line)
      then transitorios_loop_o resto transitorios current_transitorio
             current_text hdr cont
      else
        match re_match true pat_transitorio_item line with
        | Some m =>
            transitorios_loop_o resto
              (guardar_transitorio_o transitorios current_transitorio
                 current_text hdr cont)
              (Some (rstrip_char DOT (group 1 m)))
              (texto_inicial m) i []
        | None =>
            if truthy current_transitorio
            then transitorios_loop_o resto transitorios current_transitorio
                   (current_text ++ [line]) hdr (cont ++ [i])
            else transitorios_loop_o resto transitorios current_transitorio
                   current_text hdr cont
        end
  end.

Definition parsear_transitorios_o (contenido : str) : list TransitorioO :=
  let lines := split_nl contenido in
  match inicio_transitorios lines with
  | None => []
  | Some i =>
      transitorios_loop_o (skipn (i + 1) (enumerar lines)) [] None [] 0 []
  end.



(** A transitory header inside the first of two chapters. *)
Definition doc_capitulo_transitorio : str :=
  documento ["CAPÍTULO I"; "Artículo 1. Régimen."; "TRANSITORIOS";
             "Primero. Vigencia."; "CAPÍTULO II"; "Artículo 2. Dos."]%string.

(* ================================================================== *)
(** * The title, in the words of the specification *)
(* ================================================================== *)

(** [s] begins with the word [w], letter case aside. *)
Definition empieza_con (w s : str) : bool :=
  palabra true w (firstn (List.length w) s).

(** The law/code/constitution/regulation keyword set. *)
Definition palabras_clave : list string :=
  ["LEY"; "CÓDIGO"; "CONSTITUCIÓN"; "REGLAMENTO"]%string.

Definition es_linea_de_ley (s : str) : bool :=
  existsb (fun w => empieza_con (utf8 w) s) palabras_clave.

(** What is left of [s] behind the word [w] and the whitespace that
    follows it (one character at least), when [s] begins so. *)
Definition tras_palabra (w s : str) : option str :=
  if empieza_con w s then
    match skipn (List.length w) s with
    | c :: s' => if isspace c then Some (lstrip s') else None
    | [] => None
    end
  else None.

Fixpoint tras_palabras (ws : list str) (s : str) : option str :=
  match ws with
  | [] => Some s
  | w :: ws' =>
      match tras_palabra w s with
      | Some s1 => tras_palabras ws' s1
      | None => None
      end
  end.

(** The known filler prefixes, "LEY DE INGRESOS DEL " and "LEY ", word by
    word. *)
Definition rellenos : list (list string) :=
  [["LEY"; "DE"; "INGRESOS"; "DEL"]; ["LEY"]]%string.

(** The line without its filler prefix: the first of the fillers that the
    line begins with is removed, and a line that begins with none is left
    as it is. *)
Fixpoint sin_relleno_de (rs : list (list string)) (s : str) : str :=
  match rs with
  | [] => s
  | r :: rs' =>
      match tras_palabras (map utf8 r) s with
      | Some t => t
      | None => sin_relleno_de rs' s
      end
  end.

Definition sin_relleno (s : str) : str := sin_relleno_de rellenos s.

(** The pattern of a run of words, each followed by whitespace. *)
Fixpoint pat_palabras (ws : list str) : re :=
  match ws with
  | [] => REps
  | w :: ws' => RSeq (RLit w) (RSeq (RPlus [CSpace]) (pat_palabras ws'))
  end.

(** A text that begins with whitespace. *)
Definition con_blanco (x : str) : Prop :=
  exists c x', x = c :: x' /\ isspace c = true.

(** A word whose first letter is visible in both cases. *)
Definition con_letra (w : str) : Prop :=
  exists a w', w = a :: w' /\ letra_visible a = true.

(** A title line with a doubled blank. *)
Definition doc_doble_blanco : str :=
  documento ["LEY FEDERAL  DEL TRABAJO"]%string.

(* ================================================================== *)
(** * Properties *)
(* ================================================================== *)

(** ** Lists of lines *)

Lemma nonempty_false {A} (l : list A) : nonempty l = false <-> l = [].
Proof. destruct l; simpl; split; congruence. Qed.

Lemma nonempty_true {A} (l : list A) : nonempty l = true <-> l <> [].
Proof. destruct l; simpl; split; congruence. Qed.

Lemma nonempty_app_r {A} (l : list A) (x : A) : nonempty (l ++ [x]) = true.
Proof. destruct l; reflexivity. Qed.

Lemma skipn_after_cons {A} (pre : list A) (h : A) (post : list A) :
  skipn (List.length pre + 1) (pre ++ h :: post) = post.
Proof. induction pre as [|x pre IH]; simpl; [ reflexivity | exact IH ]. Qed.

(** ** C1 *)

(** C1: parsing "Artículo 5. Las obligaciones son:" followed by the lines
    "I. Pagar." and "II. Declarar." yields exactly one article, number 5,
    body "Las obligaciones son:", with exactly the two sub-items "I" and
    "II" in that order; the sub-item lines are not part of the body. *)
Theorem C1_articulo_con_fracciones :
  parsear_articulos doc_obligaciones 0
    (List.length (split_nl doc_obligaciones))
  = [ mkArticulo 5 (utf8 "Las obligaciones son:")
        [ mkFraccion (utf8 "I") (utf8 "Pagar.");
          mkFraccion (utf8 "II") (utf8 "Declarar.") ] ]
  /\ (exists a,
        map articulos (parsear_capitulos doc_obligaciones) = [[a]]
        /\ articulo a = 5%Z
        /\ articulo_texto a = utf8 "Las obligaciones son:"
        /\ map fraccion (fracciones a) = [utf8 "I"; utf8 "II"]).
Proof.
  split.
  - vm_compute. reflexivity.
  - eexists. split; [ vm_compute; reflexivity | ].
    repeat split; vm_compute; reflexivity.
Qed.

(** ** The number of an article (C6) *)

Lemma numero_articulo_no_numerico (token : str) :
  isdigit (remove_char 176 (remove_char 186 token)) = false ->
  numero_articulo token = 1%Z.
Proof. unfold numero_articulo. intros ->. reflexivity. Qed.

(** A header line is always consumed: whatever its number token, the loop
    goes on with the next line. *)
Lemma articulos_loop_header (line : str) (resto : list str)
    (articulos : list Articulo) (cur : option Z) (txt : list str) (m : caps) :
  nonempty (strip line) = true ->
  es_capitulo (strip line) = false ->
  re_match false pat_articulo (strip line) = Some m ->
  articulos_loop (line :: resto) articulos cur txt
  = articulos_loop resto (guardar_articulo articulos cur txt)
      (Some (numero_articulo (group 1 m))) (texto_inicial m).
Proof.
  intros Hne Hcap Hm. cbn [articulos_loop].
  rewrite Hne, Hcap, Hm. reflexivity.
Qed.

(** C6: the number token of an article header never makes the parse fail.
    A token that, without its ordinal marks º and °, is not a run of
    digits (ÚNICO and Único among them) gives the number 1, and the loop
    continues with the following lines; the document
    "Artículo Único. Se deroga la presente ley." yields the single
    article 1 with that body and no sub-items. *)
Theorem C6_numero_por_defecto :
  (forall token : str,
      isdigit (remove_char 176 (remove_char 186 token)) = false ->
      numero_articulo token = 1%Z)
  /\ numero_articulo (utf8 "ÚNICO") = 1%Z
  /\ numero_articulo (utf8 "Único") = 1%Z
  /\ (forall line resto articulos cur txt m,
        nonempty (strip line) = true ->
        es_capitulo (strip line) = false ->
        re_match false pat_articulo (strip line) = Some m ->
        isdigit (remove_char 176 (remove_char 186 (group 1 m))) = false ->
        articulos_loop (line :: resto) articulos cur txt
        = articulos_loop resto (guardar_articulo articulos cur txt)
            (Some 1%Z) (texto_inicial m))
  /\ parsear_articulos doc_unico 0 (List.length (split_nl doc_unico))
     = [ mkArticulo 1 (utf8 "Se deroga la presente ley.") [] ].
Proof.
  split; [ exact numero_articulo_no_numerico | ].
  split; [ reflexivity | ].
  split; [ reflexivity | ].
  split.
  - intros line resto articulos cur txt m Hne Hcap Hm Hd.
    rewrite (articulos_loop_header _ _ _ _ _ _ Hne Hcap Hm).
    rewrite (numero_articulo_no_numerico _ Hd). reflexivity.
  - vm_compute. reflexivity.
Qed.

Lemma C6_numero_por_defecto_witness :
  isdigit (remove_char 176 (remove_char 186 (utf8 "Único"))) = false
  /\ numero_articulo (utf8 "Único") = 1%Z.
Proof.
  split; [ reflexivity | ].
  apply (proj1 C6_numero_por_defecto). reflexivity.
Defined.

(** C6 does not hold of every token that is not purely numeric: the
    header "Artículo 5º. Texto." captures the token "5º", which is not a
    run of digits, and the article gets the number 5. *)
Lemma C6_counterexample :
  ~ (forall (line : str) (m : caps),
        re_match false pat_articulo (strip line) = Some m ->
        isdigit (group 1 m) = false ->
        numero_articulo (group 1 m) = 1%Z).
Proof.
  intros H.
  assert (E : exists m,
             re_match false pat_articulo (strip (utf8 "Artículo 5º. Texto."))
             = Some m
             /\ group 1 m = utf8 "5º"
             /\ isdigit (group 1 m) = false
             /\ numero_articulo (group 1 m) = 5%Z).
  { vm_compute. eexists. repeat split. }
  destruct E as (m & E1 & _ & E2 & E3).
  specialize (H _ m E1 E2). rewrite E3 in H. discriminate.
Qed.

Example articulo_con_ordinal :
  parsear_articulos (documento ["Artículo 5º. Texto."]%string) 0 1
  = [ mkArticulo 5 (utf8 "Texto.") [] ].
Proof. vm_compute. reflexivity. Qed.

(** ** The preamble (C7) *)

(** The accumulator never grows beyond eleven lines. *)
Lemma decreto_loop_length (lineas acc : list str) :
  (List.length acc <= 10)%nat ->
  (List.length (decreto_loop lineas acc) <= 11)%nat.
Proof.
  revert acc. induction lineas as [|l ls IH]; intros acc Hacc; simpl.
  - lia.
  - destruct (nonempty (strip l)); simpl; [ | auto ].
    destruct (re_test true pat_fin_decreto (strip l)); [ lia | ].
    destruct (Nat.ltb_spec 10 (List.length (acc ++ [strip l]))) as [H|H].
    + rewrite length_app in *. simpl in *. lia.
    + apply IH. exact H.
Qed.

(** C7: on a document that opens with twelve plain lines the preamble
    holds eleven of them: a line is appended first and the bound is tested
    afterwards, with [len(decreto_lines) > 10]. *)
Theorem C7_preambulo_once_lineas :
  List.length (decreto_loop (split_nl doc_preambulo_largo) []) = 11%nat
  /\ extraer_decreto doc_preambulo_largo
     = Some (utf8 "p1 p2 p3 p4 p5 p6 p7 p8 p9 p10 p11").
Proof. split; vm_compute; reflexivity. Qed.

(** ** The transitory segmenter (C9) *)

Lemma buscar_desde_none (lines : list str) (j : nat) :
  Forall (fun l => es_transitorios (strip l) = false) lines ->
  buscar_desde lines j = None.
Proof.
  intros H. revert j. induction H as [|l ls Hl _ IH]; intros j; simpl.
  - reflexivity.
  - rewrite Hl. apply IH.
Qed.

Lemma buscar_desde_first (pre : list str) (h : str) (post : list str)
    (j : nat) :
  Forall (fun l => es_transitorios (strip l) = false) pre ->
  es_transitorios (strip h) = true ->
  buscar_desde (pre ++ h :: post) j = Some (j + List.length pre)%nat.
Proof.
  intros H Hh. revert j. induction H as [|l ls Hl _ IH]; intros j; simpl.
  - rewrite Hh. f_equal. lia.
  - rewrite Hl, IH. f_equal. lia.
Qed.

Lemma transitorios_loop_blancos (lines : list str)
    (acc : list Transitorio) (cur : option str) (txt : list str) :
  Forall (fun l => strip l = []) lines ->
  transitorios_loop lines acc cur txt = guardar_transitorio acc cur txt.
Proof.
  induction 1 as [|l ls Hl _ IH]; simpl.
  - reflexivity.
  - rewrite Hl. simpl. exact IH.
Qed.

(** C9: the transitory segmenter returns the empty list when no line of
    the document is a transitory header, and also when the first
    transitory header is followed by no text at all (no line, or blank
    lines only). *)
Theorem C9_transitorios_vacio (contenido : str) :
  (Forall (fun l => es_transitorios (strip l) = false) (split_nl contenido) ->
   parsear_transitorios contenido = [])
  /\ (forall pre h post,
        split_nl contenido = pre ++ h :: post ->
        Forall (fun l => es_transitorios (strip l) = false) pre ->
        es_transitorios (strip h) = true ->
        Forall (fun l => strip l = []) post ->
        parsear_transitorios contenido = []).
Proof.
  unfold parsear_transitorios, inicio_transitorios. split.
  - intros H. rewrite (buscar_desde_none _ 0 H). reflexivity.
  - intros pre h post E Hpre Hh Hpost. rewrite E.
    rewrite (buscar_desde_first _ _ post 0 Hpre Hh). simpl.
    rewrite skipn_after_cons.
    rewrite (transitorios_loop_blancos _ _ _ _ Hpost). reflexivity.
Qed.

Lemma C9_transitorios_vacio_witness :
  parsear_transitorios (documento ["Artículo 1. Texto."]%string) = []
  /\ parsear_transitorios
       (documento ["Artículo 1. Texto."; "TRANSITORIOS"; "  "]%string) = [].
Proof.
  split.
  - apply (proj1 (C9_transitorios_vacio _)).
    vm_compute. repeat constructor.
  - apply (proj2 (C9_transitorios_vacio _)
             [utf8 "Artículo 1. Texto."] (utf8 "TRANSITORIOS") [utf8 "  "]).
    + vm_compute. reflexivity.
    + vm_compute. repeat constructor.
    + vm_compute. reflexivity.
    + vm_compute. repeat constructor.
Defined.

(* ================================================================== *)
(** * The matcher and what it matches *)
(* ================================================================== *)

Section Matcher.

Variable ic : bool.

Lemma star_greedy_In (cs : list citem) (s s1 : str) :
  In s1 (star_greedy ic cs s)
  <-> exists p, s = p ++ s1 /\ forallb (cls_match ic cs) p = true.
Proof.
  revert s1. induction s as [|c s' IH]; intros s1; simpl.
  - split.
    + intros [<-|[]]. exists []. split; reflexivity.
    + intros (p & E & _). left. symmetry in E.
      apply app_eq_nil in E. symmetry. apply E.
  - destruct (cls_match ic cs c) eqn:Hc.
    + rewrite in_app_iff, IH. simpl. split.
      * intros [(p & E & Hp)|[<-|[]]].
        -- exists (c :: p). simpl. rewrite Hc, Hp, E. split; reflexivity.
        -- exists []. split; reflexivity.
      * intros (p & E & Hp). destruct p as [|c' p'].
        -- right. left. simpl in E. congruence.
        -- left. simpl in E, Hp. injection E as -> E.
           apply andb_true_iff in Hp. exists p'. split; [ exact E | apply Hp ].
    + simpl. split.
      * intros [<-|[]]. exists []. split; reflexivity.
      * intros (p & E & Hp). destruct p as [|c' p'].
        -- left. simpl in E. congruence.
        -- simpl in E, Hp. injection E as -> E. rewrite Hc in Hp. discriminate.
Qed.

Lemma star_lazy_In (cs : list citem) (s s1 : str) :
  In s1 (star_lazy ic cs s)
  <-> exists p, s = p ++ s1 /\ forallb (cls_match ic cs) p = true.
Proof.
  revert s1. induction s as [|c s' IH]; intros s1; simpl.
  - split.
    + intros [<-|[]]. exists []. split; reflexivity.
    + intros (p & E & _). left. symmetry in E.
      apply app_eq_nil in E. symmetry. apply E.
  - destruct (cls_match ic cs c) eqn:Hc.
    + simpl. rewrite IH. split.
      * intros [<-|(p & E & Hp)].
        -- exists []. split; reflexivity.
        -- exists (c :: p). simpl. rewrite Hc, Hp, E. split; reflexivity.
      * intros (p & E & Hp). destruct p as [|c' p'].
        -- left. simpl in E. congruence.
        -- right. simpl in E, Hp. injection E as -> E.
           apply andb_true_iff in Hp. exists p'. split; [ exact E | apply Hp ].
    + simpl. split.
      * intros [<-|[]]. exists []. split; reflexivity.
      * intros (p & E & Hp). destruct p as [|c' p'].
        -- left. simpl in E. congruence.
        -- simpl in E, Hp. injection E as -> E. rewrite Hc in Hp. discriminate.
Qed.

(** The candidates of [run] are exactly the matches of [den]. *)
Lemma run_den (r : re) :
  forall (s : str) (g : caps) (rest : str),
    (exists g', In (rest, g') (run ic r s g)) <-> den ic r s rest.
Proof.
  induction r as [ | cs | a IHa b IHb | a IHa b IHb | cs | cs | n a IHa | ];
    intros s g rest; simpl.
  - split.
    + intros (g' & [E|[]]). congruence.
    + intros ->. exists g. left. reflexivity.
  - destruct s as [|c s'].
    + split; [ intros (_ & []) | intros (c & E & _); discriminate ].
    + destruct (cls_match ic cs c) eqn:Hc.
      * split.
        -- intros (g' & [E|[]]). exists c. split; congruence.
        -- intros (c' & E & _). injection E as -> ->. exists g. left.
           reflexivity.
      * split; [ intros (_ & []) | ].
        intros (c' & E & Hc'). injection E as -> ->. congruence.
  - split.
    + intros (g' & H). apply in_flat_map in H. destruct H as ([mid g1] & H1 & H2).
      simpl in H2. exists mid. split.
      * apply (IHa s g mid). exists g1. exact H1.
      * apply (IHb mid g1 rest). exists g'. exact H2.
    + intros (mid & Ha & Hb). apply (IHa s g mid) in Ha. destruct Ha as (g1 & H1).
      apply (IHb mid g1 rest) in Hb. destruct Hb as (g' & H2).
      exists g'. apply in_flat_map. exists (mid, g1). split; assumption.
  - split.
    + intros (g' & H). apply in_app_or in H. destruct H as [H|H].
      * left. apply (IHa s g rest). exists g'. exact H.
      * right. apply (IHb s g rest). exists g'. exact H.
    + intros [H|H].
      * apply (IHa s g rest) in H. destruct H as (g' & H). exists g'.
        apply in_or_app. left. exact H.
      * apply (IHb s g rest) in H. destruct H as (g' & H). exists g'.
        apply in_or_app. right. exact H.
  - rewrite <- star_greedy_In. split.
    + intros (g' & H). apply in_map_iff in H. destruct H as (s1 & E & H).
      congruence.
    + intros H. exists g. apply in_map_iff. exists rest. split; [ reflexivity | exact H ].
  - rewrite <- star_lazy_In. split.
    + intros (g' & H). apply in_map_iff in H. destruct H as (s1 & E & H).
      congruence.
    + intros H. exists g. apply in_map_iff. exists rest. split; [ reflexivity | exact H ].
  - rewrite <- (IHa s g rest). split.
    + intros (g' & H). apply in_map_iff in H. destruct H as ([s1 g1] & E & H).
      simpl in E. exists g1. injection E as -> _. exact H.
    + intros (g1 & H). eexists. apply in_map_iff. exists (rest, g1).
      split; [ reflexivity | exact H ].
  - destruct (at_eol s) eqn:He.
    + split.
      * intros (g' & [E|[]]). split; congruence.
      * intros (-> & _). exists g. left. reflexivity.
    + split; [ intros (_ & []) | intros (_ & H); discriminate ].
Qed.

Lemma re_test_den (r : re) (s : str) :
  re_test ic r s = true <-> exists rest, den ic r s rest.
Proof.
  unfold re_test, re_match. split.
  - destruct (run ic r s []) as [|[rest g'] l] eqn:E; [ discriminate | ].
    intros _. exists rest. apply (run_den r s [] rest). exists g'.
    rewrite E. left. reflexivity.
  - intros (rest & H). apply (run_den r s [] rest) in H. destruct H as (g' & H).
    destruct (run ic r s []); [ destruct H | reflexivity ].
Qed.

Lemma re_match_den (r : re) (s : str) (m : caps) :
  re_match ic r s = Some m -> exists rest, den ic r s rest.
Proof.
  intros H. apply re_test_den. unfold re_test. rewrite H. reflexivity.
Qed.

Lemma re_test_false_den (r : re) (s : str) :
  re_test ic r s = false <-> forall rest, ~ den ic r s rest.
Proof.
  split.
  - intros H rest D. assert (T : re_test ic r s = true)
      by (apply re_test_den; exists rest; exact D). congruence.
  - intros H. destruct (re_test ic r s) eqn:E; [ | reflexivity ].
    apply re_test_den in E. destruct E as (rest & D). destruct (H rest D).
Qed.

(** ** Derived forms *)

Lemma den_RLit (w : str) (s rest : str) :
  den ic (RLit w) s rest <-> exists p, s = p ++ rest /\ palabra ic w p = true.
Proof.
  revert s. induction w as [|a w IH]; intros s; simpl.
  - split.
    + intros ->. exists []. split; reflexivity.
    + intros (p & -> & Hp). destruct p; [ reflexivity | discriminate ].
  - split.
    + intros (mid & (c & -> & Hc) & Hw). apply IH in Hw.
      destruct Hw as (p & -> & Hp). exists (c :: p). simpl.
      rewrite orb_false_r in Hc. rewrite Hc, Hp. split; reflexivity.
    + intros (p & -> & Hp). destruct p as [|b p]; [ discriminate | ].
      apply andb_true_iff in Hp. destruct Hp as [Hb Hp].
      exists (p ++ rest). split.
      * exists b. simpl. rewrite orb_false_r. split; [ reflexivity | exact Hb ].
      * apply IH. exists p. split; [ reflexivity | exact Hp ].
Qed.

Lemma den_RPlus (cs : list citem) (s rest : str) :
  den ic (RPlus cs) s rest
  <-> exists p, s = p ++ rest /\ p <> []
                /\ forallb (cls_match ic cs) p = true.
Proof.
  unfold RPlus. simpl. split.
  - intros (mid & (c & -> & Hc) & (p & -> & Hp)). exists (c :: p). simpl.
    rewrite Hc, Hp. repeat split. discriminate.
  - intros (p & -> & Hne & Hp). destruct p as [|c p]; [ congruence | ].
    simpl in Hp. apply andb_true_iff in Hp. destruct Hp as [Hc Hp].
    exists (p ++ rest). split.
    + exists c. split; [ reflexivity | exact Hc ].
    + exists p. split; [ reflexivity | exact Hp ].
Qed.

Lemma den_RAlts (l : list re) (s rest : str) :
  den ic (RAlts l) s rest <-> exists a, In a l /\ den ic a s rest.
Proof.
  induction l as [|a l IH]; simpl.
  - split.
    + intros (c & _ & H). discriminate.
    + intros (a & [] & _).
  - rewrite IH. split.
    + intros [H|(b & Hb & H)].
      * exists a. split; [ left; reflexivity | exact H ].
      * exists b. split; [ right; exact Hb | exact H ].
    + intros (b & [<-|Hb] & H).
      * left. exact H.
      * right. exists b. split; assumption.
Qed.

End Matcher.

(** ** Chapter headers (C4) *)

Lemma den_word (ic : bool) (w : string) (s rest : str) :
  den ic (word w) s rest
  <-> exists p, s = p ++ rest /\ palabra ic (utf8 w) p = true.
Proof. apply den_RLit. Qed.

(** The tail [.*?$] of [pat_capitulo] matches after any text. *)
Lemma den_resto_linea (ic : bool) (s : str) :
  exists rest, den ic (RSeqs [RStarLazy [CAny]; REol]) s rest.
Proof.
  induction s as [|c s' (rest & mid & (p & E & Hp) & mid' & (E1 & He) & E2)].
  - exists [], []. split; [ exists []; split; reflexivity | ].
    exists []. repeat split.
  - simpl in E2. subst mid' mid.
    destruct (N.eqb_spec c LF) as [->|Hc].
    + exists (LF :: s'), (LF :: s'). split; [ exists []; split; reflexivity | ].
      exists (LF :: s'). repeat split.
    + exists rest, rest. split.
      * exists (c :: p). split; [ simpl; congruence | ].
        simpl. rewrite Hp. replace (c =? LF) with false
          by (symmetry; apply N.eqb_neq; exact Hc). reflexivity.
      * exists rest. repeat split. exact He.
Qed.

Lemma den_pat_capitulo (line rest : str) :
  den true pat_capitulo line rest
  <-> exists m1 m2 m3,
        den true (RAlts [word "TÍTULO"; word "CAPÍTULO"]) line m1
        /\ den true (RPlus [CSpace]) m1 m2
        /\ den true (RAlts [RPlus roman; RPlus digit; word "PRIMERO";
                            word "SEGUNDO"; word "TERCERO"; word "ÚNICO"])
             m2 m3
        /\ den true (RSeqs [RStarLazy [CAny]; REol]) m3 rest.
Proof.
  unfold pat_capitulo. cbn [RSeqs]. split.
  - intros (m1 & H1 & m2 & H2 & m3 & H3 & H4). exists m1, m2, m3.
    repeat split; assumption.
  - intros (m1 & m2 & m3 & H1 & H2 & H3 & H4). exists m1. split; [ exact H1 | ].
    exists m2. split; [ exact H2 | ]. exists m3. split; assumption.
Qed.

Lemma forallb_espacio_ic (ic : bool) (p : str) :
  forallb (cls_match ic [CSpace]) p = forallb isspace p.
Proof.
  induction p as [|c p IH]; simpl; [ reflexivity | ].
  rewrite IH, orb_false_r. reflexivity.
Qed.

Lemma forallb_espacio (p : str) :
  forallb (cls_match true [CSpace]) p = forallb isspace p.
Proof. apply forallb_espacio_ic. Qed.

Lemma token_numeracion_intro (ord : list string) (tok : str) :
  token_numeracion ord tok = true
  <-> token_romano tok = true \/ token_arabigo tok = true
      \/ (exists w, In w ord /\ palabra true (utf8 w) tok = true)
      \/ palabra true (utf8 "ÚNICO") tok = true.
Proof.
  unfold token_numeracion, token_palabra.
  rewrite !orb_true_iff, existsb_exists. tauto.
Qed.

(** C4: a line is classified as a chapter header exactly when it
    begins with TÍTULO or CAPÍTULO (letters in either case), followed by at
    least one whitespace character and a numbering token that is a run of
    Roman-numeral letters, a run of digits, one of the ordinal words
    PRIMERO, SEGUNDO, TERCERO, or ÚNICO; the token may be followed by any
    text. *)
Theorem C4_encabezado_capitulo (line : str) :
  es_capitulo line = true <-> encabezado_capitulo ordinales_capitulo line.
Proof.
  unfold es_capitulo. rewrite re_test_den. split.
  - intros (rest & D). apply den_pat_capitulo in D.
    destruct D as (m1 & m2 & m3 & H1 & H2 & H3 & _).
    apply den_RAlts in H1. destruct H1 as (a & Ha & H1).
    apply den_RPlus in H2. destruct H2 as (ws & -> & Hws & Hsp).
    rewrite forallb_espacio in Hsp.
    assert (Hkw : exists kw, line = kw ++ ws ++ m2 /\ palabra_clave kw = true).
    { unfold palabra_clave.
      destruct Ha as [<-|[<-|[]]]; apply den_word in H1;
        destruct H1 as (kw & -> & Hkw); exists kw; rewrite Hkw;
        split; try reflexivity; apply orb_true_r. }
    destruct Hkw as (kw & -> & Hkw).
    assert (Htok : exists tok, m2 = tok ++ m3
                               /\ token_numeracion ordinales_capitulo tok = true).
    { apply den_RAlts in H3. destruct H3 as (b & Hb & H3).
      destruct Hb as [<-|[<-|[<-|[<-|[<-|[<-|[]]]]]]].
      - apply den_RPlus in H3. destruct H3 as (tok & -> & Hne & Ht).
        exists tok. split; [ reflexivity | ].
        apply token_numeracion_intro. left. unfold token_romano.
        apply nonempty_true in Hne. rewrite Hne, Ht. reflexivity.
      - apply den_RPlus in H3. destruct H3 as (tok & -> & Hne & Ht).
        exists tok. split; [ reflexivity | ].
        apply token_numeracion_intro. right. left. unfold token_arabigo.
        apply nonempty_true in Hne. rewrite Hne, Ht. reflexivity.
      - apply den_word in H3. destruct H3 as (tok & -> & Ht).
        exists tok. split; [ reflexivity | ].
        apply token_numeracion_intro. right. right. left.
        exists "PRIMERO"%string. split; [ simpl; tauto | exact Ht ].
      - apply den_word in H3. destruct H3 as (tok & -> & Ht).
        exists tok. split; [ reflexivity | ].
        apply token_numeracion_intro. right. right. left.
        exists "SEGUNDO"%string. split; [ simpl; tauto | exact Ht ].
      - apply den_word in H3. destruct H3 as (tok & -> & Ht).
        exists tok. split; [ reflexivity | ].
        apply token_numeracion_intro. right. right. left.
        exists "TERCERO"%string. split; [ simpl; tauto | exact Ht ].
      - apply den_word in H3. destruct H3 as (tok & -> & Ht).
        exists tok. split; [ reflexivity | ].
        apply token_numeracion_intro. right. right. right. exact Ht. }
    destruct Htok as (tok & -> & Htok).
    exists kw, ws, tok, m3. repeat split; assumption.
  - intros (kw & ws & tok & resto & -> & Hkw & Hws & Hsp & Htok).
    destruct (den_resto_linea true resto) as (rest & Hrest).
    exists rest. apply den_pat_capitulo.
    exists (ws ++ tok ++ resto), (tok ++ resto), resto.
    split; [ | split; [ | split; [ | exact Hrest ] ] ].
    + apply den_RAlts. unfold palabra_clave in Hkw.
      apply orb_true_iff in Hkw. destruct Hkw as [Hkw|Hkw].
      * exists (word "TÍTULO"). split; [ left; reflexivity | ].
        apply den_word. exists kw. split; [ reflexivity | exact Hkw ].
      * exists (word "CAPÍTULO"). split; [ right; left; reflexivity | ].
        apply den_word. exists kw. split; [ reflexivity | exact Hkw ].
    + apply den_RPlus. exists ws. rewrite forallb_espacio.
      repeat split; assumption.
    + apply den_RAlts. apply token_numeracion_intro in Htok.
      destruct Htok as [Ht|[Ht|[(w & Hw & Ht)|Ht]]].
      * apply andb_true_iff in Ht. destruct Ht as [Hne Ht].
        exists (RPlus roman). split; [ left; reflexivity | ].
        apply den_RPlus. exists tok. apply nonempty_true in Hne.
        repeat split; assumption.
      * apply andb_true_iff in Ht. destruct Ht as [Hne Ht].
        exists (RPlus digit). split; [ right; left; reflexivity | ].
        apply den_RPlus. exists tok. apply nonempty_true in Hne.
        repeat split; assumption.
      * exists (word w). split.
        -- destruct Hw as [<-|[<-|[<-|[]]]]; simpl; tauto.
        -- apply den_word. exists tok. split; [ reflexivity | exact Ht ].
      * exists (word "ÚNICO"). split; [ simpl; tauto | ].
        apply den_word. exists tok. split; [ reflexivity | exact Ht ].
Qed.

Lemma C4_encabezado_capitulo_witness :
  es_capitulo (utf8 "Capítulo iv De las sanciones") = true.
Proof.
  apply (proj2 (C4_encabezado_capitulo _)).
  exists (utf8 "Capítulo"), (utf8 " "), (utf8 "iv"), (utf8 " De las sanciones").
  repeat split; try reflexivity. discriminate.
Defined.

(** C4 does not hold for every ordinal word: QUINTO is one (the transitory item
    pattern of the same parser lists it), yet "CAPÍTULO QUINTO" is not
    classified as a chapter header. *)
Lemma C4_counterexample :
  ~ (forall line : str,
        es_capitulo line = true <-> encabezado_capitulo ordinales line).
Proof.
  intros H. destruct (H (utf8 "CAPÍTULO QUINTO")) as [_ H2].
  assert (E : es_capitulo (utf8 "CAPÍTULO QUINTO") = false)
    by (vm_compute; reflexivity).
  rewrite H2 in E; [ discriminate | ].
  exists (utf8 "CAPÍTULO"), (utf8 " "), (utf8 "QUINTO"), [].
  repeat split; try reflexivity. discriminate.
Qed.

(** ** First characters of headers *)

Lemma palabra_cons (ic : bool) (a : char) (w p : str) :
  palabra ic (a :: w) p = true ->
  exists b p', p = b :: p' /\ citem_match ic (CLit a) b = true.
Proof.
  destruct p as [|b p']; simpl; [ discriminate | ].
  intros H. apply andb_true_iff in H. exists b, p'. split; [ reflexivity | apply H ].
Qed.

Lemma es_capitulo_head (s : str) :
  es_capitulo s = true ->
  exists c s', s = c :: s' /\ (tolower c = 116 \/ tolower c = 99).
Proof.
  unfold es_capitulo. rewrite re_test_den. intros (rest & D).
  apply den_pat_capitulo in D. destruct D as (m1 & _ & _ & H1 & _).
  apply den_RAlts in H1. destruct H1 as (a & Ha & H1).
  destruct Ha as [<-|[<-|[]]]; apply den_word in H1;
    destruct H1 as (kw & -> & Hkw);
    apply palabra_cons in Hkw; destruct Hkw as (b & p' & -> & Hb);
    exists b, (p' ++ m1); (split; [ reflexivity | ]);
    cbn in Hb; rewrite orb_false_r in Hb; apply N.eqb_eq in Hb;
    [ left | right ]; exact Hb.
Qed.

Lemma articulo_head (s : str) (m : caps) :
  re_match false pat_articulo s = Some m -> exists s', s = 65 :: s'.
Proof.
  intros H. apply re_match_den in H. destruct H as (rest & D).
  unfold pat_articulo in D. cbn [RSeqs app] in D.
  destruct D as (m1 & H1 & _). apply den_word in H1.
  destruct H1 as (kw & -> & Hkw).
  apply palabra_cons in Hkw. destruct Hkw as (b & p' & -> & Hb).
  cbn in Hb. apply N.eqb_eq in Hb. subst b. exists (p' ++ m1). reflexivity.
Qed.

(** A line that opens an article is not a chapter header. *)
Lemma articulo_no_es_capitulo (s : str) (m : caps) :
  re_match false pat_articulo s = Some m -> es_capitulo s = false.
Proof.
  intros H. apply articulo_head in H. destruct H as (s' & ->).
  destruct (es_capitulo (65 :: s')) eqn:E; [ | reflexivity ].
  apply es_capitulo_head in E. destruct E as (c & s'' & E & [Hc|Hc]);
    injection E as <- _; vm_compute in Hc; discriminate.
Qed.

Lemma articulo_nonempty (s : str) (m : caps) :
  re_match false pat_articulo s = Some m -> nonempty s = true.
Proof. intros H. apply articulo_head in H. destruct H as (s' & ->). reflexivity. Qed.

Lemma es_capitulo_nonempty (s : str) :
  es_capitulo s = true -> nonempty s = true.
Proof.
  intros H. apply es_capitulo_head in H. destruct H as (c & s' & -> & _).
  reflexivity.
Qed.

(** ** The article loop, line by line *)

Lemma strip_blank_nonempty (l : str) : strip l = [] -> nonempty (strip l) = false.
Proof. intros ->. reflexivity. Qed.

Lemma articulos_loop_blanco (l : str) (resto : list str)
    (arts : list Articulo) (cur : option Z) (txt : list str) :
  strip l = [] ->
  articulos_loop (l :: resto) arts cur txt = articulos_loop resto arts cur txt.
Proof. intros H. cbn [articulos_loop]. rewrite H. reflexivity. Qed.

Lemma articulos_loop_blancos (blancos resto : list str)
    (arts : list Articulo) (cur : option Z) (txt : list str) :
  Forall (fun l => strip l = []) blancos ->
  articulos_loop (blancos ++ resto) arts cur txt
  = articulos_loop resto arts cur txt.
Proof.
  induction 1 as [|l ls Hl _ IH]; [ reflexivity | ].
  rewrite <- app_comm_cons, (articulos_loop_blanco _ _ _ _ _ Hl). exact IH.
Qed.

Lemma articulos_loop_capitulo (l : str) (resto : list str)
    (arts : list Articulo) (cur : option Z) (txt : list str) :
  es_capitulo (strip l) = true ->
  articulos_loop (l :: resto) arts cur txt = guardar_articulo arts cur txt.
Proof.
  intros H. cbn [articulos_loop].
  rewrite (es_capitulo_nonempty _ H), H. reflexivity.
Qed.

Lemma articulos_loop_articulo (l : str) (resto : list str)
    (arts : list Articulo) (cur : option Z) (txt : list str) (m : caps) :
  re_match false pat_articulo (strip l) = Some m ->
  articulos_loop (l :: resto) arts cur txt
  = articulos_loop resto (guardar_articulo arts cur txt)
      (Some (numero_articulo (group 1 m))) (texto_inicial m).
Proof.
  intros H. apply articulos_loop_header; [ | | exact H ].
  - exact (articulo_nonempty _ _ H).
  - exact (articulo_no_es_capitulo _ _ H).
Qed.

Lemma articulos_loop_texto (l : str) (resto : list str)
    (arts : list Articulo) (n : Z) (txt : list str) :
  nonempty (strip l) = true ->
  es_capitulo (strip l) = false ->
  re_match false pat_articulo (strip l) = None ->
  articulos_loop (l :: resto) arts (Some n) txt
  = articulos_loop resto arts (Some n) (txt ++ [strip l]).
Proof.
  intros H1 H2 H3. cbn [articulos_loop]. rewrite H1, H2, H3. reflexivity.
Qed.

Lemma guardar_articulo_app (arts : list Articulo) (cur : option Z)
    (txt : list str) :
  guardar_articulo arts cur txt = arts ++ guardar_articulo [] cur txt.
Proof.
  unfold guardar_articulo. destruct cur as [n|]; [ | symmetry; apply app_nil_r ].
  destruct (nonempty txt); [ reflexivity | symmetry; apply app_nil_r ].
Qed.

Lemma guardar_articulo_vacio (arts : list Articulo) (cur : option Z) :
  guardar_articulo arts cur [] = arts.
Proof. destruct cur; reflexivity. Qed.

(** The articles already emitted are never touched again. *)
Lemma articulos_loop_app (lines : list str) :
  forall (arts : list Articulo) (cur : option Z) (txt : list str),
    articulos_loop lines arts cur txt
    = arts ++ articulos_loop lines [] cur txt.
Proof.
  induction lines as [|l ls IH]; intros arts cur txt.
  - apply guardar_articulo_app.
  - cbn [articulos_loop].
    destruct (nonempty (strip l)); cbn [negb]; [ | apply IH ].
    destruct (es_capitulo (strip l)); [ apply guardar_articulo_app | ].
    destruct (re_match false pat_articulo (strip l)) as [m|].
    + rewrite IH, (IH (guardar_articulo [] cur txt)), app_assoc.
      f_equal. apply guardar_articulo_app.
    + destruct cur as [n|]; apply IH.
Qed.

(** An open article with text is always emitted. *)
Lemma articulos_loop_abierto (lines : list str) :
  forall (arts : list Articulo) (n : Z) (txt : list str),
    txt <> [] -> articulos_loop lines arts (Some n) txt <> [].
Proof.
  assert (G : forall arts n txt, txt <> [] ->
                guardar_articulo arts (Some n) txt <> []).
  { intros arts n txt H. unfold guardar_articulo.
    apply nonempty_true in H. rewrite H. intros E.
    apply app_eq_nil in E. destruct E as [_ E]. discriminate. }
  induction lines as [|l ls IH]; intros arts n txt Htxt.
  - apply G. exact Htxt.
  - cbn [articulos_loop].
    destruct (nonempty (strip l)); cbn [negb]; [ | apply IH; exact Htxt ].
    destruct (es_capitulo (strip l)); [ apply G; exact Htxt | ].
    destruct (re_match false pat_articulo (strip l)) as [m|].
    + rewrite articulos_loop_app. intros E. apply app_eq_nil in E.
      destruct E as [E _]. exact (G _ _ _ Htxt E).
    + apply IH. intros E. apply app_eq_nil in E. destruct E as [_ E].
      discriminate.
Qed.

(** ** Headers without a body (C10) *)

(** Dropping a bodyless header (and the blank lines after it) from the
    lines does not change what the loop returns. *)
Lemma articulos_loop_sin_cuerpo (pre blancos post : list str) (h : str)
    (m : caps) :
  re_match false pat_articulo (strip h) = Some m ->
  group 2 m = [] ->
  Forall (fun l => strip l = []) blancos ->
  (post = []
   \/ exists l post',
        post = l :: post'
        /\ (es_capitulo (strip l) = true
            \/ exists m', re_match false pat_articulo (strip l) = Some m')) ->
  forall (arts : list Articulo) (cur : option Z) (txt : list str),
    articulos_loop (pre ++ h :: blancos ++ post) arts cur txt
    = articulos_loop (pre ++ post) arts cur txt.
Proof.
  intros Hm Hg Hb Hpost.
  assert (T : texto_inicial m = []) by (unfold texto_inicial; rewrite Hg; reflexivity).
  induction pre as [|l ls IH]; intros arts cur txt.
  - cbn [app]. rewrite (articulos_loop_articulo _ _ _ _ _ _ Hm), T.
    rewrite (articulos_loop_blancos _ _ _ _ _ Hb).
    destruct Hpost as [->|(l & post' & -> & [Hc|(m' & Hm')])].
    + cbn [articulos_loop]. apply guardar_articulo_vacio.
    + rewrite !(articulos_loop_capitulo _ _ _ _ _ Hc).
      apply guardar_articulo_vacio.
    + rewrite !(articulos_loop_articulo _ _ _ _ _ _ Hm').
      rewrite guardar_articulo_vacio. reflexivity.
  - cbn [app articulos_loop].
    destruct (nonempty (strip l)); cbn [negb]; [ | apply IH ].
    destruct (es_capitulo (strip l)); [ reflexivity | ].
    destruct (re_match false pat_articulo (strip l)) as [m'|]; [ apply IH | ].
    destruct cur; apply IH.
Qed.

(** C10: an article header with an empty inline remainder that is followed
    only by blank lines up to the next article header, the next chapter
    header or the end of the range produces no article: an article is
    emitted only when its accumulated text is non-empty, and the segment
    is parsed exactly as if the header line were not there. *)
Theorem C10_encabezado_sin_cuerpo (contenido : str) (inicio fin : nat)
    (pre blancos post : list str) (h : str) (m : caps) :
  slice (split_nl contenido) inicio fin = pre ++ h :: blancos ++ post ->
  re_match false pat_articulo (strip h) = Some m ->
  group 2 m = [] ->
  Forall (fun l => strip l = []) blancos ->
  (post = []
   \/ exists l post',
        post = l :: post'
        /\ (es_capitulo (strip l) = true
            \/ exists m', re_match false pat_articulo (strip l) = Some m')) ->
  parsear_articulos contenido inicio fin = articulos_loop (pre ++ post) [] None []
  /\ (forall arts cur, guardar_articulo arts cur [] = arts).
Proof.
  intros E Hm Hg Hb Hpost. split; [ | exact guardar_articulo_vacio ].
  unfold parsear_articulos. rewrite E.
  exact (articulos_loop_sin_cuerpo pre blancos post h m Hm Hg Hb Hpost [] None []).
Qed.

Lemma C10_encabezado_sin_cuerpo_witness :
  parsear_articulos
    (documento ["Artículo 1. Uno."; "Artículo 2."; ""; "Artículo 3. Tres."]%string)
    0 4
  = articulos_loop [utf8 "Artículo 1. Uno."; utf8 "Artículo 3. Tres."]
      [] None [].
Proof.
  refine (proj1 (C10_encabezado_sin_cuerpo _ 0 4
            [utf8 "Artículo 1. Uno."] [[]] [utf8 "Artículo 3. Tres."]
            (utf8 "Artículo 2.") [(2%nat, []); (1%nat, utf8 "2")] _ _ _ _ _)).
  - vm_compute. reflexivity.
  - vm_compute. reflexivity.
  - reflexivity.
  - repeat constructor.
  - right. eexists _, _. split; [ reflexivity | ].
    right. eexists. vm_compute. reflexivity.
Defined.

(** ** Documents without chapter headers (C3) *)

Lemma capitulo_positions_from_nil (lines : list str) (i : nat) :
  Forall (fun l => es_capitulo (strip l) = false) lines ->
  capitulo_positions_from lines i = [].
Proof.
  intros H. revert i. induction H as [|l ls Hl _ IH]; intros i; simpl.
  - reflexivity.
  - rewrite Hl. apply IH.
Qed.

Lemma slice_all {A} (l : list A) : slice l 0 (List.length l) = l.
Proof. unfold slice. rewrite firstn_all. reflexivity. Qed.

(** Without chapter headers the result is the implicit chapter, unless no
    article was emitted. *)
Lemma parsear_capitulos_sin_capitulos (contenido : str) :
  Forall (fun l => es_capitulo (strip l) = false) (split_nl contenido) ->
  parsear_capitulos contenido
  = let articulos :=
      parsear_articulos contenido 0 (List.length (split_nl contenido)) in
    if nonempty articulos then [mkCapitulo capitulo_unico articulos] else [].
Proof.
  intros H. unfold parsear_capitulos, capitulo_positions.
  rewrite (capitulo_positions_from_nil _ 0 H). reflexivity.
Qed.

(** Lines without chapter headers are all consumed. *)
Lemma articulos_loop_avanza (pre resto : list str) :
  Forall (fun l => es_capitulo (strip l) = false) pre ->
  forall arts cur txt,
  exists arts' cur' txt',
    articulos_loop (pre ++ resto) arts cur txt
    = articulos_loop resto arts' cur' txt'.
Proof.
  induction 1 as [|l ls Hl _ IH]; intros arts cur txt.
  - exists arts, cur, txt. reflexivity.
  - cbn [app articulos_loop]. rewrite Hl.
    destruct (nonempty (strip l)); cbn [negb]; [ | apply IH ].
    destruct (re_match false pat_articulo (strip l)) as [m|]; [ apply IH | ].
    destruct cur; apply IH.
Qed.

(** C3: when no line of the document is a chapter header and
    some article header carries text (an inline remainder, or a following
    non-blank line that is not an article header), the parser returns
    exactly one chapter, labelled "CAPÍTULO ÚNICO", holding all the
    articles parsed from the document. *)
Theorem C3_capitulo_unico (contenido : str) (pre post : list str) (h : str)
    (m : caps) :
  Forall (fun l => es_capitulo (strip l) = false) (split_nl contenido) ->
  split_nl contenido = pre ++ h :: post ->
  re_match false pat_articulo (strip h) = Some m ->
  con_texto m post ->
  parsear_articulos contenido 0 (List.length (split_nl contenido)) <> []
  /\ parsear_capitulos contenido
     = [ mkCapitulo capitulo_unico
           (parsear_articulos contenido 0
              (List.length (split_nl contenido))) ].
Proof.
  intros Hcap E Hm Htxt.
  assert (Hne : parsear_articulos contenido 0
                  (List.length (split_nl contenido)) <> []).
  { unfold parsear_articulos. rewrite slice_all.
    rewrite E in Hcap |- *.
    apply Forall_app in Hcap. destruct Hcap as [Hpre Hpost].
    destruct (articulos_loop_avanza pre (h :: post) Hpre [] None [])
      as (arts' & cur' & txt' & ->).
    rewrite (articulos_loop_articulo _ _ _ _ _ _ Hm).
    destruct Htxt as [Hg|(blancos & l & post' & -> & Hb & Hl & Hno)].
    - apply articulos_loop_abierto. unfold texto_inicial. rewrite Hg.
      discriminate.
    - rewrite (articulos_loop_blancos _ _ _ _ _ Hb).
      apply Forall_inv_tail in Hpost. apply Forall_app in Hpost.
      destruct Hpost as [_ Hpost]. apply Forall_inv in Hpost.
      rewrite (articulos_loop_texto _ _ _ _ _ Hl Hpost Hno).
      apply articulos_loop_abierto. intros E'. apply app_eq_nil in E'.
      destruct E' as [_ E']. discriminate. }
  split; [ exact Hne | ].
  rewrite (parsear_capitulos_sin_capitulos _ Hcap). cbv zeta.
  apply nonempty_true in Hne. rewrite Hne. reflexivity.
Qed.

Lemma C3_capitulo_unico_witness :
  parsear_capitulos doc_unico
  = [ mkCapitulo capitulo_unico
        (parsear_articulos doc_unico 0 (List.length (split_nl doc_unico))) ].
Proof.
  refine (proj2 (C3_capitulo_unico doc_unico []  []
                   (utf8 "Artículo Único. Se deroga la presente ley.")
                   [(2%nat, utf8 "Se deroga la presente ley.");
                    (1%nat, utf8 "Único")] _ _ _ _)).
  - vm_compute. repeat constructor.
  - vm_compute. reflexivity.
  - vm_compute. reflexivity.
  - left. vm_compute. reflexivity.
Defined.

(** C3 needs an article with text: "Artículo 1." has no chapter header and one
    article header, and the parser returns no chapter at all. *)
Lemma C3_counterexample :
  ~ (forall contenido : str,
        Forall (fun l => es_capitulo (strip l) = false) (split_nl contenido) ->
        Exists (fun l => re_test false pat_articulo (strip l) = true)
          (split_nl contenido) ->
        exists c, parsear_capitulos contenido = [c]
                  /\ capitulo c = capitulo_unico
                  /\ articulos c
                     = parsear_articulos contenido 0
                         (List.length (split_nl contenido))).
Proof.
  intros H. destruct (H doc_sin_cuerpo) as (c & E & _).
  - vm_compute. repeat constructor.
  - vm_compute. constructor. reflexivity.
  - vm_compute in E. discriminate.
Qed.

(** ** Chapter extents (C5) *)

Lemma buscar_desde_find (l2 : list str) :
  forall (l1 : list str),
    buscar_desde l2 (List.length l1)
    = find (fun j => es_transitorios (strip (nth j (l1 ++ l2) [])))
           (seq (List.length l1) (List.length l2)).
Proof.
  induction l2 as [|x l2 IH]; intros l1; [ reflexivity | ].
  cbn [buscar_desde List.length seq find].
  rewrite nth_middle.
  destruct (es_transitorios (strip x)); [ reflexivity | ].
  specialize (IH (l1 ++ [x])). rewrite length_app in IH. simpl in IH.
  replace (List.length l1 + 1)%nat with (S (List.length l1)) in IH by lia.
  rewrite IH, <- app_assoc. reflexivity.
Qed.

Lemma buscar_transitorios_spec (lines : list str) (pos : nat) :
  buscar_transitorios lines pos = primer_transitorio lines pos.
Proof.
  unfold buscar_transitorios, primer_transitorio.
  destruct (Nat.le_gt_cases pos (List.length lines)) as [H|H].
  - pose proof (buscar_desde_find (skipn pos lines) (firstn pos lines)) as B.
    rewrite (firstn_skipn pos lines) in B.
    rewrite (firstn_length_le lines H) in B.
    rewrite B, length_skipn. reflexivity.
  - rewrite skipn_all2 by lia.
    replace (List.length lines - pos)%nat with 0%nat by lia. reflexivity.
Qed.

Lemma extensiones_cons (lines : list str) (pos : nat) (titulo : str)
    (resto : list (nat * str)) :
  extensiones lines ((pos, titulo) :: resto)
  = (pos, titulo,
     match resto with
     | [] => match primer_transitorio lines pos with
             | Some j => j
             | None => List.length lines
             end
     | (pos', _) :: _ => pos'
     end) :: extensiones lines resto.
Proof. destruct resto as [|[pos' t'] resto']; reflexivity. Qed.

Lemma capitulo_de_eq (contenido : str) (pos : nat) (titulo : str) (fin : nat) :
  capitulo_de contenido (pos, titulo, fin)
  = if nonempty (parsear_articulos contenido (pos + 1) fin)
    then [mkCapitulo titulo (parsear_articulos contenido (pos + 1) fin)]
    else [].
Proof. reflexivity. Qed.

Lemma capitulos_loop_spec (contenido : str) (lines : list str)
    (pend : list (nat * str)) :
  forall (hechos : list (nat * str)) (capitulos : list Capitulo),
    capitulos_loop contenido lines (hechos ++ pend) pend
      (List.length hechos) capitulos
    = capitulos ++ flat_map (capitulo_de contenido) (extensiones lines pend).
Proof.
  induction pend as [|[pos titulo] resto IH]; intros hechos capitulos.
  - simpl. symmetry. apply app_nil_r.
  - cbn [capitulos_loop].
    replace (hechos ++ (pos, titulo) :: resto)
      with ((hechos ++ [(pos, titulo)]) ++ resto)
      by (rewrite <- app_assoc; reflexivity).
    replace (S (List.length hechos))
      with (List.length (hechos ++ [(pos, titulo)]))
      by (rewrite length_app; simpl; lia).
    rewrite IH. clear IH.
    assert (F : fin_capitulo lines ((hechos ++ [(pos, titulo)]) ++ resto)
                  (List.length hechos) pos
                = match resto with
                  | [] => match primer_transitorio lines pos with
                          | Some j => j
                          | None => List.length lines
                          end
                  | (pos', _) :: _ => pos'
                  end).
    { unfold fin_capitulo. rewrite <- buscar_transitorios_spec.
      rewrite <- app_assoc. cbn [app].
      destruct resto as [|[pos' t'] resto'].
      - rewrite length_app. cbn [List.length].
        replace (List.length hechos + 1 <? List.length hechos + 1)%nat
          with false by (symmetry; apply Nat.ltb_ge; lia).
        replace (List.length hechos =? List.length hechos + 1 - 1)%nat
          with true by (symmetry; apply Nat.eqb_eq; lia).
        reflexivity.
      - rewrite length_app. cbn [List.length].
        replace (List.length hechos + 1 <? List.length hechos
                                           + S (S (List.length resto')))%nat
          with true by (symmetry; apply Nat.ltb_lt; lia).
        replace (List.length hechos =? List.length hechos
                                       + S (S (List.length resto')) - 1)%nat
          with false by (symmetry; apply Nat.eqb_neq; lia).
        replace (hechos ++ (pos, titulo) :: (pos', t') :: resto')
          with ((hechos ++ [(pos, titulo)]) ++ (pos', t') :: resto')
          by (rewrite <- app_assoc; reflexivity).
        replace (List.length hechos + 1)%nat
          with (List.length (hechos ++ [(pos, titulo)]))
          by (rewrite length_app; simpl; lia).
        rewrite nth_middle. reflexivity. }
    rewrite F. clear F.
    rewrite extensiones_cons. cbn [flat_map]. rewrite capitulo_de_eq.
    match goal with
    | |- context [nonempty ?a] => destruct (nonempty a)
    end; cbn [app]; rewrite <- ?app_assoc; reflexivity.
Qed.



(** ** Stripping and normalising text *)

Lemma lstrip_head (s : str) (c : char) (s' : str) :
  lstrip s = c :: s' -> isspace c = false.
Proof.
  induction s as [|x s IH]; simpl; [ discriminate | ].
  destruct (isspace x) eqn:Hx; [ exact IH | ].
  intros E. injection E as <- _. exact Hx.
Qed.

Lemma lstrip_In (s : str) (c : char) :
  In c s -> isspace c = false -> In c (lstrip s).
Proof.
  induction s as [|x s IH]; simpl; [ tauto | ].
  intros [->|H] Hc.
  - rewrite Hc. left. reflexivity.
  - destruct (isspace x); [ apply IH; assumption | right; exact H ].
Qed.

Lemma strip_In (s : str) (c : char) :
  In c s -> isspace c = false -> In c (strip s).
Proof.
  intros H Hc. unfold strip, rstrip. rewrite <- in_rev.
  apply lstrip_In; [ | exact Hc ]. rewrite <- in_rev.
  apply lstrip_In; assumption.
Qed.

(** A stripped line that is not empty ends with a non-blank character. *)
Lemma strip_last (s : str) :
  strip s <> [] -> exists p c, strip s = p ++ [c] /\ isspace c = false.
Proof.
  unfold strip, rstrip.
  destruct (lstrip (rev (lstrip s))) as [|c t] eqn:E; [ simpl; congruence | ].
  intros _. exists (rev t), c. split; [ reflexivity | ].
  exact (lstrip_head _ _ _ E).
Qed.

Lemma sub_espacios_nonempty (s : str) :
  s <> [] -> sub_espacios false s <> [].
Proof.
  destruct s as [|c s]; [ congruence | ]. intros _. simpl.
  destruct (isspace c); discriminate.
Qed.

Lemma sub_espacios_In (s : str) (c : char) (inrun : bool) :
  In c s -> isspace c = false -> In c (sub_espacios inrun s).
Proof.
  revert inrun. induction s as [|x s IH]; intros inrun; simpl; [ tauto | ].
  intros [->|H] Hc.
  - rewrite Hc. left. reflexivity.
  - destruct (isspace x); [ destruct inrun | ]; try right; apply IH; assumption.
Qed.

(** Normalising a text that has a visible character leaves one. *)
Lemma limpiar_texto_visible (s : str) (c : char) :
  In c s -> isspace c = false ->
  exists d, In d (limpiar_texto s) /\ isspace d = false.
Proof.
  intros H Hc. unfold limpiar_texto, sub_guiones.
  pose proof (sub_espacios_In _ c false (strip_In s c H Hc) Hc) as H'.
  destruct ((c =? 8211) || (c =? 8212)) eqn:E.
  - exists 45. split; [ | reflexivity ].
    apply in_map_iff. exists c. rewrite E. split; [ reflexivity | exact H' ].
  - exists c. split; [ | exact Hc ].
    apply in_map_iff. exists c. rewrite E. split; [ reflexivity | exact H' ].
Qed.

Lemma visible_nonempty (s : str) :
  (exists d, In d s /\ isspace d = false) -> s <> [] /\ strip s <> [].
Proof.
  intros (d & Hd & Hs). split.
  - intros E. rewrite E in Hd. destruct Hd.
  - intros E. pose proof (strip_In s d Hd Hs) as H. rewrite E in H. destruct H.
Qed.

(** ** What is left of a pattern's subject *)

Lemma den_suffix (ic : bool) (r : re) :
  forall s rest, den ic r s rest -> exists p, s = p ++ rest.
Proof.
  induction r as [ | cs | a IHa b IHb | a IHa b IHb | cs | cs | n a IHa | ];
    intros s rest; simpl.
  - intros ->. exists []. reflexivity.
  - intros (c & -> & _). exists [c]. reflexivity.
  - intros (mid & Ha & Hb). apply IHa in Ha. apply IHb in Hb.
    destruct Ha as (p & ->). destruct Hb as (q & ->).
    exists (p ++ q). rewrite app_assoc. reflexivity.
  - intros [H|H]; [ exact (IHa _ _ H) | exact (IHb _ _ H) ].
  - intros (p & -> & _). exists p. reflexivity.
  - intros (p & -> & _). exists p. reflexivity.
  - apply IHa.
  - intros (-> & _). exists []. reflexivity.
Qed.

(** A sequence that ends with [\s+] consumes a blank last. *)
Lemma den_RSeqs_espacio (ic : bool) (l : list re) :
  forall s rest,
    den ic (RSeqs (l ++ [RPlus [CSpace]])) s rest ->
    exists p c, s = p ++ c :: rest /\ isspace c = true.
Proof.
  induction l as [|a l IH]; intros s rest.
  - cbn [app RSeqs]. intros (mid & H & E). cbn [den] in E. subst mid.
    apply den_RPlus in H. destruct H as (ws & -> & Hne & Hws).
    rewrite forallb_espacio_ic in Hws.
    destruct (exists_last Hne) as (p & c & ->).
    rewrite forallb_app in Hws. apply andb_true_iff in Hws.
    destruct Hws as [_ Hc]. simpl in Hc. rewrite andb_true_r in Hc.
    exists p, c. rewrite <- app_assoc. split; [ reflexivity | exact Hc ].
  - cbn [app RSeqs]. intros (mid & Ha & H). apply IH in H.
    destruct H as (p & c & -> & Hc). apply den_suffix in Ha.
    destruct Ha as (q & ->). exists (q ++ p), c.
    rewrite <- app_assoc. split; [ reflexivity | exact Hc ].
Qed.

Lemma den_prefijo_ley (s rest : str) :
  den true pat_prefijo_ley s rest ->
  exists p c, s = p ++ c :: rest /\ isspace c = true.
Proof.
  unfold pat_prefijo_ley. cbn [den RAlts]. intros [H|[H|(c & _ & H)]].
  - exact (den_RSeqs_espacio true
             [word "LEY"; RPlus [CSpace]; word "DE"; RPlus [CSpace];
              word "INGRESOS"; RPlus [CSpace]; word "DEL"] s rest H).
  - apply (den_RSeqs_espacio true [word "LEY"] s rest).
    cbn [app RSeqs]. destruct H as (mid & H1 & H2). exists mid.
    split; [ exact H1 | ]. exists rest. split; [ exact H2 | reflexivity ].
  - discriminate.
Qed.

(** The title left after removing the filler prefix keeps the last
    character of the line. *)
Lemma re_sub_prefijo_last (s p : str) (c : char) :
  s = p ++ [c] -> isspace c = false ->
  In c (re_sub_prefix true pat_prefijo_ley s).
Proof.
  intros E Hc. unfold re_sub_prefix.
  destruct (run true pat_prefijo_ley s []) as [|[rest g] l] eqn:R.
  - rewrite E. apply in_or_app. right. left. reflexivity.
  - cbn [fst].
    assert (D : den true pat_prefijo_ley s rest).
    { apply (run_den true pat_prefijo_ley s [] rest). exists g. rewrite R.
      left. reflexivity. }
    apply den_prefijo_ley in D. destruct D as (q & d & E' & Hd).
    destruct (@exists_last _ (d :: rest)) as (u & x & Eu); [ discriminate | ].
    rewrite E', Eu, app_assoc in E. apply app_inj_tail in E.
    destruct E as [_ ->].
    destruct rest as [|y rest'].
    + destruct u as [|? [|? ?]]; simpl in Eu; try discriminate.
      injection Eu as ->. congruence.
    + assert (In c (d :: y :: rest')) as [->|H]
        by (rewrite Eu; apply in_or_app; right; left; reflexivity);
        [ congruence | exact H ].
Qed.

(** ** The title (C8) *)

Lemma titulo_loop1_find (lineas : list str) :
  titulo_loop1 lineas
  = option_map
      (fun l => limpiar_texto (re_sub_prefix true pat_prefijo_ley (strip l)))
      (find (fun l => re_test true pat_ley (strip l)) lineas).
Proof.
  induction lineas as [|l ls IH]; simpl; [ reflexivity | ].
  destruct (re_test true pat_ley (strip l)); [ reflexivity | exact IH ].
Qed.

Lemma titulo_loop2_find (T : CaseTable) (lineas : list str) :
  titulo_loop2 T lineas
  = option_map (fun l => limpiar_texto (strip l))
      (find (fun l => (10 <? List.length (strip l))%nat && isupper T (strip l))
            lineas).
Proof.
  induction lineas as [|l ls IH]; simpl; [ reflexivity | ].
  destruct ((10 <? List.length (strip l))%nat && isupper T (strip l));
    [ reflexivity | exact IH ].
Qed.

Lemma titulo_de_ley_visible (l : str) :
  re_test true pat_ley (strip l) = true ->
  exists d,
    In d (limpiar_texto (re_sub_prefix true pat_prefijo_ley (strip l)))
    /\ isspace d = false.
Proof.
  intros H.
  assert (Hne : strip l <> []).
  { intros E. rewrite E in H. vm_compute in H. discriminate. }
  destruct (strip_last l Hne) as (p & c & E & Hc).
  apply (limpiar_texto_visible _ c); [ | exact Hc ].
  exact (re_sub_prefijo_last _ p c E Hc).
Qed.

Lemma titulo_mayusculas_visible (l : str) :
  (10 <? List.length (strip l))%nat = true ->
  exists d, In d (limpiar_texto (strip l)) /\ isspace d = false.
Proof.
  intros H. apply Nat.ltb_lt in H.
  assert (Hne : strip l <> []) by (intros E; rewrite E in H; simpl in H; lia).
  destruct (strip_last l Hne) as (p & c & E & Hc).
  apply (limpiar_texto_visible _ c); [ | exact Hc ].
  rewrite E. apply in_or_app. right. left. reflexivity.
Qed.

(* ================================================================== *)
(** * Order and overlap of the units (C2) *)
(* ================================================================== *)

(** ** Subsequences and increasing lists *)

Section Subseq.

Context {A : Type}.

Lemma subseq_refl (l : list A) : subseq l l.
Proof. induction l; constructor; assumption. Qed.

Lemma subseq_nil_l (l : list A) : subseq [] l.
Proof. induction l; constructor; assumption. Qed.

Lemma subseq_trans (l1 l2 l3 : list A) :
  subseq l1 l2 -> subseq l2 l3 -> subseq l1 l3.
Proof.
  intros H12 H23. revert l1 H12.
  induction H23 as [|x l2 l3 _ IH|x l2 l3 _ IH]; intros l1 H12.
  - exact H12.
  - constructor. apply IH. exact H12.
  - inversion H12 as [|y a b Hab|y a b Hab]; subst.
    + constructor. apply IH. exact Hab.
    + apply subseq_cons. apply IH. exact Hab.
Qed.

Lemma subseq_app (a a' b b' : list A) :
  subseq a a' -> subseq b b' -> subseq (a ++ b) (a' ++ b').
Proof.
  intros Ha Hb. induction Ha as [|x l1 l2 _ IH|x l1 l2 _ IH]; simpl.
  - exact Hb.
  - constructor. exact IH.
  - apply subseq_cons. exact IH.
Qed.

Lemma subseq_app_r (a b : list A) : subseq a (a ++ b).
Proof.
  rewrite <- (app_nil_r a) at 1.
  apply subseq_app; [ apply subseq_refl | apply subseq_nil_l ].
Qed.

Lemma subseq_app_l (a b : list A) : subseq b (a ++ b).
Proof.
  change b with ([] ++ b) at 1.
  apply subseq_app; [ apply subseq_nil_l | apply subseq_refl ].
Qed.

Lemma subseq_In (l1 l2 : list A) (x : A) :
  subseq l1 l2 -> In x l1 -> In x l2.
Proof.
  induction 1 as [|y l1 l2 _ IH|y l1 l2 _ IH]; simpl; [ tauto | | ].
  - intros H. right. apply IH. exact H.
  - intros [->|H]; [ left; reflexivity | right; apply IH; exact H ].
Qed.


Lemma subseq_sorted_Forall (P : A -> Prop) (l1 l2 : list A) :
  subseq l1 l2 -> Forall P l2 -> Forall P l1.
Proof.
  intros H F. rewrite Forall_forall in *. intros x Hx. apply F.
  exact (subseq_In _ _ _ H Hx).
Qed.

Lemma subseq_firstn (n : nat) (l : list A) : subseq (firstn n l) l.
Proof.
  rewrite <- (firstn_skipn n l) at 2. apply subseq_app_r.
Qed.

Lemma subseq_skipn (n : nat) (l : list A) : subseq (skipn n l) l.
Proof.
  rewrite <- (firstn_skipn n l) at 2. apply subseq_app_l.
Qed.

Lemma subseq_slice (l : list A) (a b : nat) : subseq (slice l a b) l.
Proof.
  unfold slice. eapply subseq_trans; [ apply subseq_skipn | apply subseq_firstn ].
Qed.

End Subseq.

Lemma subseq_map {A B : Type} (f : A -> B) (l1 l2 : list A) :
  subseq l1 l2 -> subseq (map f l1) (map f l2).
Proof. induction 1; simpl; constructor; assumption. Qed.



(** ** Numbered lines *)










(** ** The sub-item loop with line numbers *)






(** ** The article loop with line numbers *)








(** ** Line breaks *)

Lemma lstrip_Forall (P : char -> Prop) (s : str) :
  Forall P s -> Forall P (lstrip s).
Proof.
  induction 1 as [|c s Hc Hs IH]; simpl; [ constructor | ].
  destruct (isspace c); [ exact IH | constructor; assumption ].
Qed.

Lemma strip_Forall (P : char -> Prop) (s : str) :
  Forall P s -> Forall P (strip s).
Proof.
  intros H. unfold strip, rstrip. apply Forall_rev, lstrip_Forall, Forall_rev,
    lstrip_Forall. exact H.
Qed.

Lemma split_nl_sin_salto (s : str) : Forall sin_salto (split_nl s).
Proof.
  induction s as [|c s IH]; simpl.
  - repeat constructor.
  - destruct (N.eqb_spec c LF) as [->|Hc].
    + constructor; [ constructor | exact IH ].
    + destruct (split_nl s) as [|l ls]; [ repeat constructor; exact Hc | ].
      inversion IH as [|? ? Hl Hls]; subst.
      constructor; [ constructor; assumption | exact Hls ].
Qed.

Lemma split_nl_app_LF (x t : str) :
  sin_salto x -> split_nl (x ++ LF :: t) = x :: split_nl t.
Proof.
  induction 1 as [|c x Hc _ IH]; simpl; [ reflexivity | ].
  replace (c =? LF) with false by (symmetry; apply N.eqb_neq; exact Hc).
  rewrite IH. reflexivity.
Qed.

Lemma split_nl_one (x : str) : sin_salto x -> split_nl x = [x].
Proof.
  induction 1 as [|c x Hc _ IH]; simpl; [ reflexivity | ].
  replace (c =? LF) with false by (symmetry; apply N.eqb_neq; exact Hc).
  rewrite IH. reflexivity.
Qed.

Lemma split_nl_join (xs : list str) :
  xs <> [] -> Forall sin_salto xs -> split_nl (join [LF] xs) = xs.
Proof.
  induction xs as [|x xs IH]; [ congruence | ]. intros _ H.
  inversion H as [|? ? Hx Hxs]; subst.
  destruct xs as [|y r].
  - simpl. apply split_nl_one. exact Hx.
  - change (join [LF] (x :: y :: r)) with (x ++ LF :: join [LF] (y :: r)).
    rewrite (split_nl_app_LF _ _ Hx), IH; [ reflexivity | discriminate | exact Hxs ].
Qed.





(** ** What holds of every article the loop emits *)

Section ArticulosInv.

Variable Q : ArticuloO -> Prop.
Variable Abierto : Z -> nat -> list str -> list (nat * str) -> Prop.
Variable L : nat * str -> Prop.

Hypothesis H_emit :
  forall n hdr ini cont, Abierto n hdr ini cont -> Q (construir_articulo_o n hdr ini cont).
Hypothesis H_open :
  forall i l m,
    L (i, l) -> re_match false pat_articulo (strip l) = Some m ->
    Abierto (numero_articulo (group 1 m)) i (texto_inicial m) [].
Hypothesis H_append :
  forall n hdr ini cont i l,
    Abierto n hdr ini cont -> L (i, l) -> Abierto n hdr ini (cont ++ [(i, strip l)]).



End ArticulosInv.

Lemma fracciones_loop_split_join (xs : list str) :
  Forall sin_salto xs ->
  fracciones_loop (split_nl (join [LF] xs)) [] None []
  = fracciones_loop xs [] None [].
Proof.
  intros H. destruct xs as [|x xs]; [ reflexivity | ].
  rewrite split_nl_join; [ reflexivity | discriminate | exact H ].
Qed.



(** ** Articles of a range *)




(** ** Increasing lists *)




(** ** Chapter positions *)




(** ** The chapters with their lines *)














(** ** The transitory loop with line numbers *)













Example capitulo_y_transitorio :
  map (fun c => map ao_lineas (co_articulos c))
      (parsear_capitulos_o doc_capitulo_transitorio)
  = [[[1; 2; 3]]; [[5]]]%nat
  /\ map to_lineas (parsear_transitorios_o doc_capitulo_transitorio)
     = [[3]; [4; 5]]%nat
  /\ map transitorio_articulo (parsear_transitorios doc_capitulo_transitorio)
     = [utf8 "Primero"; utf8 "C"].
Proof. vm_compute. repeat split. Qed.

(** ** The parser at work *)

Example transitorio_primero :
  parsear_transitorios
    (documento ["TRANSITORIOS"; "Primero. Este decreto entra en vigor..."]%string)
  = [ mkTransitorio (utf8 "Primero")
        (utf8 "Este decreto entra en vigor...") ].
Proof. vm_compute. reflexivity. Qed.

Example articulo_sin_texto_con_fraccion :
  parsear_articulos (documento ["Artículo 7."; "I. Pagar."]%string) 0 2
  = [ mkArticulo 7 [] [ mkFraccion (utf8 "I") (utf8 "Pagar.") ] ].
Proof. vm_compute. reflexivity. Qed.

Example titulo_de_ley :
  extraer_titulo latin1
    (documento ["DECRETO 12"; "  LEY DE INGRESOS DEL ESTADO   DE JALISCO — 2025"]%string)
  = utf8 "ESTADO DE JALISCO - 2025".
Proof. vm_compute. reflexivity. Qed.

Example titulo_en_mayusculas :
  extraer_titulo latin1 (documento ["decreto"; "PODER LEGISLATIVO"]%string)
  = utf8 "PODER LEGISLATIVO".
Proof. vm_compute. reflexivity. Qed.

Example titulo_centinela :
  extraer_titulo latin1 (documento ["decreto"; "Artículo 1. Uno."]%string)
  = utf8 "Título no identificado".
Proof. vm_compute. reflexivity. Qed.

Example dos_capitulos :
  parsear_capitulos doc_dos_capitulos
  = [ mkCapitulo (utf8 "CAPÍTULO I")
        [ mkArticulo 1 (utf8 "Uno. TRANSITORIOS") [] ];
      mkCapitulo (utf8 "CAPÍTULO II") [ mkArticulo 2 (utf8 "Dos.") [] ] ].
Proof. vm_compute. reflexivity. Qed.

Example dos_capitulos_lineas :
  map (fun c => (co_lineas c, map ao_lineas (co_articulos c)))
      (parsear_capitulos_o doc_dos_capitulos)
  = [ ([1; 2; 3], [[2; 3]]); ([4; 5], [[5]]) ]%nat.
Proof. vm_compute. reflexivity. Qed.

Example obligaciones_lineas :
  map (fun c => map (fun a => (ao_lineas a,
                               map fo_lineas (ao_fracciones a)))
                    (co_articulos c))
      (parsear_capitulos_o doc_obligaciones)
  = [ [ ([0; 1; 2], [[1]; [2]]) ] ]%nat.
Proof. vm_compute. reflexivity. Qed.

(* ================================================================== *)
(** * Further properties of the parser *)
(* ================================================================== *)

(** ** [limpiar_texto]: the normal form *)

Lemma lstrip_visible_head (c : char) (s : str) :
  isspace c = false -> lstrip (c :: s) = c :: s.
Proof. intros H. simpl. rewrite H. reflexivity. Qed.

Lemma lstrip_app_visible (a : str) (c : char) :
  isspace c = false -> lstrip (a ++ [c]) = lstrip a ++ [c].
Proof.
  intros H. induction a as [|x a IH]; simpl.
  - rewrite H. reflexivity.
  - destruct (isspace x); [ exact IH | reflexivity ].
Qed.

(** A text that begins and ends with a visible character is its own
    stripped form. *)
Lemma strip_fixed (s : str) :
  (forall c s', s = c :: s' -> isspace c = false) ->
  (forall p c, s = p ++ [c] -> isspace c = false) ->
  strip s = s.
Proof.
  intros Hh Hl. destruct s as [|c s]; [ reflexivity | ].
  unfold strip. rewrite (lstrip_visible_head c s (Hh c s eq_refl)).
  unfold rstrip.
  destruct (@exists_last _ (c :: s)) as (p & d & E); [ discriminate | ].
  rewrite E, rev_app_distr. cbn [rev app].
  rewrite (lstrip_visible_head d (rev p) (Hl p d E)).
  cbn [rev]. rewrite rev_involutive. reflexivity.
Qed.

Lemma strip_head (s : str) (c : char) (s' : str) :
  strip s = c :: s' -> isspace c = false.
Proof.
  unfold strip, rstrip. intros E.
  destruct (lstrip s) as [|x r] eqn:L; [ discriminate | ].
  pose proof (lstrip_head s x r L) as Hx.
  cbn [rev] in E. rewrite (lstrip_app_visible _ x Hx), rev_app_distr in E.
  cbn [rev app] in E. injection E as <- _. exact Hx.
Qed.

Lemma strip_idempotent (s : str) : strip (strip s) = strip s.
Proof.
  apply strip_fixed.
  - intros c s' E. exact (strip_head s c s' E).
  - intros p c E.
    assert (Hne : strip s <> []) by (rewrite E; intros K; destruct p; discriminate).
    destruct (strip_last s Hne) as (p' & c' & E' & Hc').
    rewrite E in E'. apply app_inj_tail in E'. destruct E' as [_ ->]. exact Hc'.
Qed.

Lemma sub_espacios_solo_blancos (s : str) (inrun : bool) :
  Forall (fun c => isspace c = true -> c = SP) (sub_espacios inrun s).
Proof.
  revert inrun. induction s as [|c s IH]; intros inrun; simpl; [ constructor | ].
  destruct (isspace c) eqn:Hc.
  - destruct inrun; [ apply IH | ]. constructor; [ reflexivity | apply IH ].
  - constructor; [ congruence | apply IH ].
Qed.

Lemma sin_blanco_doble_cons (c d : char) (r : str) :
  sin_blanco_doble (c :: d :: r)
  = negb (isspace c && isspace d) && sin_blanco_doble (d :: r).
Proof. reflexivity. Qed.

Lemma sub_espacios_sin_doble (s : str) (inrun : bool) :
  sin_blanco_doble (sub_espacios inrun s) = true
  /\ (inrun = true ->
      forall c r, sub_espacios inrun s = c :: r -> isspace c = false).
Proof.
  revert inrun. induction s as [|c s IH]; intros inrun; simpl.
  - split; [ reflexivity | discriminate ].
  - destruct (isspace c) eqn:Hc.
    + destruct inrun.
      * apply IH.
      * split; [ | discriminate ].
        destruct (IH true) as [I1 I2].
        destruct (sub_espacios true s) as [|d r] eqn:E; [ reflexivity | ].
        rewrite sin_blanco_doble_cons, (I2 eq_refl d r eq_refl).
        rewrite andb_false_r. exact I1.
    + split.
      * destruct (IH false) as [I1 _].
        destruct (sub_espacios false s) as [|d r] eqn:E; [ reflexivity | ].
        rewrite sin_blanco_doble_cons, Hc. exact I1.
      * intros _ d r E. injection E as <- _. exact Hc.
Qed.

Lemma sub_espacios_app_visible (p : str) (c : char) (inrun : bool) :
  isspace c = false ->
  sub_espacios inrun (p ++ [c]) = sub_espacios inrun p ++ [c].
Proof.
  intros Hc. revert inrun. induction p as [|x p IH]; intros inrun; simpl.
  - rewrite Hc. reflexivity.
  - destruct (isspace x); [ destruct inrun | ]; rewrite IH; reflexivity.
Qed.

Lemma isspace_guion (c : char) : isspace (guion c) = isspace c.
Proof.
  unfold guion. destruct (N.eqb_spec c 8211) as [->|H1]; [ reflexivity | ].
  destruct (N.eqb_spec c 8212) as [->|H2]; reflexivity.
Qed.

Lemma sin_blanco_doble_map (s : str) :
  sin_blanco_doble (map guion s) = sin_blanco_doble s.
Proof.
  induction s as [|c s IH]; [ reflexivity | ].
  destruct s as [|d s']; [ reflexivity | ].
  cbn [map] in *. rewrite !sin_blanco_doble_cons, !isspace_guion, IH.
  reflexivity.
Qed.

Lemma limpiar_texto_normal (s : str) : normalizado (limpiar_texto s).
Proof.
  unfold limpiar_texto, sub_guiones. fold guion.
  change (fun c : N => if (c =? 8211) || (c =? 8212) then 45 else c)
    with guion.
  set (u := sub_espacios false (strip s)).
  split; [ | split; [ | split ] ].
  - apply Forall_forall. intros x Hx Hs. apply in_map_iff in Hx.
    destruct Hx as (c & <- & Hc). rewrite isspace_guion in Hs.
    pose proof (sub_espacios_solo_blancos (strip s) false) as F.
    rewrite Forall_forall in F. specialize (F c Hc Hs). subst c. reflexivity.
  - rewrite sin_blanco_doble_map. apply sub_espacios_sin_doble.
  - apply strip_fixed.
    + intros c s' E. subst u. destruct (strip s) as [|x t] eqn:T; [ discriminate | ].
      pose proof (strip_head s x t T) as Hx. simpl in E. rewrite Hx in E.
      cbn [map] in E. injection E as <- _. rewrite isspace_guion. exact Hx.
    + intros p c E. subst u.
      destruct (strip s) as [|x t] eqn:T;
        [ destruct p; discriminate | ].
      assert (Hne : strip s <> []) by (rewrite T; discriminate).
      destruct (strip_last s Hne) as (q & d & Eq & Hd).
      rewrite <- T, Eq, (sub_espacios_app_visible q d false Hd), map_app in E.
      cbn [map] in E. apply app_inj_tail in E. destruct E as [_ <-].
      rewrite isspace_guion. exact Hd.
  - apply Forall_forall. intros x Hx. apply in_map_iff in Hx.
    destruct Hx as (c & <- & _). unfold guion.
    destruct (N.eqb_spec c 8211) as [->|H1]; [ split; discriminate | ].
    destruct (N.eqb_spec c 8212) as [->|H2]; [ split; discriminate | ].
    split; assumption.
Qed.

Lemma sub_espacios_fixed (s : str) :
  Forall (fun c => isspace c = true -> c = SP) s ->
  sin_blanco_doble s = true ->
  forall inrun,
    (inrun = true -> forall c r, s = c :: r -> isspace c = false) ->
    sub_espacios inrun s = s.
Proof.
  induction 1 as [|c s Hc Hs IH]; intros D inrun Hh; [ reflexivity | ].
  assert (Ds : sin_blanco_doble s = true).
  { destruct s as [|d s']; [ reflexivity | ].
    rewrite sin_blanco_doble_cons in D. apply andb_true_iff in D. apply D. }
  cbn [sub_espacios]. destruct (isspace c) eqn:E.
  - destruct inrun.
    + rewrite (Hh eq_refl c s eq_refl) in E. discriminate.
    + rewrite (Hc eq_refl). f_equal. apply IH; [ exact Ds | ].
      intros _ d r ->. rewrite sin_blanco_doble_cons, E in D.
      destruct (isspace d); [ discriminate | reflexivity ].
  - f_equal. apply IH; [ exact Ds | discriminate ].
Qed.

(** X1: the result of [limpiar_texto] is normalised, whatever the text:
    its only whitespace is the plain blank, never twice in a row nor at
    either end, and it has no en or em dash. *)
Theorem X1_limpiar_texto_normalizado (s : str) : normalizado (limpiar_texto s).
Proof. apply limpiar_texto_normal. Qed.

(** X2: a normalised text is left as it is; in particular [limpiar_texto]
    is idempotent. *)
Theorem X2_limpiar_texto_idempotente (s : str) :
  (normalizado s -> limpiar_texto s = s)
  /\ limpiar_texto (limpiar_texto s) = limpiar_texto s.
Proof.
  assert (F : forall t, normalizado t -> limpiar_texto t = t).
  { intros t (H1 & H2 & H3 & H4). unfold limpiar_texto. rewrite H3.
    rewrite (sub_espacios_fixed t H1 H2 false) by discriminate.
    unfold sub_guiones. rewrite <- (map_id t) at 2. apply map_ext_in.
    intros c Hc. rewrite Forall_forall in H4. destruct (H4 c Hc) as [A B].
    apply N.eqb_neq in A, B. rewrite A, B. reflexivity. }
  split; [ apply F | ]. apply F, limpiar_texto_normal.
Qed.

Lemma X2_limpiar_texto_idempotente_witness :
  limpiar_texto (utf8 "a b-c") = utf8 "a b-c".
Proof.
  apply (proj1 (X2_limpiar_texto_idempotente _)).
  repeat split; try reflexivity; repeat constructor; vm_compute; discriminate.
Defined.

(** ** [extraer_decreto]: the preamble in closed form *)

Lemma decreto_loop_prefijo (lineas : list str) :
  forall acc,
    (List.length acc <= 10)%nat ->
    decreto_loop lineas acc
    = firstn 11 (acc ++ takewhile (fun l => negb (es_fin_decreto l))
                          (filter nonempty (map strip lineas))).
Proof.
  induction lineas as [|l ls IH]; intros acc Hacc.
  - cbn [decreto_loop map filter takewhile].
    rewrite app_nil_r, firstn_all2; [ reflexivity | lia ].
  - cbn [decreto_loop map filter].
    destruct (nonempty (strip l)); cbn [negb]; [ | apply IH; exact Hacc ].
    cbn [takewhile]. unfold es_fin_decreto at 1.
    destruct (re_test true pat_fin_decreto (strip l)); cbn [negb].
    + rewrite app_nil_r, firstn_all2; [ reflexivity | lia ].
    + set (tw := takewhile _ _).
      replace (acc ++ strip l :: tw) with ((acc ++ [strip l]) ++ tw)
        by (rewrite <- app_assoc; reflexivity).
      destruct (Nat.ltb_spec 10 (List.length (acc ++ [strip l]))) as [H|H].
      * assert (L : List.length (acc ++ [strip l]) = 11%nat)
          by (rewrite length_app in *; simpl in *; lia).
        rewrite firstn_app, L, Nat.sub_diag, firstn_O, app_nil_r.
        rewrite firstn_all2; [ reflexivity | lia ].
      * apply IH. exact H.
Qed.

(** X3: the preamble is made of the stripped non-blank lines that come
    before the first line starting with LEY, CÓDIGO, CONSTITUCIÓN,
    REGLAMENTO, TÍTULO or CAPÍTULO, at most the first eleven of them,
    joined by blanks; there is none ([None]) exactly when the document has
    no non-blank line or its first non-blank line is such a header. *)
Theorem X3_extraer_decreto_prefijo (contenido : str) :
  extraer_decreto contenido
  = match firstn 11 (takewhile (fun l => negb (es_fin_decreto l))
                       (lineas_utiles contenido)) with
    | [] => None
    | l :: ls => Some (join [SP] (l :: ls))
    end
  /\ (extraer_decreto contenido = None
      <-> match lineas_utiles contenido with
          | [] => True
          | l :: _ => es_fin_decreto l = true
          end).
Proof.
  assert (E : extraer_decreto contenido
              = match firstn 11 (takewhile (fun l => negb (es_fin_decreto l))
                                   (lineas_utiles contenido)) with
                | [] => None
                | l :: ls => Some (join [SP] (l :: ls))
                end).
  { unfold extraer_decreto, lineas_utiles.
    rewrite (decreto_loop_prefijo _ []) by (simpl; lia). cbn [app].
    destruct (firstn 11 _); reflexivity. }
  split; [ exact E | ]. rewrite E. clear E.
  destruct (lineas_utiles contenido) as [|l ls]; cbn [takewhile].
  - cbn. tauto.
  - destruct (es_fin_decreto l); cbn [negb firstn].
    + tauto.
    + split; [ discriminate | discriminate ].
Qed.

(** ** Ranges of lines *)

Lemma slice_prefix {A : Type} (l : list A) (a b : nat) (s1 s2 : list A) :
  slice l a b = s1 ++ s2 -> slice l a (a + List.length s1) = s1.
Proof.
  unfold slice. rewrite !skipn_firstn_comm. intros E.
  replace (a + List.length s1 - a)%nat with (List.length s1) by lia.
  assert (K : firstn (List.length s1) (firstn (b - a) (skipn a l)) = s1).
  { rewrite E, firstn_app, Nat.sub_diag, firstn_O, app_nil_r.
    apply firstn_all. }
  rewrite firstn_firstn in K.
  assert (Hl : (List.length s1 <= b - a)%nat).
  { apply (f_equal (@List.length A)) in E.
    rewrite length_firstn, length_app in E. lia. }
  rewrite Nat.min_l in K by exact Hl. exact K.
Qed.

Lemma slice_suffix {A : Type} (l : list A) (a b : nat) (s1 s2 : list A) :
  slice l a b = s1 ++ s2 -> slice l (a + List.length s1) b = s2.
Proof.
  unfold slice. intros E.
  rewrite (Nat.add_comm a), <- skipn_skipn, E, skipn_app, Nat.sub_diag.
  rewrite skipn_all. reflexivity.
Qed.

(** ** [parsear_articulos]: how a range is cut *)

Lemma articulos_loop_corte (pre : list str) (h : str) (post : list str) :
  es_capitulo (strip h) = true ->
  forall arts cur txt,
    articulos_loop (pre ++ h :: post) arts cur txt
    = articulos_loop pre arts cur txt.
Proof.
  intros Hh. induction pre as [|l ls IH]; intros arts cur txt.
  - cbn [app]. rewrite (articulos_loop_capitulo _ _ _ _ _ Hh). reflexivity.
  - cbn [app articulos_loop].
    destruct (nonempty (strip l)); cbn [negb]; [ | apply IH ].
    destruct (es_capitulo (strip l)); [ reflexivity | ].
    destruct (re_match false pat_articulo (strip l)); [ apply IH | ].
    destruct cur; apply IH.
Qed.

(** X4: a chapter header inside the range ends the parse: the articles of
    the range are those of the lines before that header, and nothing after
    it is read. *)
Theorem X4_parsear_articulos_corte (contenido : str) (inicio fin : nat)
    (pre : list str) (h : str) (post : list str) :
  slice (split_nl contenido) inicio fin = pre ++ h :: post ->
  es_capitulo (strip h) = true ->
  parsear_articulos contenido inicio fin
  = parsear_articulos contenido inicio (inicio + List.length pre).
Proof.
  intros E Hh. unfold parsear_articulos.
  rewrite (slice_prefix _ _ _ _ _ E), E.
  apply articulos_loop_corte. exact Hh.
Qed.

Lemma X4_parsear_articulos_corte_witness :
  parsear_articulos doc_dos_capitulos 2 8
  = parsear_articulos doc_dos_capitulos 2 (2 + 2).
Proof.
  apply (X4_parsear_articulos_corte doc_dos_capitulos 2 8
           [utf8 "Artículo 1. Uno."; utf8 "TRANSITORIOS"]
           (utf8 "CAPÍTULO II")
           [utf8 "Artículo 2. Dos."; utf8 "TRANSITORIOS";
            utf8 "Primero. Vigencia."]).
  - vm_compute. reflexivity.
  - vm_compute. reflexivity.
Defined.

Lemma articulos_loop_previo (pre resto : list str) :
  Forall (fun l => es_capitulo (strip l) = false
                   /\ re_match false pat_articulo (strip l) = None) pre ->
  forall arts,
    articulos_loop (pre ++ resto) arts None []
    = articulos_loop resto arts None [].
Proof.
  induction 1 as [|l ls [Hc Ha] _ IH]; intros arts; [ reflexivity | ].
  cbn [app articulos_loop]. rewrite Hc, Ha.
  destruct (nonempty (strip l)); apply IH.
Qed.

(** X5: what comes before the first article header of a range is dropped:
    leading lines that open neither an article nor a chapter do not show
    in the result. *)
Theorem X5_parsear_articulos_previo (contenido : str) (inicio fin : nat)
    (pre resto : list str) :
  slice (split_nl contenido) inicio fin = pre ++ resto ->
  Forall (fun l => es_capitulo (strip l) = false
                   /\ re_match false pat_articulo (strip l) = None) pre ->
  parsear_articulos contenido inicio fin
  = parsear_articulos contenido (inicio + List.length pre) fin.
Proof.
  intros E H. unfold parsear_articulos.
  rewrite (slice_suffix _ _ _ _ _ E), E.
  apply articulos_loop_previo. exact H.
Qed.

Lemma X5_parsear_articulos_previo_witness :
  parsear_articulos
    (documento ["Considerando"; "lo anterior"; "Artículo 1. Uno."]%string) 0 3
  = parsear_articulos
      (documento ["Considerando"; "lo anterior"; "Artículo 1. Uno."]%string)
      (0 + 2) 3.
Proof.
  apply (X5_parsear_articulos_previo _ 0 3
           [utf8 "Considerando"; utf8 "lo anterior"]
           [utf8 "Artículo 1. Uno."]).
  - vm_compute. reflexivity.
  - repeat constructor; vm_compute; reflexivity.
Defined.

Lemma articulos_loop_segmentos (seg1 : list str) (h : str) (seg2 : list str)
    (m : caps) :
  Forall (fun l => es_capitulo (strip l) = false) seg1 ->
  re_match false pat_articulo (strip h) = Some m ->
  forall arts cur txt,
    articulos_loop (seg1 ++ h :: seg2) arts cur txt
    = articulos_loop seg1 arts cur txt ++ articulos_loop (h :: seg2) [] None [].
Proof.
  intros Hseg Hm. induction Hseg as [|l ls Hl _ IH]; intros arts cur txt.
  - cbn [app]. rewrite !(articulos_loop_articulo _ _ _ _ _ _ Hm).
    cbn [articulos_loop guardar_articulo]. apply articulos_loop_app.
  - cbn [app articulos_loop]. rewrite Hl.
    destruct (nonempty (strip l)); cbn [negb]; [ | apply IH ].
    destruct (re_match false pat_articulo (strip l)); [ apply IH | ].
    destruct cur; apply IH.
Qed.

(** X6: segmentation is local.  When a range is split at an article
    header and its first part has no chapter header, the articles of the
    range are the articles of the first part followed by those of the
    second: no article takes text from beyond the next article header. *)
Theorem X6_parsear_articulos_segmentos (contenido : str) (inicio fin : nat)
    (seg1 : list str) (h : str) (seg2 : list str) (m : caps) :
  slice (split_nl contenido) inicio fin = seg1 ++ h :: seg2 ->
  Forall (fun l => es_capitulo (strip l) = false) seg1 ->
  re_match false pat_articulo (strip h) = Some m ->
  parsear_articulos contenido inicio fin
  = parsear_articulos contenido inicio (inicio + List.length seg1)
    ++ parsear_articulos contenido (inicio + List.length seg1) fin.
Proof.
  intros E Hseg Hm. unfold parsear_articulos.
  rewrite (slice_prefix _ _ _ _ _ E), (slice_suffix _ _ _ _ _ E), E.
  exact (articulos_loop_segmentos seg1 h seg2 m Hseg Hm [] None []).
Qed.

Lemma X6_parsear_articulos_segmentos_witness :
  parsear_articulos doc_obligaciones_dos 0 5
  = parsear_articulos doc_obligaciones_dos 0 (0 + 3)
    ++ parsear_articulos doc_obligaciones_dos (0 + 3) 5.
Proof.
  apply (X6_parsear_articulos_segmentos doc_obligaciones_dos 0 5
           [utf8 "Artículo 5. Las obligaciones son:"; utf8 "I. Pagar.";
            utf8 "II. Declarar."]
           (utf8 "Artículo 6. Las sanciones.")
           [utf8 "Se aplican multas."]
           [(2%nat, utf8 "Las sanciones."); (1%nat, utf8 "6")]).
  - vm_compute. reflexivity.
  - repeat constructor.
  - vm_compute. reflexivity.
Defined.

(** ** The inline text of a header *)

Lemma flat_map_head {A B : Type} (f : A -> list B) (l : list A) (x : B)
    (r : list B) :
  flat_map f l = x :: r -> exists y r', In y l /\ f y = x :: r'.
Proof.
  induction l as [|a l IH]; simpl; [ discriminate | ].
  destruct (f a) as [|b t] eqn:E.
  - intros H. destruct (IH H) as (y & r' & Hy & Hf).
    exists y, r'. split; [ right; exact Hy | exact Hf ].
  - intros H. simpl in H. injection H as <- _.
    exists a, t. split; [ left; reflexivity | exact E ].
Qed.

Lemma star_greedy_any_head (ic : bool) (s : str) :
  sin_salto s -> exists l, star_greedy ic [CAny] s = [] :: l.
Proof.
  induction 1 as [|c s Hc _ (l & IH)]; [ exists []; reflexivity | ].
  cbn [star_greedy cls_match existsb citem_match].
  replace (c =? LF) with false by (symmetry; apply N.eqb_neq; exact Hc).
  cbn [negb orb]. rewrite IH. eexists. reflexivity.
Qed.

Lemma consumed_all (s : str) : consumed s [] = s.
Proof. unfold consumed. cbn [List.length]. rewrite Nat.sub_0_r. apply firstn_all. Qed.

(** In the first candidate of a pattern that ends with the group (.* ),
    that group runs to the end of a subject without line breaks. *)
Lemma run_cola_texto (ic : bool) (pre : list re) :
  forall (s : str) (g : caps) (m : str * caps) (l : list (str * caps)),
    sin_salto s ->
    run ic (RSeqs (pre ++ [RGroup 2 (RStar [CAny])])) s g = m :: l ->
    exists p, s = p ++ group 2 (snd m).
Proof.
  induction pre as [|x pre IH]; intros s g m l Hs E.
  - cbn [app RSeqs run] in E.
    destruct (star_greedy_any_head ic s Hs) as (t & T). rewrite T in E.
    cbn [map flat_map fst snd app] in E. injection E as <- _.
    cbn [snd group Nat.eqb]. rewrite consumed_all. exists []. reflexivity.
  - cbn [app RSeqs run] in E. apply flat_map_head in E.
    destruct E as ([s1 g1] & r' & Hy & E). cbn [fst snd] in E.
    assert (D : den ic x s s1) by (apply (run_den ic x s g s1); exists g1; exact Hy).
    apply den_suffix in D. destruct D as (q & ->).
    apply Forall_app in Hs. destruct Hs as [_ Hs1].
    destruct (IH s1 g1 m r' Hs1 E) as (p & Hp).
    exists (q ++ p). rewrite <- app_assoc, <- Hp. reflexivity.
Qed.

Lemma visible_app_r (a b : str) : visible b -> visible (a ++ b).
Proof.
  intros (c & Hc & Hs). exists c. split; [ apply in_or_app; right; exact Hc | exact Hs ].
Qed.

Lemma visible_app_l (a b : str) : visible a -> visible (a ++ b).
Proof.
  intros (c & Hc & Hs). exists c. split; [ apply in_or_app; left; exact Hc | exact Hs ].
Qed.

Lemma strip_visible (l : str) : nonempty (strip l) = true -> visible (strip l).
Proof.
  intros H. apply nonempty_true in H.
  destruct (strip_last l H) as (p & c & E & Hc). rewrite E.
  apply visible_app_r. exists c. split; [ left; reflexivity | exact Hc ].
Qed.

(** The inline remainder kept by a header, if any, has a visible
    character. *)
Lemma texto_inicial_visible (ic : bool) (pre : list re) (l : str) (m : caps) :
  re_match ic (RSeqs (pre ++ sep_and_text)) (strip l) = Some m ->
  sin_salto l ->
  Forall visible (texto_inicial m).
Proof.
  intros E Hl. unfold texto_inicial.
  destruct (nonempty (group 2 m)) eqn:G; [ | constructor ].
  constructor; [ | constructor ].
  unfold re_match in E. unfold sep_and_text in E.
  change [RStar [CSpace]; ROpt (RChar dash); RStar [CSpace];
          RGroup 2 (RStar [CAny])]
    with ([RStar [CSpace]; ROpt (RChar dash); RStar [CSpace]]
          ++ [RGroup 2 (RStar [CAny])]) in E.
  rewrite app_assoc in E.
  destruct (run ic _ (strip l) []) as [|m0 r] eqn:R; [ discriminate | ].
  injection E as <-.
  destruct (run_cola_texto ic _ (strip l) [] m0 r (strip_Forall _ l Hl) R)
    as (p & Hp).
  apply nonempty_true in G.
  destruct (exists_last G) as (w & c & Ew).
  assert (Hne : strip l <> []).
  { rewrite Hp, Ew. intros K. apply app_eq_nil in K. destruct K as [_ K].
    apply app_eq_nil in K. destruct K as [_ K]. discriminate. }
  destruct (strip_last l Hne) as (q & d & Eq & Hd).
  rewrite Eq, Ew, app_assoc in Hp. apply app_inj_tail in Hp.
  destruct Hp as [_ ->]. rewrite Ew. apply visible_app_r.
  exists c. split; [ left; reflexivity | exact Hd ].
Qed.

Lemma join_visible (sep : str) (txt : list str) :
  txt <> [] -> Forall visible txt -> visible (join sep txt).
Proof.
  intros Hne H. destruct H as [|x r Hx _]; [ congruence | ].
  destruct r as [|y r']; [ exact Hx | ].
  change (join sep (x :: y :: r')) with (x ++ sep ++ join sep (y :: r')).
  apply visible_app_l. exact Hx.
Qed.

Lemma limpiar_texto_join_ok (txt : list str) :
  nonempty txt = true -> Forall visible txt ->
  visible (limpiar_texto (join [SP] txt))
  /\ normalizado (limpiar_texto (join [SP] txt)).
Proof.
  intros Hne H. split; [ | apply limpiar_texto_normal ].
  apply nonempty_true in Hne.
  destruct (join_visible [SP] txt Hne H) as (c & Hc & Hs).
  exact (limpiar_texto_visible _ c Hc Hs).
Qed.

(** ** Every unit of the output is well formed *)

Lemma guardar_fraccion_ok (fr : list Fraccion) (cur : option str)
    (txt : list str) :
  Forall fraccion_ok fr -> Forall visible txt ->
  Forall fraccion_ok (guardar_fraccion fr cur txt).
Proof.
  intros Hfr Htxt. unfold guardar_fraccion. destruct cur as [f|]; [ | exact Hfr ].
  destruct (nonempty f) eqn:Hf; cbn [andb]; [ | exact Hfr ].
  destruct (nonempty txt) eqn:Ht; [ | exact Hfr ].
  apply Forall_app. split; [ exact Hfr | ]. constructor; [ | constructor ].
  destruct (limpiar_texto_join_ok txt Ht Htxt) as [V N].
  split; [ apply nonempty_true; exact Hf | split; assumption ].
Qed.

Lemma fracciones_loop_ok (lines : list str) :
  Forall sin_salto lines ->
  forall fr cur txt,
    Forall fraccion_ok fr -> Forall visible txt ->
    Forall fraccion_ok (fracciones_loop lines fr cur txt).
Proof.
  induction 1 as [|l ls Hl _ IH]; intros fr cur txt Hfr Htxt.
  - apply guardar_fraccion_ok; assumption.
  - cbn [fracciones_loop].
    destruct (nonempty (strip l)) eqn:Hne; cbn [negb];
      [ | apply IH; assumption ].
    destruct (re_match false pat_fraccion (strip l)) as [m|] eqn:E.
    + apply IH; [ apply guardar_fraccion_ok; assumption | ].
      unfold pat_fraccion in E. exact (texto_inicial_visible _ _ _ _ E Hl).
    + destruct (truthy cur); apply IH; try assumption.
      apply Forall_app. split; [ exact Htxt | ].
      constructor; [ apply strip_visible; exact Hne | constructor ].
Qed.

Lemma parsear_fracciones_todas_ok (texto : str) :
  Forall fraccion_ok (parsear_fracciones texto).
Proof.
  unfold parsear_fracciones.
  apply fracciones_loop_ok; [ apply split_nl_sin_salto | | ]; constructor.
Qed.

Lemma guardar_transitorio_ok (tr : list Transitorio) (cur : option str)
    (txt : list str) :
  Forall transitorio_ok tr -> Forall visible txt ->
  Forall transitorio_ok (guardar_transitorio tr cur txt).
Proof.
  intros Htr Htxt. unfold guardar_transitorio. destruct cur as [f|]; [ | exact Htr ].
  destruct (nonempty f) eqn:Hf; cbn [andb]; [ | exact Htr ].
  destruct (nonempty txt) eqn:Ht; [ | exact Htr ].
  apply Forall_app. split; [ exact Htr | ]. constructor; [ | constructor ].
  destruct (limpiar_texto_join_ok txt Ht Htxt) as [V N].
  split; [ apply nonempty_true; exact Hf | split; assumption ].
Qed.

Lemma transitorios_loop_ok (lines : list str) :
  Forall sin_salto lines ->
  forall tr cur txt,
    Forall transitorio_ok tr -> Forall visible txt ->
    Forall transitorio_ok (transitorios_loop lines tr cur txt).
Proof.
  induction 1 as [|l ls Hl _ IH]; intros tr cur txt Htr Htxt.
  - apply guardar_transitorio_ok; assumption.
  - cbn [transitorios_loop].
    destruct (nonempty (strip l)) eqn:Hne; cbn [negb];
      [ | apply IH; assumption ].
    destruct (re_match true pat_transitorio_item (strip l)) as [m|] eqn:E.
    + apply IH; [ apply guardar_transitorio_ok; assumption | ].
      unfold pat_transitorio_item in E.
      exact (texto_inicial_visible _ _ _ _ E Hl).
    + destruct (truthy cur); apply IH; try assumption.
      apply Forall_app. split; [ exact Htxt | ].
      constructor; [ apply strip_visible; exact Hne | constructor ].
Qed.

Lemma parsear_transitorios_todos_ok (contenido : str) :
  Forall transitorio_ok (parsear_transitorios contenido).
Proof.
  unfold parsear_transitorios.
  destruct (inicio_transitorios (split_nl contenido)) as [i|]; [ | constructor ].
  apply transitorios_loop_ok; [ | constructor | constructor ].
  exact (subseq_sorted_Forall _ _ _ (subseq_skipn _ _)
           (split_nl_sin_salto contenido)).
Qed.

Lemma py_int_digits_nonneg (s : str) :
  forallb is_ascii_digit s = true ->
  forall acc : Z,
    (0 <= acc)%Z ->
    (0 <= fold_left (fun a c => 10 * a + (Z.of_N c - 48))%Z s acc)%Z.
Proof.
  induction s as [|c s IH]; intros H acc Hacc; [ exact Hacc | ].
  cbn [forallb] in H. apply andb_true_iff in H. destruct H as [Hc Hs].
  cbn [fold_left]. apply IH; [ exact Hs | ].
  unfold is_ascii_digit in Hc. apply andb_true_iff in Hc.
  destruct Hc as [Hc _]. apply N.leb_le in Hc. lia.
Qed.

Lemma numero_articulo_nonneg (token : str) : (0 <= numero_articulo token)%Z.
Proof.
  unfold numero_articulo, isdigit, py_int.
  destruct (nonempty _); cbn [andb]; [ | lia ].
  destruct (forallb is_ascii_digit _) eqn:D; [ | lia ].
  destruct (_ <? _)%nat; [ lia | ].
  apply py_int_digits_nonneg; [ exact D | lia ].
Qed.

Lemma construir_articulo_ok (n : Z) (txt : list str) :
  (0 <= n)%Z -> nonempty txt = true -> Forall visible txt ->
  articulo_ok (construir_articulo n txt).
Proof.
  intros Hn Hne Htxt. unfold articulo_ok, construir_articulo.
  cbn [articulo articulo_texto fracciones].
  split; [ exact Hn | ].
  split; [ apply limpiar_texto_normal | ].
  split; [ apply parsear_fracciones_todas_ok | ].
  destruct (parsear_fracciones (join [LF] txt)) as [|f fs];
    [ left | right; discriminate ].
  cbn [nonempty]. apply limpiar_texto_join_ok; assumption.
Qed.

Lemma guardar_articulo_ok (arts : list Articulo) (cur : option Z)
    (txt : list str) :
  Forall articulo_ok arts -> Forall visible txt ->
  (forall n, cur = Some n -> (0 <= n)%Z) ->
  Forall articulo_ok (guardar_articulo arts cur txt).
Proof.
  intros Ha Htxt Hn. unfold guardar_articulo. destruct cur as [n|]; [ | exact Ha ].
  destruct (nonempty txt) eqn:Ht; [ | exact Ha ].
  apply Forall_app. split; [ exact Ha | ]. constructor; [ | constructor ].
  apply construir_articulo_ok; [ apply Hn; reflexivity | exact Ht | exact Htxt ].
Qed.

Lemma articulos_loop_ok (lines : list str) :
  Forall sin_salto lines ->
  forall arts cur txt,
    Forall articulo_ok arts -> Forall visible txt ->
    (forall n, cur = Some n -> (0 <= n)%Z) ->
    Forall articulo_ok (articulos_loop lines arts cur txt).
Proof.
  induction 1 as [|l ls Hl _ IH]; intros arts cur txt Ha Htxt Hn.
  - apply guardar_articulo_ok; assumption.
  - cbn [articulos_loop].
    destruct (nonempty (strip l)) eqn:Hne; cbn [negb];
      [ | apply IH; assumption ].
    destruct (es_capitulo (strip l));
      [ apply guardar_articulo_ok; assumption | ].
    destruct (re_match false pat_articulo (strip l)) as [m|] eqn:E.
    + apply IH; [ apply guardar_articulo_ok; assumption | | ].
      * unfold pat_articulo in E. exact (texto_inicial_visible _ _ _ _ E Hl).
      * intros n En. injection En as <-. apply numero_articulo_nonneg.
    + destruct cur as [n|]; apply IH; try assumption.
      apply Forall_app. split; [ exact Htxt | ].
      constructor; [ apply strip_visible; exact Hne | constructor ].
Qed.

Lemma parsear_articulos_todos_ok (contenido : str) (inicio fin : nat) :
  Forall articulo_ok (parsear_articulos contenido inicio fin).
Proof.
  unfold parsear_articulos.
  apply articulos_loop_ok; [ | constructor | constructor | discriminate ].
  exact (subseq_sorted_Forall _ _ _ (subseq_slice _ _ _)
           (split_nl_sin_salto contenido)).
Qed.

(** X7: every sub-item returned by [parsear_fracciones] has a non-empty
    marker and a text that is normalised and has a visible character: a
    sub-item header that gathers no text is dropped. *)
Theorem X7_fracciones_bien_formadas (texto : str) :
  Forall fraccion_ok (parsear_fracciones texto).
Proof. apply parsear_fracciones_todas_ok. Qed.

(** X8: every article returned by [parsear_articulos] has a number that is
    not negative, a normalised body, well-formed sub-items, and a body
    with a visible character or at least one sub-item. *)
Theorem X8_articulos_bien_formados (contenido : str) (inicio fin : nat) :
  Forall articulo_ok (parsear_articulos contenido inicio fin).
Proof. apply parsear_articulos_todos_ok. Qed.

(** X9: every transitory article returned by [parsear_transitorios] has a
    non-empty key and a text that is normalised and has a visible
    character. *)
Theorem X9_transitorios_bien_formados (contenido : str) :
  Forall transitorio_ok (parsear_transitorios contenido).
Proof. apply parsear_transitorios_todos_ok. Qed.

(** ** Chapters *)

Lemma capitulo_positions_from_titulos (lines : list str) (i : nat) :
  map snd (capitulo_positions_from lines i)
  = filter es_capitulo (map strip lines).
Proof.
  revert i. induction lines as [|l ls IH]; intros i; simpl; [ reflexivity | ].
  destruct (es_capitulo (strip l)); simpl; rewrite IH; reflexivity.
Qed.

Lemma extensiones_titulos (lines : list str) (positions : list (nat * str)) :
  map (fun e => snd (fst e)) (extensiones lines positions) = map snd positions.
Proof.
  induction positions as [|[pos titulo] resto IH]; [ reflexivity | ].
  rewrite extensiones_cons. cbn [map fst snd]. rewrite IH. reflexivity.
Qed.

Lemma capitulo_de_titulos (contenido : str) (es : list (nat * str * nat)) :
  subseq (map capitulo (flat_map (capitulo_de contenido) es))
         (map (fun e => snd (fst e)) es).
Proof.
  induction es as [|[[pos titulo] fin] es IH]; [ constructor | ].
  cbn [flat_map map fst snd]. rewrite capitulo_de_eq.
  destruct (nonempty (parsear_articulos contenido (pos + 1) fin));
    cbn [app map capitulo]; constructor; exact IH.
Qed.

Lemma capitulo_de_no_vacio (contenido : str) (es : list (nat * str * nat)) :
  Forall (fun c => articulos c <> [] /\ Forall articulo_ok (articulos c))
         (flat_map (capitulo_de contenido) es).
Proof.
  induction es as [|[[pos titulo] fin] es IH]; [ constructor | ].
  cbn [flat_map]. apply Forall_app. split; [ | exact IH ].
  rewrite capitulo_de_eq.
  destruct (nonempty (parsear_articulos contenido (pos + 1) fin)) eqn:E;
    constructor; [ | constructor ].
  cbn [articulos]. split; [ apply nonempty_true; exact E | ].
  apply parsear_articulos_todos_ok.
Qed.

Lemma parsear_capitulos_extensiones (contenido : str) :
  nonempty (capitulo_positions (split_nl contenido)) = true ->
  parsear_capitulos contenido
  = flat_map (capitulo_de contenido)
      (extensiones (split_nl contenido)
         (capitulo_positions (split_nl contenido))).
Proof.
  intros H. unfold parsear_capitulos. rewrite H. cbn [negb].
  exact (capitulos_loop_spec contenido (split_nl contenido)
           (capitulo_positions (split_nl contenido)) [] []).
Qed.

(** X10: no chapter of the result is empty: every chapter returned by
    [parsear_capitulos] holds at least one article, and all its articles
    are well formed. *)
Theorem X10_capitulos_con_articulos (contenido : str) :
  Forall (fun c => articulos c <> [] /\ Forall articulo_ok (articulos c))
         (parsear_capitulos contenido).
Proof.
  destruct (nonempty (capitulo_positions (split_nl contenido))) eqn:H.
  - rewrite (parsear_capitulos_extensiones _ H). apply capitulo_de_no_vacio.
  - unfold parsear_capitulos. rewrite H. cbn [negb].
    destruct (nonempty (parsear_articulos contenido 0 _)) eqn:E;
      constructor; [ | constructor ].
    cbn [articulos]. split; [ apply nonempty_true; exact E | ].
    apply parsear_articulos_todos_ok.
Qed.

(** X11: the labels of the chapters are, in their order, stripped lines of
    the document that are chapter headers (some headers may be missing:
    chapters without articles); when the document has no chapter header
    the only possible label is "CAPÍTULO ÚNICO". *)
Theorem X11_etiquetas_de_capitulos (contenido : str) :
  subseq (map capitulo (parsear_capitulos contenido))
         (match filter es_capitulo (map strip (split_nl contenido)) with
          | [] => [capitulo_unico]
          | titulos => titulos
          end).
Proof.
  rewrite <- (capitulo_positions_from_titulos (split_nl contenido) 0).
  fold (capitulo_positions (split_nl contenido)).
  destruct (nonempty (capitulo_positions (split_nl contenido))) eqn:H.
  - rewrite (parsear_capitulos_extensiones _ H).
    eapply subseq_trans; [ apply capitulo_de_titulos | ].
    rewrite extensiones_titulos.
    destruct (capitulo_positions (split_nl contenido)); [ discriminate | ].
    apply subseq_refl.
  - unfold parsear_capitulos. rewrite H. cbn [negb].
    apply nonempty_false in H. rewrite H. cbn [map].
    destruct (nonempty (parsear_articulos contenido 0 _));
      cbn [map capitulo]; [ apply subseq_refl | apply subseq_nil_l ].
Qed.

(** ** The body of an article with sub-items *)

Lemma re_test_false_match (ic : bool) (r : re) (s : str) :
  re_test ic r s = false -> re_match ic r s = None.
Proof. unfold re_test. destruct (re_match ic r s); [ discriminate | reflexivity ]. Qed.

Lemma fracciones_loop_sin_encabezado (lines : list str) :
  Forall (fun l => re_test false pat_fraccion (strip l) = false) lines ->
  forall fr txt, fracciones_loop lines fr None txt = fr.
Proof.
  induction 1 as [|l ls Hl _ IH]; intros fr txt; [ reflexivity | ].
  cbn [fracciones_loop]. rewrite (re_test_false_match _ _ _ Hl).
  destruct (nonempty (strip l)); cbn [negb truthy]; apply IH.
Qed.

Lemma first_fraction_line_spec (txt : list str) :
  forall k,
    match first_fraction_line txt k with
    | Some j =>
        (k <= j)%nat
        /\ Forall (fun l => re_test false pat_fraccion (strip l) = false)
                  (firstn (j - k) txt)
        /\ exists l, nth_error txt (j - k) = Some l
                     /\ re_test false pat_fraccion (strip l) = true
    | None =>
        Forall (fun l => re_test false pat_fraccion (strip l) = false) txt
    end.
Proof.
  induction txt as [|x txt IH]; intros k; cbn [first_fraction_line].
  - constructor.
  - destruct (re_test false pat_fraccion (strip x)) eqn:E.
    + rewrite Nat.sub_diag. split; [ lia | ]. split; [ constructor | ].
      exists x. split; [ reflexivity | exact E ].
    + specialize (IH (S k)).
      destruct (first_fraction_line txt (S k)) as [j|].
      * destruct IH as (Hk & Hf & l & Hn & Hl).
        replace (j - k)%nat with (S (j - S k)) by lia.
        split; [ lia | ]. split; [ constructor; assumption | ].
        exists l. split; assumption.
      * constructor; assumption.
Qed.

(** X12: when an article has sub-items, its body is the text gathered
    before the first line that is a sub-item header, and such a line
    exists: the fall-back that would keep the whole text as body is never
    taken. *)
Theorem X12_cuerpo_antes_de_fracciones (n : Z) (txt : list str) :
  Forall sin_salto txt ->
  fracciones (construir_articulo n txt) <> [] ->
  exists i l,
    first_fraction_line txt 0 = Some i
    /\ nth_error txt i = Some l
    /\ re_test false pat_fraccion (strip l) = true
    /\ Forall (fun x => re_test false pat_fraccion (strip x) = false)
              (firstn i txt)
    /\ articulo_texto (construir_articulo n txt)
       = limpiar_texto (join [SP] (firstn i txt)).
Proof.
  intros Hs Hf. unfold construir_articulo in *.
  cbn [fracciones articulo_texto] in *.
  pose proof (first_fraction_line_spec txt 0) as S.
  destruct (first_fraction_line txt 0) as [i|].
  - destruct S as (_ & Hpre & l & Hn & Hl). rewrite Nat.sub_0_r in *.
    exists i, l. repeat split; try assumption.
    apply nonempty_true in Hf. rewrite Hf. reflexivity.
  - exfalso. apply Hf. unfold parsear_fracciones.
    rewrite (fracciones_loop_split_join txt Hs).
    apply fracciones_loop_sin_encabezado. exact S.
Qed.

Lemma sin_salto_dec (txt : list str) :
  forallb (forallb (fun c => negb (c =? LF))) txt = true ->
  Forall sin_salto txt.
Proof.
  intros H. apply Forall_forall. intros l Hl.
  rewrite forallb_forall in H. specialize (H l Hl).
  apply Forall_forall. intros c Hc.
  rewrite forallb_forall in H. specialize (H c Hc).
  apply negb_true_iff in H. apply N.eqb_neq. exact H.
Qed.

Lemma X12_cuerpo_antes_de_fracciones_witness :
  exists i l,
    first_fraction_line
      [utf8 "Las obligaciones son:"; utf8 "I. Pagar."; utf8 "II. Declarar."] 0
    = Some i
    /\ nth_error
         [utf8 "Las obligaciones son:"; utf8 "I. Pagar."; utf8 "II. Declarar."]
         i = Some l
    /\ articulo_texto
         (construir_articulo 5
            [utf8 "Las obligaciones son:"; utf8 "I. Pagar.";
             utf8 "II. Declarar."])
       = limpiar_texto
           (join [SP]
              (firstn i [utf8 "Las obligaciones son:"; utf8 "I. Pagar.";
                         utf8 "II. Declarar."])).
Proof.
  destruct (X12_cuerpo_antes_de_fracciones 5
              [utf8 "Las obligaciones son:"; utf8 "I. Pagar.";
               utf8 "II. Declarar."])
    as (i & l & H1 & H2 & _ & _ & H5).
  - apply sin_salto_dec. vm_compute. reflexivity.
  - vm_compute. discriminate.
  - exists i, l. repeat split; assumption.
Defined.

(** ** The year of publication *)

Ltac bool_hyps :=
  repeat match goal with
         | K : (_ && _) = true |- _ =>
             apply andb_true_iff in K; destruct K
         | K : negb _ = true |- _ => apply negb_true_iff in K
         | K : (_ <=? _) = true |- _ => apply N.leb_le in K
         | K : (_ =? _) = true |- _ => apply N.eqb_eq in K
         | K : (_ =? _) = false |- _ => apply N.eqb_neq in K
         end.

Lemma anio_en_rango (w : char -> bool) (prev : option char) (s y : str) :
  anio_en w prev s = Some y ->
  (1900 <= valor_decimal y <= 2029)%Z.
Proof.
  unfold anio_en. destruct s as [|a [|b [|c [|d rest]]]]; try discriminate.
  destruct (es_limite w prev (Some a)); cbn [andb]; [ | discriminate ].
  destruct (es_limite w (Some d) (hd_error rest));
    rewrite ?andb_true_r, ?andb_false_r; [ | discriminate ].
  destruct (((a =? 49) && (b =? 57) && is_ascii_digit c && is_ascii_digit d)
            || ((a =? 50) && (b =? 48) && (48 <=? c) && (c <=? 50)
                && is_ascii_digit d)) eqn:E; [ | discriminate ].
  intros H. injection H as <-.
  unfold valor_decimal. cbn [fold_left]. unfold is_ascii_digit in E.
  apply orb_true_iff in E. destruct E as [E|E].
  - bool_hyps. subst a b. lia.
  - bool_hyps. subst a b. lia.
Qed.

Lemma buscar_anios_rango (w : char -> bool) (s : str) :
  forall prev saltar,
    Forall (fun y => (1900 <= valor_decimal y <= 2029)%Z)
           (buscar_anios w prev s saltar).
Proof.
  induction s as [|c s IH]; intros prev saltar; cbn [buscar_anios].
  - constructor.
  - destruct saltar as [|k]; [ | apply IH ].
    destruct (anio_en w prev (c :: s)) as [y|] eqn:E; [ | apply IH ].
    constructor; [ exact (anio_en_rango w prev _ y E) | apply IH ].
Qed.

Lemma maximo_spec (ys : list Z) :
  forall y : Z,
    In (maximo y ys) (y :: ys)
    /\ forall z, In z (y :: ys) -> (z <= maximo y ys)%Z.
Proof.
  unfold maximo. induction ys as [|x ys IH]; intros y; cbn [fold_left].
  - split; [ left; reflexivity | ]. intros z [<-|[]]. lia.
  - destruct (IH (Z.max y x)) as [I1 I2]. split.
    + destruct I1 as [E|I1]; [ | right; right; exact I1 ].
      rewrite <- E. destruct (Z.max_spec y x) as [[_ ->]|[_ ->]];
        [ right; left; reflexivity | left; reflexivity ].
    + intros z [E|[E|Hz]].
      * specialize (I2 (Z.max y x) (or_introl eq_refl)). lia.
      * specialize (I2 (Z.max y x) (or_introl eq_refl)). lia.
      * apply I2. right. exact Hz.
Qed.

(** X13: the year deduced from a text is the greatest four-digit token
    19dd or 20[0-2]d of the text, standing between word boundaries, whose
    value is not after the current year.  It lies between 1900 and 2029,
    so [validate_year] accepts it; there is none exactly when every such
    token is after the current year (or there is no token). *)
Theorem X13_anio_deducido (w : char -> bool) (current_year : Z)
    (contenido : str) :
  match deducir_anio w current_year contenido with
  | Some y =>
      (1900 <= y <= 2029)%Z /\ (y <= current_year)%Z
      /\ In y (map valor_decimal (buscar_anios w None contenido 0))
      /\ (forall y',
             In y' (map valor_decimal (buscar_anios w None contenido 0)) ->
             (y' <= current_year)%Z -> (y' <= y)%Z)
      /\ validate_year (Some y) = Some (Some y)
  | None =>
      forall y',
        In y' (map valor_decimal (buscar_anios w None contenido 0)) ->
        (current_year < y')%Z
  end.
Proof.
  unfold deducir_anio.
  pose proof (buscar_anios_rango w contenido None 0) as R.
  set (years := buscar_anios w None contenido 0) in *.
  destruct (nonempty years) eqn:Hne.
  - destruct (filter (fun y => (y <=? current_year)%Z)
                (map valor_decimal years)) as [|y ys] eqn:F.
    + intros y' Hy'. destruct (Z.leb_spec y' current_year) as [Hle|Hlt];
        [ | exact Hlt ].
      assert (K : In y' (filter (fun y => (y <=? current_year)%Z)
                           (map valor_decimal years))).
      { apply filter_In. split; [ exact Hy' | apply Z.leb_le; exact Hle ]. }
      rewrite F in K. destruct K.
    + destruct (maximo_spec ys y) as [I1 I2].
      assert (Hin : In (maximo y ys)
                       (filter (fun y => (y <=? current_year)%Z)
                          (map valor_decimal years)))
        by (rewrite F; exact I1).
      apply filter_In in Hin. destruct Hin as [Hin Hle].
      apply Z.leb_le in Hle.
      assert (Hr : (1900 <= maximo y ys <= 2029)%Z).
      { apply in_map_iff in Hin. destruct Hin as (t & <- & Ht).
        rewrite Forall_forall in R. exact (R t Ht). }
      split; [ exact Hr | ]. split; [ exact Hle | ].
      split; [ exact Hin | ]. split.
      * intros y' Hy' Hle'. apply I2. rewrite <- F. apply filter_In.
        split; [ exact Hy' | apply Z.leb_le; exact Hle' ].
      * unfold validate_year.
        replace (maximo y ys <? 1900)%Z with false
          by (symmetry; apply Z.ltb_ge; lia).
        replace (maximo y ys >? 2030)%Z with false
          by (symmetry; rewrite Z.gtb_ltb; apply Z.ltb_ge; lia).
        reflexivity.
  - apply nonempty_false in Hne. rewrite Hne. intros y' [].
Qed.

Example anio_de_un_decreto :
  deducir_anio (fun c => is_ascii_digit c || ((97 <=? c) && (c <=? 122)))
    2025
    (utf8 "Publicado el 3 de enero de 1998, reformado en 2021 y en 2027; folio a2020")
  = Some 2021%Z.
Proof. vm_compute. reflexivity. Qed.

(** ** The title and the preamble as stored *)

Lemma extraer_titulo_normal (T : CaseTable) (contenido : str) :
  normalizado (extraer_titulo T contenido).
Proof.
  unfold extraer_titulo. rewrite titulo_loop1_find, titulo_loop2_find.
  destruct (find _ (split_nl contenido)); cbn [option_map];
    [ apply limpiar_texto_normal | ].
  destruct (find _ (firstn 10 (split_nl contenido))); cbn [option_map];
    [ apply limpiar_texto_normal | ].
  replace titulo_no_identificado
    with (limpiar_texto titulo_no_identificado)
    by (vm_compute; reflexivity).
  apply limpiar_texto_normal.
Qed.

(** X14: the title is always normalised: only plain blanks, never doubled
    nor at either end, and no en or em dash; stripping it changes nothing. *)
Theorem X14_titulo_normalizado (T : CaseTable) (contenido : str) :
  normalizado (extraer_titulo T contenido)
  /\ strip (extraer_titulo T contenido) = extraer_titulo T contenido.
Proof.
  pose proof (extraer_titulo_normal T contenido) as N.
  split; [ exact N | apply N ].
Qed.

Lemma join_cons_visible (sep x : str) (r : list str) (c : char) (x' : str) :
  x = c :: x' -> exists t, join sep (x :: r) = c :: t.
Proof.
  intros ->. destruct r as [|y r'].
  - exists x'. reflexivity.
  - eexists. reflexivity.
Qed.

Lemma join_last_visible (sep : str) (l : list str) :
  l <> [] ->
  Forall (fun x => exists p d, x = p ++ [d] /\ isspace d = false) l ->
  exists p d, join sep l = p ++ [d] /\ isspace d = false.
Proof.
  intros Hne H. revert Hne.
  induction H as [|x r (p & d & -> & Hd) Hr IH]; intros Hne;
    [ exfalso; apply Hne; reflexivity | ].
  destruct r as [|y r'].
  - exists p, d. split; [ reflexivity | exact Hd ].
  - destruct IH as (q & e & E & He); [ discriminate | ].
    change (join sep ((p ++ [d]) :: y :: r'))
      with ((p ++ [d]) ++ sep ++ join sep (y :: r')).
    rewrite E. exists ((p ++ [d]) ++ sep ++ q), e.
    rewrite <- !app_assoc. split; [ reflexivity | exact He ].
Qed.

Lemma decreto_loop_lineas (lineas : list str) :
  forall acc,
    Forall (fun x => nonempty x = true /\ exists l, x = strip l) acc ->
    Forall (fun x => nonempty x = true /\ exists l, x = strip l)
           (decreto_loop lineas acc).
Proof.
  induction lineas as [|l ls IH]; intros acc Hacc; cbn [decreto_loop];
    [ exact Hacc | ].
  destruct (nonempty (strip l)) eqn:Hne; cbn [negb]; [ | apply IH; exact Hacc ].
  destruct (re_test true pat_fin_decreto (strip l)); [ exact Hacc | ].
  assert (H' : Forall (fun x => nonempty x = true /\ exists l0, x = strip l0)
                      (acc ++ [strip l])).
  { apply Forall_app. split; [ exact Hacc | ].
    constructor; [ | constructor ]. split; [ exact Hne | exists l; reflexivity ]. }
  destruct (_ <? _)%nat; [ exact H' | apply IH; exact H' ].
Qed.

Lemma extraer_decreto_visible (contenido d : str) :
  extraer_decreto contenido = Some d ->
  visible d /\ strip d = d.
Proof.
  unfold extraer_decreto. cbv zeta.
  pose proof (decreto_loop_lineas (split_nl contenido) [] (Forall_nil _)) as F.
  destruct (decreto_loop (split_nl contenido) []) as [|x r] eqn:E;
    [ discriminate | ].
  assert (F' : Forall (fun y => nonempty y = true /\ exists l, y = strip l)
                      (x :: r))
    by first [ exact F | rewrite <- E; exact F ].
  clear F. rename F' into F.
  cbn [nonempty]. intros H.
  assert (Ed : join [SP] (x :: r) = d)
    by (injection H; intros K; exact K).
  clear H. rewrite <- Ed. clear Ed d.
  assert (Hx : exists c x', x = c :: x' /\ isspace c = false).
  { pose proof (proj1 (Forall_forall _ _) F x (in_eq x r))
      as [Hne (l & Ex)].
    destruct x as [|c x']; [ discriminate | ].
    exists c, x'. split; [ reflexivity | ].
    symmetry in Ex. exact (strip_head l c x' Ex). }
  destruct Hx as (c & x' & Ex & Hc).
  destruct (join_cons_visible [SP] x r c x' Ex) as (t & Ej).
  assert (Hl : exists p e, join [SP] (x :: r) = p ++ [e] /\ isspace e = false).
  { apply join_last_visible; [ discriminate | ].
    apply Forall_forall. intros y Hy. rewrite Forall_forall in F.
    destruct (F y Hy) as [Hne (l & ->)]. apply nonempty_true in Hne.
    exact (strip_last l Hne). }
  destruct Hl as (p & e & El & He).
  split.
  - exists c. rewrite Ej. split; [ left; reflexivity | exact Hc ].
  - apply strip_fixed.
    + intros c0 s' E0. rewrite Ej in E0. injection E0 as <- _. exact Hc.
    + intros p0 c0 E0. rewrite El in E0. apply app_inj_tail in E0.
      destruct E0 as [_ <-]. exact He.
Qed.

(** X15: a preamble, when there is one, is never blank: it begins and ends
    with a visible character, so stripping it changes nothing. *)
Theorem X15_decreto_visible (contenido d : str) :
  extraer_decreto contenido = Some d ->
  visible d /\ strip d = d.
Proof. apply extraer_decreto_visible. Qed.

Lemma X15_decreto_visible_witness :
  visible (utf8 "DECRETO 12 El Congreso decreta:")
  /\ strip (utf8 "DECRETO 12 El Congreso decreta:")
     = utf8 "DECRETO 12 El Congreso decreta:".
Proof.
  apply (X15_decreto_visible
           (documento [" DECRETO 12 "; ""; "El Congreso decreta:";
                       "LEY DE PRUEBA"]%string)).
  vm_compute. reflexivity.
Defined.

(** ** Sub-items and transitory items are segmented locally *)

Lemma guardar_fraccion_app (fr : list Fraccion) (cur : option str)
    (txt : list str) :
  guardar_fraccion fr cur txt = fr ++ guardar_fraccion [] cur txt.
Proof.
  unfold guardar_fraccion. destruct cur as [f|]; [ | symmetry; apply app_nil_r ].
  destruct (nonempty f && nonempty txt); [ reflexivity | symmetry; apply app_nil_r ].
Qed.

Lemma fracciones_loop_app (lines : list str) :
  forall fr cur txt,
    fracciones_loop lines fr cur txt = fr ++ fracciones_loop lines [] cur txt.
Proof.
  induction lines as [|l ls IH]; intros fr cur txt.
  - apply guardar_fraccion_app.
  - cbn [fracciones_loop].
    destruct (nonempty (strip l)); cbn [negb]; [ | apply IH ].
    destruct (re_match false pat_fraccion (strip l)) as [m|].
    + rewrite IH, (IH (guardar_fraccion [] cur txt)), app_assoc.
      f_equal. apply guardar_fraccion_app.
    + destruct (truthy cur); apply IH.
Qed.

Lemma fracciones_loop_segmentos (seg1 : list str) (h : str) (seg2 : list str)
    (m : caps) :
  re_match false pat_fraccion (strip h) = Some m ->
  forall fr cur txt,
    fracciones_loop (seg1 ++ h :: seg2) fr cur txt
    = fracciones_loop seg1 fr cur txt ++ fracciones_loop (h :: seg2) [] None [].
Proof.
  intros Hm.
  assert (Hne : nonempty (strip h) = true).
  { destruct (strip h); [ vm_compute in Hm; discriminate | reflexivity ]. }
  induction seg1 as [|l ls IH]; intros fr cur txt.
  - cbn [app fracciones_loop]. rewrite Hne, Hm. cbn [negb guardar_fraccion].
    apply fracciones_loop_app.
  - cbn [app fracciones_loop].
    destruct (nonempty (strip l)); cbn [negb]; [ | apply IH ].
    destruct (re_match false pat_fraccion (strip l)); [ apply IH | ].
    destruct (truthy cur); apply IH.
Qed.

(** X16: sub-items are segmented locally: splitting the text of an article
    at a line that is a sub-item header gives the sub-items of the first
    part followed by those of the second. *)
Theorem X16_fracciones_segmentos (seg1 : list str) (h : str)
    (seg2 : list str) (m : caps) :
  Forall sin_salto (seg1 ++ h :: seg2) ->
  re_match false pat_fraccion (strip h) = Some m ->
  parsear_fracciones (join [LF] (seg1 ++ h :: seg2))
  = parsear_fracciones (join [LF] seg1)
    ++ parsear_fracciones (join [LF] (h :: seg2)).
Proof.
  intros Hs Hm. unfold parsear_fracciones.
  pose proof Hs as Hs'. apply Forall_app in Hs'. destruct Hs' as [H1 H2].
  rewrite !fracciones_loop_split_join by assumption.
  apply fracciones_loop_segmentos with (m := m). exact Hm.
Qed.

Lemma X16_fracciones_segmentos_witness :
  parsear_fracciones
    (join [LF] ([utf8 "I. Pagar."; utf8 "a tiempo"]
                ++ utf8 "II. Declarar." :: [utf8 "cada mes"]))
  = parsear_fracciones (join [LF] [utf8 "I. Pagar."; utf8 "a tiempo"])
    ++ parsear_fracciones (join [LF] (utf8 "II. Declarar." :: [utf8 "cada mes"])).
Proof.
  apply (X16_fracciones_segmentos
           [utf8 "I. Pagar."; utf8 "a tiempo"] (utf8 "II. Declarar.")
           [utf8 "cada mes"]
           [(2%nat, utf8 "Declarar."); (1%nat, utf8 "II")]).
  - apply sin_salto_dec. vm_compute. reflexivity.
  - vm_compute. reflexivity.
Defined.

Lemma guardar_transitorio_app (tr : list Transitorio) (cur : option str)
    (txt : list str) :
  guardar_transitorio tr cur txt = tr ++ guardar_transitorio [] cur txt.
Proof.
  unfold guardar_transitorio. destruct cur as [f|]; [ | symmetry; apply app_nil_r ].
  destruct (nonempty f && nonempty txt); [ reflexivity | symmetry; apply app_nil_r ].
Qed.

Lemma transitorios_loop_app (lines : list str) :
  forall tr cur txt,
    transitorios_loop lines tr cur txt
    = tr ++ transitorios_loop lines [] cur txt.
Proof.
  induction lines as [|l ls IH]; intros tr cur txt.
  - apply guardar_transitorio_app.
  - cbn [transitorios_loop].
    destruct (nonempty (strip l)); cbn [negb]; [ | apply IH ].
    destruct (re_match true pat_transitorio_item (strip l)) as [m|].
    + rewrite IH, (IH (guardar_transitorio [] cur txt)), app_assoc.
      f_equal. apply guardar_transitorio_app.
    + destruct (truthy cur); apply IH.
Qed.

Lemma transitorios_loop_segmentos (seg1 : list str) (h : str)
    (seg2 : list str) (m : caps) :
  re_match true pat_transitorio_item (strip h) = Some m ->
  forall tr cur txt,
    transitorios_loop (seg1 ++ h :: seg2) tr cur txt
    = transitorios_loop seg1 tr cur txt
      ++ transitorios_loop (h :: seg2) [] None [].
Proof.
  intros Hm.
  assert (Hne : nonempty (strip h) = true).
  { destruct (strip h); [ vm_compute in Hm; discriminate | reflexivity ]. }
  induction seg1 as [|l ls IH]; intros tr cur txt.
  - cbn [app transitorios_loop]. rewrite Hne, Hm.
    cbn [negb guardar_transitorio]. apply transitorios_loop_app.
  - cbn [app transitorios_loop].
    destruct (nonempty (strip l)); cbn [negb]; [ | apply IH ].
    destruct (re_match true pat_transitorio_item (strip l)); [ apply IH | ].
    destruct (truthy cur); apply IH.
Qed.

(** X17: the transitory block is read from the line after the first
    transitory header to the end of the document, whatever these lines
    are (chapter headers included), and it is segmented locally: split at
    a line that opens a transitory item, it gives the items of the first
    part followed by those of the second. *)
Theorem X17_transitorios_segmentos (contenido : str)
    (pre : list str) (hdr : str) (seg1 : list str) (h : str)
    (seg2 : list str) (m : caps) :
  split_nl contenido = pre ++ hdr :: seg1 ++ h :: seg2 ->
  Forall (fun l => es_transitorios (strip l) = false) pre ->
  es_transitorios (strip hdr) = true ->
  re_match true pat_transitorio_item (strip h) = Some m ->
  parsear_transitorios contenido
  = transitorios_loop seg1 [] None []
    ++ transitorios_loop (h :: seg2) [] None [].
Proof.
  intros E Hpre Hhdr Hm. unfold parsear_transitorios, inicio_transitorios.
  rewrite E, (buscar_desde_first _ _ _ 0 Hpre Hhdr). cbn [Nat.add].
  rewrite skipn_after_cons.
  apply transitorios_loop_segmentos with (m := m). exact Hm.
Qed.

Lemma X17_transitorios_segmentos_witness :
  parsear_transitorios doc_transitorios
  = transitorios_loop [utf8 "Primero. Vigencia."; utf8 "CAPÍTULO I"] [] None []
    ++ transitorios_loop [utf8 "Segundo. Derogación."] [] None [].
Proof.
  apply (X17_transitorios_segmentos doc_transitorios
           [utf8 "Artículo 1. Uno."] (utf8 "TRANSITORIOS")
           [utf8 "Primero. Vigencia."; utf8 "CAPÍTULO I"]
           (utf8 "Segundo. Derogación.") []
           [(2%nat, utf8 "Derogación."); (1%nat, utf8 "Segundo")]).
  - vm_compute. reflexivity.
  - repeat constructor.
  - vm_compute. reflexivity.
  - vm_compute. reflexivity.
Defined.

(** ** What the first group captures *)

Lemma group_cons_other (k n : nat) (v : str) (g : caps) :
  Nat.eqb k n = false -> group n ((k, v) :: g) = group n g.
Proof. intros H. cbn [group]. rewrite H. reflexivity. Qed.

(** A pattern without group [n] leaves that capture as it was. *)
Lemma run_preserva_grupo (ic : bool) (n : nat) (r : re) :
  sin_grupo n r = true ->
  forall s g m, In m (run ic r s g) -> group n (snd m) = group n g.
Proof.
  induction r as [ | cs | a IHa b IHb | a IHa b IHb | cs | cs | k a IHa | ];
    intros Hr s g m Hm; cbn [run sin_grupo] in *.
  - destruct Hm as [<-|[]]. reflexivity.
  - destruct s as [|c s']; [ destruct Hm | ].
    destruct (cls_match ic cs c); [ | destruct Hm ].
    destruct Hm as [<-|[]]. reflexivity.
  - apply andb_true_iff in Hr. destruct Hr as [Ha Hb].
    apply in_flat_map in Hm. destruct Hm as (m1 & H1 & H2).
    rewrite (IHb Hb _ _ _ H2). exact (IHa Ha _ _ _ H1).
  - apply andb_true_iff in Hr. destruct Hr as [Ha Hb].
    apply in_app_or in Hm. destruct Hm as [Hm|Hm];
      [ exact (IHa Ha _ _ _ Hm) | exact (IHb Hb _ _ _ Hm) ].
  - apply in_map_iff in Hm. destruct Hm as (s1 & <- & _). reflexivity.
  - apply in_map_iff in Hm. destruct Hm as (s1 & <- & _). reflexivity.
  - apply andb_true_iff in Hr. destruct Hr as [Hk Ha].
    apply negb_true_iff in Hk.
    apply in_map_iff in Hm. destruct Hm as (m1 & <- & H1). cbn [snd].
    rewrite (group_cons_other _ _ _ _ Hk). exact (IHa Ha _ _ _ H1).
  - destruct (at_eol s); [ | destruct Hm ]. destruct Hm as [<-|[]]. reflexivity.
Qed.

Lemma consumed_app (p s1 : str) : consumed (p ++ s1) s1 = p.
Proof.
  unfold consumed. rewrite length_app.
  replace (List.length p + List.length s1 - List.length s1)%nat
    with (List.length p) by lia.
  rewrite firstn_app, Nat.sub_diag, firstn_O, app_nil_r. apply firstn_all.
Qed.

(** In a pattern that opens with group [n] and has no other group [n],
    the capture is the text that the group's pattern matched. *)
Lemma re_match_grupo_inicial (ic : bool) (n : nat) (a : re) (resto : list re)
    (s : str) (m : caps) :
  sin_grupo n (RSeqs resto) = true ->
  re_match ic (RSeqs (RGroup n a :: resto)) s = Some m ->
  exists s1, den ic a s s1 /\ s = group n m ++ s1.
Proof.
  intros Hr E. unfold re_match in E.
  destruct (run ic (RSeqs (RGroup n a :: resto)) s []) as [|m0 l] eqn:R;
    [ discriminate | ].
  injection E as <-.
  assert (Hin : In m0 (run ic (RSeqs (RGroup n a :: resto)) s []))
    by (rewrite R; left; reflexivity).
  cbn [RSeqs run] in Hin. apply in_flat_map in Hin.
  destruct Hin as (m1 & H1 & H2).
  apply in_map_iff in H1. destruct H1 as ([s1 g1] & <- & H1).
  cbn [fst snd] in H2.
  rewrite (run_preserva_grupo ic n (RSeqs resto) Hr _ _ _ H2).
  cbn [group]. rewrite Nat.eqb_refl.
  assert (D : den ic a s s1)
    by (apply (run_den ic a s [] s1); exists g1; exact H1).
  exists s1. split; [ exact D | ].
  destruct (den_suffix ic a s s1 D) as (p & ->).
  rewrite consumed_app. reflexivity.
Qed.

(** ** Markers and keys have neither blanks nor periods *)

Lemma isspace_tolower (b : char) : isspace b = true -> tolower b = b.
Proof.
  unfold isspace, tolower. intros H.
  repeat match type of H with
         | (_ || _) = true => apply orb_true_iff in H; destruct H as [H|H]
         end;
    repeat match type of H with
           | (_ && _) = true =>
               let H1 := fresh in
               apply andb_true_iff in H; destruct H as [H H1];
               apply N.leb_le in H1
           end;
    try apply N.leb_le in H; try apply N.eqb_eq in H;
    repeat match goal with
           | |- context [(?x <=? ?y)] =>
               destruct (N.leb_spec x y); try lia; cbn [andb negb]
           | |- context [(?x =? ?y)] =>
               destruct (N.eqb_spec x y); try lia; cbn [andb negb]
           end;
    reflexivity.
Qed.

Lemma de_marca_tolower (b : char) :
  isspace (tolower b) = false -> tolower b <> DOT -> de_marca b.
Proof.
  intros Hs Hd. split.
  - destruct (isspace b) eqn:E; [ | reflexivity ].
    rewrite (isspace_tolower b E) in Hs. congruence.
  - intros ->. apply Hd. reflexivity.
Qed.

(** A character that matches a visible literal, with or without case. *)
Lemma citem_lit_de_marca (ic : bool) (a b : char) :
  isspace (tolower a) = false -> tolower a <> DOT ->
  isspace a = false -> a <> DOT ->
  citem_match ic (CLit a) b = true -> de_marca b.
Proof.
  intros H1 H2 H3 H4 H. cbn [citem_match] in H. destruct ic.
  - apply orb_true_iff in H. destruct H as [H|H].
    + apply N.eqb_eq in H. apply de_marca_tolower; rewrite H; assumption.
    + unfold ignorecase_fixes in H.
      destruct (tolower a =? 105); [ | destruct (tolower a =? 115) ];
        cbn [existsb] in H; rewrite ?orb_false_r in H; try discriminate;
        apply N.eqb_eq in H; apply de_marca_tolower; rewrite H;
        (reflexivity || discriminate).
  - apply N.eqb_eq in H. subst b. split; assumption.
Qed.

Lemma cls_lits_de_marca (ic : bool) (w : str) (b : char) :
  forallb letra_visible w = true ->
  cls_match ic (map CLit w) b = true -> de_marca b.
Proof.
  unfold cls_match. induction w as [|a w IH]; cbn [map existsb forallb];
    [ discriminate | ].
  intros Hw H. apply andb_true_iff in Hw. destruct Hw as [Ha Hw].
  apply orb_true_iff in H. destruct H as [H|H]; [ | exact (IH Hw H) ].
  unfold letra_visible in Ha.
  repeat (apply andb_true_iff in Ha; destruct Ha as [Ha ?]).
  repeat match goal with
         | K : negb _ = true |- _ => apply negb_true_iff in K
         end.
  apply (citem_lit_de_marca ic a b); try assumption;
    apply N.eqb_neq; assumption.
Qed.

Lemma palabra_de_marca (ic : bool) (w p : str) :
  forallb letra_visible w = true ->
  palabra ic w p = true -> Forall de_marca p.
Proof.
  revert p. induction w as [|a w IH]; intros [|b p] Hw H;
    cbn [palabra forallb] in *; try discriminate; [ constructor | ].
  apply andb_true_iff in Hw. destruct Hw as [Ha Hw].
  apply andb_true_iff in H. destruct H as [Hb H].
  constructor; [ | exact (IH p Hw H) ].
  apply (cls_lits_de_marca ic [a] b).
  - cbn [forallb]. rewrite Ha. reflexivity.
  - unfold cls_match. cbn [map existsb]. rewrite Hb. reflexivity.
Qed.

Lemma digito_de_marca (ic : bool) (b : char) :
  cls_match ic digit b = true -> de_marca b.
Proof.
  unfold cls_match, digit. cbn [existsb citem_match]. rewrite orb_false_r.
  intros H. apply andb_true_iff in H. destruct H as [H1 H2].
  apply N.leb_le in H1, H2. destruct ic.
  - apply de_marca_tolower.
    + unfold isspace.
      repeat match goal with
             | |- context [(?x <=? ?y)] =>
                 destruct (N.leb_spec x y); try lia; cbn [andb orb]
             | |- context [(?x =? ?y)] =>
                 destruct (N.eqb_spec x y); try lia; cbn [andb orb]
             end; reflexivity.
    + unfold DOT. lia.
  - split; [ | unfold DOT; lia ]. unfold isspace.
    repeat match goal with
           | |- context [(?x <=? ?y)] =>
               destruct (N.leb_spec x y); try lia; cbn [andb orb]
           | |- context [(?x =? ?y)] =>
               destruct (N.eqb_spec x y); try lia; cbn [andb orb]
           end; reflexivity.
Qed.

Lemma minuscula_de_marca (b : char) :
  cls_match false [CRange 97 122] b = true -> de_marca b.
Proof.
  unfold cls_match. cbn [existsb citem_match]. rewrite orb_false_r.
  intros H. apply andb_true_iff in H. destruct H as [H1 H2].
  apply N.leb_le in H1, H2.
  split; [ | unfold DOT; lia ]. unfold isspace.
  repeat match goal with
         | |- context [(?x <=? ?y)] =>
             destruct (N.leb_spec x y); try lia; cbn [andb orb]
         | |- context [(?x =? ?y)] =>
             destruct (N.eqb_spec x y); try lia; cbn [andb orb]
         end; reflexivity.
Qed.

Lemma forallb_de_marca (P : char -> bool) (p : str) :
  (forall b, P b = true -> de_marca b) ->
  forallb P p = true -> Forall de_marca p.
Proof.
  intros HP. induction p as [|b p IH]; cbn [forallb]; [ constructor | ].
  intros H. apply andb_true_iff in H. destruct H as [Hb H].
  constructor; [ exact (HP b Hb) | exact (IH H) ].
Qed.

Lemma den_romano_de_marca (ic : bool) (p s1 : str) :
  den ic (RPlus roman) (p ++ s1) s1 -> p <> [] /\ Forall de_marca p.
Proof.
  intros D. apply den_RPlus in D. destruct D as (q & E & Hne & Hq).
  apply app_inv_tail in E. subst q. split; [ exact Hne | ].
  apply (forallb_de_marca _ p (fun b => cls_lits_de_marca ic (utf8 "IVXLCDM") b eq_refl) Hq).
Qed.

Lemma den_digitos_de_marca (ic : bool) (p s1 : str) :
  den ic (RPlus digit) (p ++ s1) s1 -> p <> [] /\ Forall de_marca p.
Proof.
  intros D. apply den_RPlus in D. destruct D as (q & E & Hne & Hq).
  apply app_inv_tail in E. subst q. split; [ exact Hne | ].
  exact (forallb_de_marca _ p (digito_de_marca ic) Hq).
Qed.

Lemma den_word_de_marca (ic : bool) (w : string) (p s1 : str) :
  forallb letra_visible (utf8 w) = true ->
  den ic (word w) (p ++ s1) s1 -> Forall de_marca p.
Proof.
  intros Hw D. apply den_word in D. destruct D as (q & E & Hq).
  apply app_inv_tail in E. subst q. exact (palabra_de_marca ic _ p Hw Hq).
Qed.

Lemma ordinales_visibles :
  Forall (fun w => forallb letra_visible (utf8 w) = true) ordinales.
Proof. repeat constructor. Qed.

Lemma tolower_digito (b : char) :
  is_ascii_digit (tolower b) = true -> is_ascii_digit b = true.
Proof.
  intros H. replace b with (tolower b) at 1; [ exact H | ].
  unfold is_ascii_digit in H. bool_hyps. unfold tolower in *.
  repeat match goal with
         | K : context [if ?c then _ else _] |- _ => destruct c eqn:?
         end; bool_hyps; try lia; reflexivity.
Qed.

Lemma tolower_ordinal (b : char) : tolower b = 186 -> b = 186.
Proof.
  unfold tolower.
  repeat match goal with
         | |- context [if ?c then _ else _] => destruct c eqn:?
         end; bool_hyps; intros; lia.
Qed.

Lemma palabra_false_eq (w p : str) : palabra false w p = true -> p = w.
Proof.
  revert p. induction w as [|a w IH]; intros [|b p] H;
    cbn [palabra citem_match] in H; try discriminate; [ reflexivity | ].
  apply andb_true_iff in H. destruct H as [Hb H].
  apply N.eqb_eq in Hb. subst b. f_equal. exact (IH p H).
Qed.

Lemma forallb_imp {A : Type} (P Q : A -> bool) (l : list A) :
  (forall x, P x = true -> Q x = true) ->
  forallb P l = true -> forallb Q l = true.
Proof.
  intros HPQ. induction l as [|x l IH]; cbn [forallb]; [ reflexivity | ].
  intros H. apply andb_true_iff in H. destruct H as [Hx H].
  rewrite (HPQ x Hx), (IH H). reflexivity.
Qed.

Lemma digit_ascii (ic : bool) (c : char) :
  cls_match ic digit c = true -> is_ascii_digit c = true.
Proof.
  unfold cls_match, digit. cbn [existsb citem_match]. rewrite orb_false_r.
  destruct ic; [ apply tolower_digito | exact (fun H => H) ].
Qed.

(** The marker of a sub-item header. *)
Lemma marca_fraccion_forma (s : str) (m : caps) :
  re_match false pat_fraccion s = Some m -> forma_marca (group 1 m).
Proof.
  intros E. unfold pat_fraccion in E. cbn [app] in E.
  apply re_match_grupo_inicial in E; [ | reflexivity ].
  destruct E as (s1 & D & ->). set (p := group 1 m) in *. clearbody p.
  apply den_RAlts in D. destruct D as (a & Ha & D).
  destruct Ha as [<-|[<-|[<-|[]]]].
  - left. apply den_RPlus in D. destruct D as (q & E & Hne & Hq).
    apply app_inv_tail in E. subst q. split; assumption.
  - right. left. cbn [den] in D. destruct D as (mid & (c & E1 & Hc) & D2).
    apply den_word in D2. destruct D2 as (q & E2 & Hq).
    apply palabra_false_eq in Hq. subst mid q.
    change (c :: utf8 ")" ++ s1) with ((c :: utf8 ")") ++ s1) in E1.
    apply app_inv_tail in E1. subst p. exists c. split; [ | reflexivity ].
    unfold cls_match in Hc. cbn [existsb citem_match] in Hc.
    rewrite orb_false_r in Hc. bool_hyps. lia.
  - right. right. cbn [den] in D. destruct D as (mid & D1 & D2).
    apply den_word in D2. destruct D2 as (q & E2 & Hq).
    apply palabra_false_eq in Hq. subst mid q.
    apply den_RPlus in D1. destruct D1 as (d & Ed & Hne & Hd).
    rewrite app_assoc in Ed. apply app_inv_tail in Ed. subst p.
    exists d. split; [ exact Hne | ]. split; [ | reflexivity ].
    exact (forallb_imp _ _ d (digit_ascii false) Hd).
Qed.

(** The key of a transitory item. *)
Lemma clave_transitorio_forma (s : str) (m : caps) :
  re_match true pat_transitorio_item s = Some m -> forma_clave (group 1 m).
Proof.
  intros E. unfold pat_transitorio_item in E. cbn [app] in E.
  apply re_match_grupo_inicial in E; [ | reflexivity ].
  destruct E as (s1 & D & ->). set (p := group 1 m) in *. clearbody p.
  apply den_RAlts in D. destruct D as (a & Ha & D).
  apply in_app_or in Ha. destruct Ha as [Ha|[<-|[<-|[]]]].
  - left. apply in_map_iff in Ha. destruct Ha as (w & <- & Hw).
    apply den_word in D. destruct D as (q & Eq & Hq).
    apply app_inv_tail in Eq. subst q. exists w. split; assumption.
  - right. left. cbn [den ROpt] in D. destruct D as (mid & D1 & D2).
    apply den_RPlus in D1. destruct D1 as (d & Ed & Hne & Hd).
    exists d. split; [ exact Hne | ].
    split; [ exact (forallb_imp _ _ d (digit_ascii true) Hd) | ].
    destruct D2 as [D2|D2].
    + right. apply den_word in D2. destruct D2 as (q & E2 & Hq). subst mid.
      rewrite app_assoc in Ed. apply app_inv_tail in Ed. subst p. f_equal.
      assert (U : utf8 "º" = [186]) by (vm_compute; reflexivity).
      rewrite U in Hq.
      destruct q as [|o [|o' q']]; cbn [palabra] in Hq; try discriminate.
      * rewrite andb_true_r in Hq. cbn [citem_match] in Hq.
        change (tolower 186) with 186 in Hq.
        change (ignorecase_fixes 186) with (@nil char) in Hq.
        cbn [existsb] in Hq. rewrite orb_false_r in Hq.
        apply N.eqb_eq in Hq. rewrite (tolower_ordinal o Hq). reflexivity.
      * rewrite andb_false_r in Hq. discriminate.
    + left. subst mid. apply app_inv_tail in Ed. exact Ed.
  - right. right. apply den_RPlus in D. destruct D as (q & E & Hne & Hq).
    apply app_inv_tail in E. subst q. split; assumption.
Qed.

Lemma ascii_digito_de_marca (c : char) :
  is_ascii_digit c = true -> de_marca c.
Proof.
  intros H. apply (digito_de_marca false). unfold cls_match, digit.
  cbn [existsb citem_match]. rewrite orb_false_r. exact H.
Qed.

Lemma forma_marca_de_marca (k : str) :
  forma_marca k -> k <> [] /\ Forall de_marca k.
Proof.
  intros [[Hne H]|[(c & Hc & ->)|(d & Hne & Hd & ->)]].
  - split; [ exact Hne | ].
    exact (forallb_de_marca _ k
             (fun b => cls_lits_de_marca false (utf8 "IVXLCDM") b eq_refl) H).
  - split; [ discriminate | ]. constructor.
    + apply minuscula_de_marca. unfold cls_match.
      cbn [existsb citem_match]. rewrite orb_false_r.
      apply andb_true_iff. split; apply N.leb_le; lia.
    + constructor; [ | constructor ]. split; [ reflexivity | discriminate ].
  - split; [ intros K; apply app_eq_nil in K; destruct K; contradiction | ].
    apply Forall_app. split.
    + exact (forallb_de_marca _ d ascii_digito_de_marca Hd).
    + constructor; [ | constructor ]. split; [ reflexivity | discriminate ].
Qed.

Lemma forma_clave_de_marca (k : str) :
  forma_clave k -> k <> [] /\ Forall de_marca k.
Proof.
  intros [(w & Hw & H)|[(d & Hne & Hd & E)|[Hne H]]].
  - pose proof ordinales_visibles as V. rewrite Forall_forall in V.
    split; [ | exact (palabra_de_marca true _ k (V w Hw) H) ].
    intros ->.
    destruct Hw as [<-|[<-|[<-|[<-|[<-|[<-|[<-|[<-|[<-|[<-|[]]]]]]]]]]];
      vm_compute in H; discriminate.
  - pose proof (forallb_de_marca _ d ascii_digito_de_marca Hd) as F.
    destruct E as [->| ->]; [ split; assumption | ].
    split; [ intros K; apply app_eq_nil in K; destruct K; contradiction | ].
    apply Forall_app. split; [ exact F | ].
    constructor; [ | constructor ]. split; [ reflexivity | discriminate ].
  - split; [ exact Hne | ].
    exact (forallb_de_marca _ k
             (fun b => cls_lits_de_marca true (utf8 "IVXLCDM") b eq_refl) H).
Qed.

Lemma rstrip_char_fixed (k : str) :
  Forall de_marca k -> rstrip_char DOT k = k.
Proof.
  intros H. unfold rstrip_char.
  destruct (rev k) as [|c r] eqn:E.
  - apply (f_equal (@rev char)) in E. rewrite rev_involutive in E.
    rewrite E. reflexivity.
  - assert (Hc : de_marca c).
    { rewrite Forall_forall in H. apply H. apply in_rev. rewrite E.
      left. reflexivity. }
    cbn [lstrip_char]. destruct Hc as [_ Hc].
    replace (c =? DOT) with false by (symmetry; apply N.eqb_neq; exact Hc).
    rewrite <- E. apply rev_involutive.
Qed.

Lemma strip_de_marca (k : str) : Forall de_marca k -> strip k = k.
Proof.
  intros H. apply strip_fixed.
  - intros c s' ->. inversion H as [|? ? [Hc _] _]. exact Hc.
  - intros p c ->. apply Forall_app in H. destruct H as [_ H].
    inversion H as [|? ? [Hc _] _]. exact Hc.
Qed.

(** ** Markers and keys as stored *)

Lemma marca_guardada (s : str) (m : caps) :
  re_match false pat_fraccion s = Some m ->
  rstrip_char DOT (group 1 m) = group 1 m /\ forma_marca (group 1 m).
Proof.
  intros E. pose proof (marca_fraccion_forma s m E) as F.
  split; [ | exact F ].
  apply rstrip_char_fixed. exact (proj2 (forma_marca_de_marca _ F)).
Qed.

Lemma clave_guardada (s : str) (m : caps) :
  re_match true pat_transitorio_item s = Some m ->
  rstrip_char DOT (group 1 m) = group 1 m /\ forma_clave (group 1 m).
Proof.
  intros E. pose proof (clave_transitorio_forma s m E) as F.
  split; [ | exact F ].
  apply rstrip_char_fixed. exact (proj2 (forma_clave_de_marca _ F)).
Qed.

Lemma guardar_fraccion_marcas (Q : str -> Prop) (fr : list Fraccion)
    (cur : option str) (txt : list str) :
  Forall (fun f => Q (fraccion f)) fr ->
  (forall k, cur = Some k -> Q k) ->
  Forall (fun f => Q (fraccion f)) (guardar_fraccion fr cur txt).
Proof.
  intros Hfr Hk. unfold guardar_fraccion. destruct cur as [k|]; [ | exact Hfr ].
  destruct (nonempty k && nonempty txt); [ | exact Hfr ].
  apply Forall_app. split; [ exact Hfr | ]. constructor; [ | constructor ].
  cbn [fraccion]. apply Hk. reflexivity.
Qed.

Lemma fracciones_loop_marcas (Q : str -> Prop) :
  (forall s m, re_match false pat_fraccion s = Some m ->
               Q (rstrip_char DOT (group 1 m))) ->
  forall lines fr cur txt,
    Forall (fun f => Q (fraccion f)) fr ->
    (forall k, cur = Some k -> Q k) ->
    Forall (fun f => Q (fraccion f)) (fracciones_loop lines fr cur txt).
Proof.
  intros HQ. induction lines as [|l ls IH]; intros fr cur txt Hfr Hk.
  - apply guardar_fraccion_marcas; assumption.
  - cbn [fracciones_loop].
    destruct (nonempty (strip l)); cbn [negb]; [ | apply IH; assumption ].
    destruct (re_match false pat_fraccion (strip l)) as [m|] eqn:E.
    + apply IH; [ apply guardar_fraccion_marcas; assumption | ].
      intros k Ek. injection Ek as <-. exact (HQ _ _ E).
    + destruct (truthy cur); apply IH; assumption.
Qed.

Lemma parsear_fracciones_marcas (texto : str) :
  Forall (fun f => forma_marca (fraccion f)) (parsear_fracciones texto).
Proof.
  unfold parsear_fracciones.
  apply (fracciones_loop_marcas forma_marca);
    [ | constructor | discriminate ].
  intros s m E. destruct (marca_guardada s m E) as [-> F]. exact F.
Qed.

Lemma guardar_transitorio_claves (Q : str -> Prop) (tr : list Transitorio)
    (cur : option str) (txt : list str) :
  Forall (fun t => Q (transitorio_articulo t)) tr ->
  (forall k, cur = Some k -> Q k) ->
  Forall (fun t => Q (transitorio_articulo t)) (guardar_transitorio tr cur txt).
Proof.
  intros Htr Hk. unfold guardar_transitorio.
  destruct cur as [k|]; [ | exact Htr ].
  destruct (nonempty k && nonempty txt); [ | exact Htr ].
  apply Forall_app. split; [ exact Htr | ]. constructor; [ | constructor ].
  cbn [transitorio_articulo]. apply Hk. reflexivity.
Qed.

Lemma transitorios_loop_claves (Q : str -> Prop) :
  (forall s m, re_match true pat_transitorio_item s = Some m ->
               Q (rstrip_char DOT (group 1 m))) ->
  forall lines tr cur txt,
    Forall (fun t => Q (transitorio_articulo t)) tr ->
    (forall k, cur = Some k -> Q k) ->
    Forall (fun t => Q (transitorio_articulo t))
           (transitorios_loop lines tr cur txt).
Proof.
  intros HQ. induction lines as [|l ls IH]; intros tr cur txt Htr Hk.
  - apply guardar_transitorio_claves; assumption.
  - cbn [transitorios_loop].
    destruct (nonempty (strip l)); cbn [negb]; [ | apply IH; assumption ].
    destruct (re_match true pat_transitorio_item (strip l)) as [m|] eqn:E.
    + apply IH; [ apply guardar_transitorio_claves; assumption | ].
      intros k Ek. injection Ek as <-. exact (HQ _ _ E).
    + destruct (truthy cur); apply IH; assumption.
Qed.

Lemma parsear_transitorios_claves (contenido : str) :
  Forall (fun t => forma_clave (transitorio_articulo t))
         (parsear_transitorios contenido).
Proof.
  unfold parsear_transitorios.
  destruct (inicio_transitorios (split_nl contenido)) as [i|]; [ | constructor ].
  apply (transitorios_loop_claves forma_clave);
    [ | constructor | discriminate ].
  intros s m E. destruct (clave_guardada s m E) as [-> F]. exact F.
Qed.

(** X18: the marker of a sub-item is stored as the header has it: the
    removal of trailing periods never removes anything.  Every marker
    returned by [parsear_fracciones] is a run of Roman-numeral capitals, or
    a small ASCII letter with a closing parenthesis, or ASCII digits with a
    closing parenthesis; it holds neither whitespace nor a period. *)
Theorem X18_marcas_de_fraccion (texto : str) :
  (forall s m, re_match false pat_fraccion s = Some m ->
               rstrip_char DOT (group 1 m) = group 1 m)
  /\ Forall (fun f => forma_marca (fraccion f)
                      /\ Forall de_marca (fraccion f))
            (parsear_fracciones texto).
Proof.
  split.
  - intros s m E. exact (proj1 (marca_guardada s m E)).
  - eapply Forall_impl; [ | apply parsear_fracciones_marcas ].
    intros f F. split; [ exact F | ].
    exact (proj2 (forma_marca_de_marca _ F)).
Qed.

(** X19: the key of a transitory article is stored as the header has it.
    Every key returned by [parsear_transitorios] is one of the ordinal
    words PRIMERO to DÉCIMO in any letter case, or ASCII digits with or
    without the ordinal sign, or Roman-numeral letters in any case; it
    holds neither whitespace nor a period. *)
Theorem X19_claves_de_transitorio (contenido : str) :
  (forall s m, re_match true pat_transitorio_item s = Some m ->
               rstrip_char DOT (group 1 m) = group 1 m)
  /\ Forall (fun t => forma_clave (transitorio_articulo t)
                      /\ Forall de_marca (transitorio_articulo t))
            (parsear_transitorios contenido).
Proof.
  split.
  - intros s m E. exact (proj1 (clave_guardada s m E)).
  - eapply Forall_impl; [ | apply parsear_transitorios_claves ].
    intros t F. split; [ exact F | ].
    exact (proj2 (forma_clave_de_marca _ F)).
Qed.

(** ** No string of the result has whitespace at its ends *)

Lemma normalizado_strip (s : str) : normalizado s -> strip s = s.
Proof. intros N. exact (proj1 (proj2 (proj2 N))). Qed.

Lemma parsear_fracciones_sin_blancos (texto : str) :
  Forall fraccion_sin_blancos (parsear_fracciones texto).
Proof.
  pose proof (parsear_fracciones_todas_ok texto) as A.
  pose proof (parsear_fracciones_marcas texto) as B.
  rewrite Forall_forall in A, B. apply Forall_forall. intros f Hf.
  split.
  - apply strip_de_marca. exact (proj2 (forma_marca_de_marca _ (B f Hf))).
  - apply normalizado_strip. exact (proj2 (proj2 (A f Hf))).
Qed.

Lemma construir_articulo_sin_blancos (n : Z) (txt : list str) :
  articulo_sin_blancos (construir_articulo n txt).
Proof.
  unfold articulo_sin_blancos, construir_articulo.
  cbn [articulo_texto fracciones]. split.
  - apply normalizado_strip. apply limpiar_texto_normal.
  - apply parsear_fracciones_sin_blancos.
Qed.

Lemma guardar_articulo_todos (R : Articulo -> Prop) (arts : list Articulo)
    (cur : option Z) (txt : list str) :
  (forall n t, R (construir_articulo n t)) ->
  Forall R arts -> Forall R (guardar_articulo arts cur txt).
Proof.
  intros HR Ha. unfold guardar_articulo. destruct cur as [n|]; [ | exact Ha ].
  destruct (nonempty txt); [ | exact Ha ].
  apply Forall_app. split; [ exact Ha | ]. constructor; [ apply HR | constructor ].
Qed.

Lemma articulos_loop_todos (R : Articulo -> Prop) :
  (forall n t, R (construir_articulo n t)) ->
  forall lines arts cur txt,
    Forall R arts -> Forall R (articulos_loop lines arts cur txt).
Proof.
  intros HR. induction lines as [|l ls IH]; intros arts cur txt Ha.
  - apply guardar_articulo_todos; assumption.
  - cbn [articulos_loop].
    destruct (nonempty (strip l)); cbn [negb]; [ | apply IH; assumption ].
    destruct (es_capitulo (strip l));
      [ apply guardar_articulo_todos; assumption | ].
    destruct (re_match false pat_articulo (strip l)) as [m|].
    + apply IH. apply guardar_articulo_todos; assumption.
    + destruct cur as [n|]; apply IH; assumption.
Qed.

Lemma parsear_articulos_sin_blancos (contenido : str) (inicio fin : nat) :
  Forall articulo_sin_blancos (parsear_articulos contenido inicio fin).
Proof.
  unfold parsear_articulos.
  apply (articulos_loop_todos articulo_sin_blancos);
    [ apply construir_articulo_sin_blancos | constructor ].
Qed.

Lemma capitulo_de_sin_blancos (contenido : str)
    (es : list (nat * str * nat)) :
  Forall (fun t => strip t = t) (map (fun e => snd (fst e)) es) ->
  Forall capitulo_sin_blancos (flat_map (capitulo_de contenido) es).
Proof.
  induction es as [|[[pos titulo] fin] es IH]; intros H; [ constructor | ].
  cbn [map fst snd] in H. inversion H as [|? ? Ht Hes]; subst.
  cbn [flat_map]. apply Forall_app. split; [ | exact (IH Hes) ].
  rewrite capitulo_de_eq.
  destruct (nonempty (parsear_articulos contenido (pos + 1) fin));
    constructor; [ | constructor ].
  split; [ exact Ht | apply parsear_articulos_sin_blancos ].
Qed.

Lemma titulos_sin_blancos (lines : list str) :
  Forall (fun t => strip t = t) (filter es_capitulo (map strip lines)).
Proof.
  apply Forall_forall. intros t Ht. apply filter_In in Ht.
  destruct Ht as [Ht _]. apply in_map_iff in Ht. destruct Ht as (l & <- & _).
  apply strip_idempotent.
Qed.

Lemma parsear_capitulos_sin_blancos (contenido : str) :
  Forall capitulo_sin_blancos (parsear_capitulos contenido).
Proof.
  destruct (nonempty (capitulo_positions (split_nl contenido))) eqn:H.
  - rewrite (parsear_capitulos_extensiones _ H).
    apply capitulo_de_sin_blancos. rewrite extensiones_titulos.
    unfold capitulo_positions. rewrite capitulo_positions_from_titulos.
    apply titulos_sin_blancos.
  - unfold parsear_capitulos. rewrite H. cbn [negb].
    destruct (nonempty (parsear_articulos contenido 0 _));
      constructor; [ | constructor ].
    split; [ vm_compute; reflexivity | apply parsear_articulos_sin_blancos ].
Qed.

Lemma parsear_transitorios_sin_blancos (contenido : str) :
  Forall transitorio_sin_blancos (parsear_transitorios contenido).
Proof.
  pose proof (parsear_transitorios_todos_ok contenido) as A.
  pose proof (parsear_transitorios_claves contenido) as B.
  rewrite Forall_forall in A, B. apply Forall_forall. intros t Ht.
  split.
  - apply strip_de_marca. exact (proj2 (forma_clave_de_marca _ (B t Ht))).
  - apply normalizado_strip. exact (proj2 (proj2 (A t Ht))).
Qed.

(** X20: no string of the structure built from a document begins or ends
    with whitespace (the preamble, the title, the chapter labels, the
    bodies of the articles, the markers and texts of the sub-items, the
    keys and texts of the transitory articles): stripping the fields, as
    the models are configured to do, changes nothing. *)
Theorem X20_estructura_sin_blancos (T : CaseTable) (contenido : str) :
  ley_sin_blancos (procesar_contenido T contenido).
Proof.
  unfold ley_sin_blancos, procesar_contenido.
  cbn [decreto titulo capitulos transitorios].
  split; [ | split; [ | split ] ].
  - destruct (extraer_decreto contenido) as [d|] eqn:E; [ | exact I ].
    exact (proj2 (extraer_decreto_visible contenido d E)).
  - apply normalizado_strip. apply extraer_titulo_normal.
  - apply parsear_capitulos_sin_blancos.
  - apply parsear_transitorios_sin_blancos.
Qed.

(* ================================================================== *)
(** * The title against the specification (C8) *)
(* ================================================================== *)

Lemma run_RLit (ic : bool) (w : str) :
  forall s g,
    run ic (RLit w) s g
    = if palabra ic w (firstn (List.length w) s)
      then [(skipn (List.length w) s, g)] else [].
Proof.
  induction w as [|a w IH]; intros s g; [ reflexivity | ].
  cbn [RLit run List.length]. destruct s as [|b s'].
  - reflexivity.
  - cbn [firstn skipn palabra]. unfold cls_match. cbn [existsb].
    rewrite orb_false_r.
    destruct (citem_match ic (CLit a) b); cbn [flat_map fst snd andb];
      [ | reflexivity ].
    rewrite app_nil_r. apply IH.
Qed.

Lemma star_greedy_blancos (ic : bool) (s : str) :
  exists l, star_greedy ic [CSpace] s = lstrip s :: l /\ Forall con_blanco l.
Proof.
  induction s as [|c s' (l & E & F)].
  - exists []. split; [ reflexivity | constructor ].
  - cbn [star_greedy lstrip]. unfold cls_match. cbn [existsb citem_match].
    rewrite orb_false_r. destruct (isspace c) eqn:Hc.
    + exists (l ++ [c :: s']). rewrite E. split; [ reflexivity | ].
      apply Forall_app. split; [ exact F | ].
      constructor; [ | constructor ]. exists c, s'. split; [ reflexivity | exact Hc ].
    + exists []. split; [ reflexivity | constructor ].
Qed.

Lemma run_blancos (ic : bool) (s : str) (g : caps) :
  run ic (RPlus [CSpace]) s g
  = match s with
    | c :: s' =>
        if isspace c
        then map (fun x => (x, g)) (star_greedy ic [CSpace] s')
        else []
    | [] => []
    end.
Proof.
  unfold RPlus. cbn [run]. destruct s as [|c s']; [ reflexivity | ].
  unfold cls_match. cbn [existsb citem_match]. rewrite orb_false_r.
  destruct (isspace c); [ | reflexivity ].
  cbn [flat_map fst snd]. apply app_nil_r.
Qed.

Lemma flat_map_nil {A B : Type} (f : A -> list B) (l : list A) :
  Forall (fun x => f x = []) l -> flat_map f l = [].
Proof.
  induction 1 as [|x l Hx _ IH]; [ reflexivity | ].
  cbn [flat_map]. rewrite Hx, IH. reflexivity.
Qed.

(** A word that begins with a letter does not begin a text that begins
    with whitespace. *)
Lemma tras_palabra_con_blanco (w x : str) :
  con_letra w -> con_blanco x -> tras_palabra w x = None.
Proof.
  intros (a & w' & -> & Ha) (c & x' & -> & Hc).
  unfold tras_palabra, empieza_con. cbn [List.length firstn palabra].
  destruct (citem_match true (CLit a) c) eqn:M; [ | reflexivity ].
  exfalso.
  assert (D : de_marca c).
  { apply (cls_lits_de_marca true [a] c).
    - cbn [forallb]. rewrite Ha. reflexivity.
    - unfold cls_match. cbn [map existsb]. rewrite M. reflexivity. }
  destruct D as [D _]. congruence.
Qed.

(** The matcher on a run of words: its first candidate is what the
    specification's reading leaves, and it has none when that reading
    fails. *)
Lemma run_pat_palabras (ws : list str) :
  Forall con_letra ws ->
  forall s g,
    match tras_palabras ws s with
    | Some t => exists l, run true (pat_palabras ws) s g = (t, g) :: l
    | None => run true (pat_palabras ws) s g = []
    end.
Proof.
  induction 1 as [|w ws Hw Hws IH]; intros s g.
  - exists []. reflexivity.
  - cbn [tras_palabras pat_palabras].
    change (run true (RSeq (RLit w) (RSeq (RPlus [CSpace]) (pat_palabras ws)))
              s g)
      with (flat_map
              (fun m =>
                 flat_map (fun m' => run true (pat_palabras ws) (fst m') (snd m'))
                          (run true (RPlus [CSpace]) (fst m) (snd m)))
              (run true (RLit w) s g)).
    rewrite run_RLit. unfold tras_palabra, empieza_con.
    destruct (palabra true w (firstn (List.length w) s)); [ | reflexivity ].
    cbn [flat_map fst snd]. rewrite app_nil_r, run_blancos.
    destruct (skipn (List.length w) s) as [|c s']; [ reflexivity | ].
    destruct (isspace c); [ | reflexivity ].
    destruct (star_greedy_blancos true s') as (l & -> & F).
    cbn [map flat_map fst snd].
    pose proof (IH (lstrip s') g) as I.
    destruct (tras_palabras ws (lstrip s')) as [t|] eqn:T.
    + destruct I as (l0 & ->). eexists. reflexivity.
    + rewrite I. cbn [app]. apply flat_map_nil.
      apply Forall_forall. intros m Hm. apply in_map_iff in Hm.
      destruct Hm as (x & <- & Hx). cbn [fst snd].
      rewrite Forall_forall in F. specialize (F x Hx).
      destruct ws as [|w2 ws2]; [ discriminate | ].
      pose proof (IH x g) as Ix. cbn [tras_palabras] in Ix.
      inversion Hws as [|? ? Hw2 _]; subst.
      rewrite (tras_palabra_con_blanco w2 x Hw2 F) in Ix. exact Ix.
Qed.

Lemma run_RSeq_REps (ic : bool) (a : re) (s : str) (g : caps) :
  run ic (RSeq a REps) s g = run ic a s g.
Proof.
  cbn [run]. induction (run ic a s g) as [|[s1 g1] l IH]; [ reflexivity | ].
  cbn [flat_map fst snd app]. rewrite IH. reflexivity.
Qed.

Lemma run_RSeq_cola (ic : bool) (a b : re) (s : str) (g : caps) :
  run ic (RSeq a (RSeq b REps)) s g = run ic (RSeq a b) s g.
Proof.
  change (run ic (RSeq a (RSeq b REps)) s g)
    with (flat_map (fun m => run ic (RSeq b REps) (fst m) (snd m))
                   (run ic a s g)).
  cbn [run]. apply flat_map_ext. intros m. apply run_RSeq_REps.
Qed.

Lemma rellenos_con_letra :
  Forall (fun r => Forall con_letra (map utf8 r)) rellenos.
Proof.
  repeat constructor; eexists; eexists; (split; [ vm_compute; reflexivity | reflexivity ]).
Qed.

(** The prefix removal of the source is the one of the specification. *)
Lemma re_sub_prefijo_spec (s : str) :
  re_sub_prefix true pat_prefijo_ley s = sin_relleno s.
Proof.
  pose proof rellenos_con_letra as R. unfold rellenos in R.
  inversion R as [|? ? R1 R']; subst. inversion R' as [|? ? R2 _]; subst.
  unfold re_sub_prefix, pat_prefijo_ley, sin_relleno, rellenos.
  cbn [sin_relleno_de RAlts].
  change (run true
            (RGroup 1
               (RAlt
                  (RSeqs [word "LEY"; RPlus [CSpace]; word "DE";
                          RPlus [CSpace]; word "INGRESOS"; RPlus [CSpace];
                          word "DEL"; RPlus [CSpace]])
                  (RAlt (RSeq (word "LEY") (RPlus [CSpace])) (RChar []))))
            s [])
    with (map (fun m => (fst m, (1%nat, consumed s (fst m)) :: snd m))
              (run true
                 (pat_palabras
                    (map utf8 ["LEY"; "DE"; "INGRESOS"; "DEL"]%string)) s []
               ++ run true (RSeq (RLit (utf8 "LEY")) (RPlus [CSpace])) s []
               ++ run true (RChar []) s [])).
  pose proof (run_pat_palabras _ R1 s []) as I1.
  destruct (tras_palabras (map utf8 ["LEY"; "DE"; "INGRESOS"; "DEL"]%string) s)
    as [t|].
  - destruct I1 as (l & ->). reflexivity.
  - rewrite I1. cbn [app].
    pose proof (run_pat_palabras _ R2 s []) as I2.
    destruct (tras_palabras (map utf8 ["LEY"%string]) s) as [t|];
      cbn [map pat_palabras] in I2; rewrite run_RSeq_cola in I2.
    + destruct I2 as (l & ->). reflexivity.
    + rewrite I2. cbn [app run]. destruct s as [|c s']; reflexivity.
Qed.

Lemma find_ext_eq {A : Type} (f g : A -> bool) (l : list A) :
  (forall x, f x = g x) -> find f l = find g l.
Proof.
  intros H. induction l as [|x l IH]; [ reflexivity | ].
  cbn [find]. rewrite H, IH. reflexivity.
Qed.

(** The keyword test of the source is the one of the specification. *)
Lemma re_test_pat_ley (s : str) :
  re_test true pat_ley s = es_linea_de_ley s.
Proof.
  unfold re_test, re_match, pat_ley. cbn [RAlts run]. unfold word.
  rewrite !run_RLit.
  unfold es_linea_de_ley, palabras_clave. cbn [existsb]. unfold empieza_con.
  destruct (palabra true (utf8 "LEY") _); [ reflexivity | ].
  destruct (palabra true (utf8 "CÓDIGO") _); [ reflexivity | ].
  destruct (palabra true (utf8 "CONSTITUCIÓN") _); [ reflexivity | ].
  destruct (palabra true (utf8 "REGLAMENTO") _); [ reflexivity | ].
  cbn [app map]. destruct s as [|c s']; reflexivity.
Qed.

(** C8: the title is never empty, and stays so when blanks are stripped
    from it.  It comes from the first line that, stripped, begins with
    LEY, CÓDIGO, CONSTITUCIÓN or REGLAMENTO in any letter case: that line
    without its filler prefix (LEY DE INGRESOS DEL, or else LEY, each word
    followed by whitespace), normalised by [limpiar_texto].  Failing that,
    it is the first fully upper-case line longer than 10 characters among
    the first ten lines, stripped and normalised; failing that, "Título no
    identificado". *)
Theorem C8_titulo_no_vacio (T : CaseTable) (contenido : str) :
  extraer_titulo T contenido <> []
  /\ strip (extraer_titulo T contenido) <> []
  /\ extraer_titulo T contenido
     = match find (fun l => es_linea_de_ley (strip l))
               (split_nl contenido) with
       | Some l => limpiar_texto (sin_relleno (strip l))
       | None =>
           match find (fun l => (10 <? List.length (strip l))%nat
                                && isupper T (strip l))
                   (firstn 10 (split_nl contenido)) with
           | Some l => limpiar_texto (strip l)
           | None => titulo_no_identificado
           end
       end.
Proof.
  assert (V : forall t, (exists d, In d t /\ isspace d = false) ->
                        forall u, t = u -> t <> [] /\ strip t <> [] /\ t = u).
  { intros t Ht u E. destruct (visible_nonempty t Ht) as [H1 H2].
    repeat split; assumption. }
  unfold extraer_titulo. rewrite titulo_loop1_find, titulo_loop2_find.
  rewrite <- (find_ext_eq _ _ (split_nl contenido)
                (fun l => re_test_pat_ley (strip l))).
  destruct (find (fun l => re_test true pat_ley (strip l))
              (split_nl contenido)) as [l|] eqn:F1; cbn [option_map].
  - rewrite <- re_sub_prefijo_spec.
    apply V; [ | reflexivity ]. apply find_some in F1.
    apply titulo_de_ley_visible. apply F1.
  - destruct (find _ (firstn 10 (split_nl contenido))) as [l|] eqn:F2;
      cbn [option_map].
    + apply V; [ | reflexivity ]. apply find_some in F2.
      destruct F2 as [_ F2]. apply andb_true_iff in F2.
      apply titulo_mayusculas_visible. apply F2.
    + apply V; [ | reflexivity ]. exists 84. split; vm_compute; tauto.
Qed.

(** The title is not the line without its filler prefix: the line
    "LEY FEDERAL  DEL TRABAJO", with a doubled blank, gives the title
    "FEDERAL DEL TRABAJO", which is no part of the line. *)
Lemma C8_counterexample :
  ~ (forall (T : CaseTable) (contenido l : str),
        find (fun l => es_linea_de_ley (strip l)) (split_nl contenido)
        = Some l ->
        extraer_titulo T contenido = sin_relleno (strip l)).
Proof.
  intros H.
  specialize (H latin1 doc_doble_blanco (utf8 "LEY FEDERAL  DEL TRABAJO")).
  assert (E : extraer_titulo latin1 doc_doble_blanco
              = utf8 "FEDERAL DEL TRABAJO") by (vm_compute; reflexivity).
  assert (S : sin_relleno (strip (utf8 "LEY FEDERAL  DEL TRABAJO"))
              = utf8 "FEDERAL  DEL TRABAJO") by (vm_compute; reflexivity).
  rewrite E, S in H.
  assert (K : utf8 "FEDERAL DEL TRABAJO" = utf8 "FEDERAL  DEL TRABAJO")
    by (apply H; vm_compute; reflexivity).
  vm_compute in K. discriminate.
Qed.
